(** * Wasteland storage backends: a shallow embedding and its properties

    The development follows the two backends of the repository:
    - [Memory]: the reference in-memory backend ([backends/Memory.js]),
      a process-local map from addresses to signed, sequenced records;
    - [Grenache]: the chunking backend ([backends/Grenache.js]), which
      slices a payload, stores the slices through a transport and
      publishes a buffer of pointers, and reassembles on retrieval;
    - [GrenacheEarlier]: the earlier revision of that backend, the
      second listing of [backends/Grenache.js].

    JavaScript values are modelled as follows.  Strings and [Buffer]s are
    byte strings ([string]); an absent property ([undefined]) is [None];
    sequence numbers are integers ([Z]; a number holds those that are
    doubles), and adding one to them rounds as a double does; a
    callback-taking function
    becomes a function returning an [outcome] that records how (and
    whether) the callback was invoked; [Math.random] is an oracle indexed
    by the number of draws made so far.  The options object that [put]
    shares with every function it calls, and that these overwrite, is
    part of the state.  Tasks handed to [async] start in array order and
    their results are collected by position; the model runs them one
    after the other.

    The hash, the signature, [JSON.parse] and the transport are
    interfaces; the helpers of [lib/data-helper.js], which is not among
    the sources, follow the specification, except [getSliceLimit], which
    is an interface too. *)

From Stdlib Require Import ZArith NArith Ascii String List Lia.
From stdpp Require Import base option list strings pretty gmap.

Local Open Scope string_scope.
Set Warnings "-register-all".

(** ** JavaScript preliminaries *)

(** A [Buffer] is a sequence of bytes.  [Buffer.from(s)] on a string
    yields its bytes, which for the byte strings used here is [s]. *)
Definition Buffer := string.

Definition Buffer_from (s : string) : Buffer := s.

Definition hex_digit (n : N) : ascii :=
  match n with
  | 0%N => "0" | 1%N => "1" | 2%N => "2" | 3%N => "3"
  | 4%N => "4" | 5%N => "5" | 6%N => "6" | 7%N => "7"
  | 8%N => "8" | 9%N => "9" | 10%N => "a" | 11%N => "b"
  | 12%N => "c" | 13%N => "d" | 14%N => "e" | _ => "f"
  end%char.

(** [buf.toString('hex')]: two lower-case hexadecimal digits per byte. *)
Fixpoint toString_hex (b : Buffer) : string :=
  match b with
  | EmptyString => EmptyString
  | String c rest =>
      let n := N_of_ascii c in
      String (hex_digit (n / 16)) (String (hex_digit (n mod 16)) (toString_hex rest))
  end.

(** [Buffer.concat(bs)]. *)
Definition Buffer_concat (bs : list Buffer) : Buffer :=
  fold_right String.append EmptyString bs.

(** Strings put end to end. *)
Definition concat_strings (l : list string) : string :=
  fold_right String.append "" l.

(** Truthiness of a string-valued property: [undefined] and [''] are
    falsy. *)
Definition truthy_str (o : option string) : bool :=
  match o with
  | Some s => negb (String.eqb s "")
  | None => false
  end.

(** Truthiness of a number-valued property: [undefined] and [0] are
    falsy. *)
Definition truthy_num (o : option Z) : bool :=
  match o with
  | Some z => negb (Z.eqb z 0)
  | None => false
  end.

(** Numbers are doubles.  [double_of_Z z] is the double nearest to the
    integer [z], ties going to the even mantissa: [z] itself below
    [2^53] in magnitude, and from there on a multiple of the spacing
    [u] of the doubles around [z]. *)
Definition double_of_Z (z : Z) : Z :=
  let a := Z.abs z in
  if (a <? 2 ^ 53)%Z then z
  else
    let u := (2 ^ (Z.log2 a - 52))%Z in
    let q := (a / u)%Z in
    let r := (a mod u)%Z in
    let m := if (2 * r <? u)%Z then q
             else if (u <? 2 * r)%Z then (q + 1)%Z
             else if Z.even q then q else (q + 1)%Z in
    (Z.sgn z * (m * u))%Z.

(** [x + 1] on a number that holds the integer [s]. *)
Definition js_succ (s : Z) : Z := double_of_Z (s + 1).

(** String concatenation [acc + x] where [x] may be [undefined]. *)
Definition js_string (o : option string) : string :=
  match o with
  | Some s => s
  | None => "undefined"
  end.

(** The record stored at one address; every property is optional, as in
    the JavaScript object. *)
Record Rec : Type := mkRec {
  v : option string;
  seq : option Z;
  salt : option string;
  k : option string;
  sig : option string;
  id : option string;
  original : option string
}.

Definition emptyRec : Rec :=
  {| v := None; seq := None; salt := None; k := None; sig := None;
     id := None; original := None |}.

Definition set_v (x : option string) (r : Rec) : Rec :=
  {| v := x; seq := seq r; salt := salt r; k := k r; sig := sig r;
     id := id r; original := original r |}.

Definition set_original (x : option string) (r : Rec) : Rec :=
  {| v := v r; seq := seq r; salt := salt r; k := k r; sig := sig r;
     id := id r; original := x |}.

Definition set_id (x : option string) (r : Rec) : Rec :=
  {| v := v r; seq := seq r; salt := salt r; k := k r; sig := sig r;
     id := x; original := original r |}.

Definition set_salt (x : option string) (r : Rec) : Rec :=
  {| v := v r; seq := seq r; salt := x; k := k r; sig := sig r;
     id := id r; original := original r |}.

(** The options object of a call: [{ seq, salt }]. *)
Record Opts : Type := mkOpts {
  o_seq : option Z;
  o_salt : option string
}.

Record Keys : Type := mkKeys {
  publicKey : Buffer;
  secretKey : Buffer
}.

(** How a callback-taking function ends: the callback receives a value,
    the callback receives an error (identified by its message), or the
    callback is never invoked.  [OutOfFuel] is the model's own: the
    recursion budget given to the function was too small. *)
Inductive outcome (A : Type) : Type :=
| Done (a : A)
| Failed (msg : string)
| NoCallback
| OutOfFuel.

Arguments Done {A} a.
Arguments Failed {A} msg.
Arguments NoCallback {A}.
Arguments OutOfFuel {A}.

(** External primitives: the hash, the random source, the canonical
    encoder and the signature.  [Math_random n] is the text that the
    [n]-th call of [Math.random()] contributes to [data + Math.random()]. *)
Class Primitives : Type := {
  sha1_hex : string -> string;
  Math_random : nat -> string;
  bencode_encode : option Z -> option string -> option string -> string;
  ed_sign : string -> Buffer -> Buffer -> Buffer
}.

(** ** The reference in-memory backend *)

Module Memory.

Record State : Type := mkState {
  store : gmap string Rec;
  draws : nat
}.

Section Backend.
Context `{Prim : Primitives}.
Variable keys : Keys.

(** [getSha(data)]: [sha1(data + Math.random())]; consumes one draw. *)
Definition getSha (data : string) (n : nat) : string :=
  sha1_hex (data ++ Math_random n).

Definition getPayload (data : string) (opts : Opts) (n : nat) : Rec * nat :=
  let '(salt_, n') :=
    if truthy_str (o_salt opts) then (js_string (o_salt opts), n)
    else (getSha data n, S n) in
  let k_ := toString_hex (publicKey keys) in
  let encoded := bencode_encode (o_seq opts) (Some data) (o_salt opts) in
  let sig_ := toString_hex (ed_sign encoded (publicKey keys) (secretKey keys)) in
  ({| v := Some data; seq := o_seq opts; salt := Some salt_;
      k := Some k_; sig := Some sig_; id := None; original := None |}, n').

(** The address computed by [put]:
    [Buffer.concat([Buffer.from(payload.k), Buffer.from(payload.salt)]).toString('hex')]. *)
Definition address (payload : Rec) : string :=
  toString_hex (Buffer_concat [Buffer_from (js_string (k payload));
                               Buffer_from (js_string (salt payload))]).

(** [nextSeq !== payload.seq] with [nextSeq = stored.seq + 1], a sum of
    doubles; an absent stored [seq] makes [nextSeq] a NaN, which differs
    from everything. *)
Definition seq_conflict (stored payload : Rec) : bool :=
  match seq stored with
  | Some s =>
      match seq payload with
      | Some n => negb (Z.eqb (js_succ s) n)
      | None => true
      end
  | None => true
  end.

Definition put (data : string) (opts : Opts) (st : State) : outcome string * State :=
  if String.eqb data "" then (Failed "no data provided", st)
  else
    let '(payload, n') := getPayload data opts (draws st) in
    let key := address payload in
    match store st !! key with
    | None => (Done key, {| store := <[key := payload]> (store st); draws := n' |})
    | Some stored =>
        if seq_conflict stored payload
        then (Failed "ERR_CONFLICT_SEQ", {| store := store st; draws := n' |})
        else (Done key, {| store := <[key := payload]> (store st); draws := n' |})
    end.

Definition get (key : string) (st : State) : outcome Rec :=
  if String.eqb key "" then Failed "no key provided"
  else
    match store st !! key with
    | Some r => Done (set_id (Some "memory") r)
    | None => Done (set_id (Some "memory") emptyRec)
    end.

End Backend.

End Memory.


(** ** The chunking backend *)

Module Grenache.

(** *** JSON *)

(** The values [JSON.parse] can produce.  A parsed number is inspected by
    the backend for truthiness only, so integers suffice. *)
Inductive json : Type :=
| JNull
| JBool (b : bool)
| JNum (z : Z)
| JStr (s : string)
| JArr (elems : list json)
| JObj (fields : list (string * json)).

Definition dquote : ascii := ascii_of_nat 34.
Definition backslash : ascii := ascii_of_nat 92.

(** The escape sequence [JSON.stringify] emits for one character of a
    string: the quote and the backslash are escaped, control characters
    use their short form or [\u00XX], everything else is copied. *)
Definition escape_char (c : ascii) : string :=
  let n := N_of_ascii c in
  if (n =? 34)%N then String backslash (String dquote "")
  else if (n =? 92)%N then String backslash (String backslash "")
  else if (n =? 8)%N then String backslash "b"
  else if (n =? 9)%N then String backslash "t"
  else if (n =? 10)%N then String backslash "n"
  else if (n =? 12)%N then String backslash "f"
  else if (n =? 13)%N then String backslash "r"
  else if (n <? 32)%N then
    String backslash
      (String "u" (String "0" (String "0"
        (String (hex_digit (n / 16)) (String (hex_digit (n mod 16)) "")))))
  else String c "".

Fixpoint escape (s : string) : string :=
  match s with
  | EmptyString => EmptyString
  | String c rest => escape_char c +:+ escape rest
  end.

Definition quote (s : string) : string :=
  String dquote (escape s +:+ String dquote "").

Fixpoint join_comma (l : list string) : string :=
  match l with
  | [] => ""
  | [x] => x
  | x :: rest => x +:+ "," +:+ join_comma rest
  end.

(** [JSON.stringify]. *)
Fixpoint JSON_stringify (j : json) : string :=
  match j with
  | JNull => "null"
  | JBool true => "true"
  | JBool false => "false"
  | JNum z => pretty z
  | JStr s => quote s
  | JArr elems => "[" +:+ join_comma (List.map JSON_stringify elems) +:+ "]"
  | JObj fields =>
      "{" +:+ join_comma
                (List.map (fun kx => quote (fst kx) +:+ ":" +:+ JSON_stringify (snd kx))
                          fields) +:+ "}"
  end.

(** [JSON.parse], a primitive of the platform; [None] stands for the
    [SyntaxError] it throws. *)
Class JSON : Type := {
  JSON_parse : string -> option json
}.

(** [!x] on a parsed value. *)
Definition falsy (j : json) : bool :=
  match j with
  | JNull => true
  | JBool b => negb b
  | JNum z => (z =? 0)%Z
  | JStr s => String.eqb s ""
  | _ => false
  end.

Fixpoint assoc (key : string) (fields : list (string * json)) : option json :=
  match fields with
  | [] => None
  | (k0, x) :: rest => if String.eqb k0 key then Some x else assoc key rest
  end.

(** Property access [x.key] on a parsed value; anything but an object
    has no such own property. *)
Definition property (j : json) (key : string) : option json :=
  match j with
  | JObj fields => assoc key fields
  | _ => None
  end.

(** *** Configuration and the helpers of [lib/data-helper.js] *)

Record Conf : Type := mkConf {
  maxIndirections : Z;
  bufferSizelimit : Z;
  addressSize : Z;
  concurrentRequests : Z;
  keys : option Keys
}.

(** The defaults of the constructor. *)
Definition default_conf : Conf :=
  {| maxIndirections := 2; bufferSizelimit := 1000; addressSize := 40;
     concurrentRequests := 5; keys := None |}.

(** The object [{ wasteland_type: 'pointers', p: pointers }] and the
    method [wrapPointers] of the backend, which serializes it. *)
Definition pointers_object (pointers : list string) : json :=
  JObj [("wasteland_type", JStr "pointers"); ("p", JArr (List.map JStr pointers))].

Definition wrapPointers (pointers : list string) : string :=
  JSON_stringify (pointers_object pointers).

Fixpoint string_take (n : nat) (s : string) : string :=
  match n, s with
  | S n', String c rest => String c (string_take n' rest)
  | _, _ => EmptyString
  end.

Fixpoint string_drop (n : nat) (s : string) : string :=
  match n, s with
  | S n', String _ rest => string_drop n' rest
  | _, _ => s
  end.

Fixpoint sliceData_go (fuel limit : nat) (s : string) : list string :=
  match fuel with
  | O => []
  | S fuel' =>
      if String.eqb s "" then []
      else string_take limit s :: sliceData_go fuel' limit (string_drop limit s)
  end.

(** Modelled from the spec: the slicer of [lib/data-helper.js], which is
    not among the sources.  Spec 4.1: a deterministic split into
    fragments each of length at most [limit] and, except possibly the
    last, of length exactly [limit]; order is preserved; the empty
    payload is a single empty fragment. *)
Definition sliceData (data : string) (limit : Z) : list string :=
  match sliceData_go (String.length data) (Z.to_nat limit) data with
  | [] => [""]
  | slices => slices
  end.

(** Modelled from the spec: [prepareData(data, conf, cb)] of
    [lib/data-helper.js]; it hands the slices of [data] under
    [conf.bufferSizelimit] to its callback and reports no error. *)
Definition prepareData (data : string) (c : Conf) : outcome (list string) :=
  Done (sliceData data (bufferSizelimit c)).

(** Modelled from the spec: [getMaxPointersPerBuffer] of
    [lib/data-helper.js].  Spec 4.2: [K = floor((B - O) / (A + sep))]
    where [O] is the length of the serialized empty pointer buffer and
    [sep] the two quotes and the comma that accompany each address. *)
Definition getMaxPointersPerBuffer (limit addrSize : Z)
    (wrap : list string -> string) : Z :=
  (limit - Z.of_nat (String.length (wrap []))) / (addrSize + 3).

(** [getSliceLimit] of [lib/data-helper.js], a file that is not among
    the sources.  The constructor calls it once, with the buffer size,
    the pointers per buffer and the indirections allowed, and keeps the
    number it answers as [maxSliceCount]; [storeChunked] compares the
    number of slices with it.  The backend is verified for every such
    function. *)
Class DataHelper : Type := {
  getSliceLimit : Z -> Z -> Z -> Z
}.

Fixpoint boxes_go {A : Type} (fuel size : nat) (l : list A) : list (list A) :=
  match fuel with
  | O => []
  | S fuel' =>
      match l with
      | [] => []
      | _ => take size l :: boxes_go fuel' size (drop size l)
      end
  end.

(** Modelled from the spec: [prepareMultiLevelData] of
    [lib/data-helper.js].  Spec 4.3: the fragments are grouped into
    consecutive boxes of size [K]. *)
Definition prepareMultiLevelData {A : Type} (slices : list A) (maxPointers : Z)
    : list (list A) :=
  boxes_go (length slices) (Z.to_nat maxPointers) slices.

(** The fields a constructed backend carries. *)
Record Backend : Type := mkBackend {
  conf : Conf;
  maxPointersPerBuffer : Z;
  maxSliceCount : Z
}.

(** The constructor, once a transport is set. *)
Definition new_backend `{Helper : DataHelper} (c : Conf) : Backend :=
  let K := getMaxPointersPerBuffer (bufferSizelimit c) (addressSize c) wrapPointers in
  {| conf := c;
     maxPointersPerBuffer := K;
     maxSliceCount := getSliceLimit (bufferSizelimit c) K (maxIndirections c) |}.

(** *** The transport *)

(** What distinguishes one transport from another: how it derives
    addresses, which immutable write it answers with an error (given the
    number of calls it has served before), and which overwrite of a
    mutable entry it accepts. *)
Class Transport : Type := {
  transport_id : string;
  immutable_address : Rec -> string;
  immutable_error : nat -> Rec -> option string;
  mutable_address : Buffer -> option string -> string;
  mutable_accepts : Rec -> Rec -> bool
}.

(** A transport call made by the backend. *)
Inductive Call : Type :=
| CallPut (payload : Rec)
| CallPutMutable (payload : Rec) (o : Opts) (ks : option Keys).

Definition call_payload (c : Call) : Rec :=
  match c with
  | CallPut p => p
  | CallPutMutable p _ _ => p
  end.

(** The state a [put] runs in: the records held by the transport, the
    options object shared by every function of the call (with the
    [keys] property [send] adds to it), the number of [Math.random]
    draws made, and the transport calls made so far, oldest first. *)
Record World : Type := mkWorld {
  store : gmap string Rec;
  opts : Opts;
  opts_keys : option Keys;
  draws : nat;
  calls : list Call
}.

Definition M (A : Type) : Type := World -> outcome A * World.

Definition ret {A : Type} (a : A) : M A := fun w => (Done a, w).

Definition bind {A B : Type} (m : M A) (f : A -> M B) : M B :=
  fun w =>
    match m w with
    | (Done a, w') => f a w'
    | (Failed e, w') => (Failed e, w')
    | (NoCallback, w') => (NoCallback, w')
    | (OutOfFuel, w') => (OutOfFuel, w')
    end.

Definition fail {A : Type} (msg : string) : M A := fun w => (Failed msg, w).

Notation "x <- m ;; f" := (bind m (fun x => f))
  (at level 100, m at next level, right associativity).

(** Tasks run in array order, results are collected by position and the
    first error ends the run: [async.series], and [async.parallelLimit]
    as far as the values it hands over are concerned. *)
Fixpoint mapM {A B : Type} (f : A -> M B) (l : list A) : M (list B) :=
  match l with
  | [] => ret []
  | x :: rest => y <- f x ;; ys <- mapM f rest ;; ret (y :: ys)
  end.

Definition set_opts_salt (s : string) : M unit :=
  fun w => (Done tt,
            {| store := store w;
               opts := {| o_seq := o_seq (opts w); o_salt := Some s |};
               opts_keys := opts_keys w; draws := draws w; calls := calls w |}).

Definition set_opts_keys (ks : Keys) : M unit :=
  fun w => (Done tt,
            {| store := store w; opts := opts w; opts_keys := Some ks;
               draws := draws w; calls := calls w |}).

Definition set_seq (x : option Z) (r : Rec) : Rec :=
  {| v := v r; seq := x; salt := salt r; k := k r; sig := sig r;
     id := id r; original := original r |}.

Definition set_k_sig (kx sx : option string) (r : Rec) : Rec :=
  {| v := v r; seq := seq r; salt := salt r; k := kx; sig := sx;
     id := id r; original := original r |}.

Section Backend.
Context `{Prim : Primitives} `{Json : JSON} `{Tr : Transport}.
Variable bk : Backend.

(** Modelled from the spec: [transport.put], the immutable write of the
    transport (an external collaborator).  Spec 4.5: the record is stored
    under an address computed from its content.  Spec 7: the transport
    may fail; its error goes to the callback and nothing is stored. *)
Definition transport_put (payload : Rec) : M string :=
  fun w =>
    match immutable_error (length (calls w)) payload with
    | Some e =>
        (Failed e,
         {| store := store w; opts := opts w;
            opts_keys := opts_keys w; draws := draws w;
            calls := (calls w ++ [CallPut payload])%list |})
    | None =>
        let a := immutable_address payload in
        (Done a,
         {| store := <[a := payload]> (store w); opts := opts w;
            opts_keys := opts_keys w; draws := draws w;
            calls := (calls w ++ [CallPut payload])%list |})
    end.

(** Modelled from the spec: [transport.putMutable].  Spec 4.5: the
    record is signed with the keys found in the options and stored under
    an address derived from the public key and the salt; an overwrite the
    transport does not accept is rejected with a sequence error (the
    message is the one the integration test expects).  The backend calls
    it only after [send] has put the keys into the options. *)
Definition transport_putMutable (payload : Rec) : M string :=
  fun w =>
    let w1 :=
      {| store := store w; opts := opts w; opts_keys := opts_keys w;
         draws := draws w;
         calls := (calls w ++ [CallPutMutable payload (opts w) (opts_keys w)])%list |} in
    match opts_keys w with
    | None => (Failed "ERR_MISSING_KEYS", w1)
    | Some ks =>
        let encoded := bencode_encode (seq payload) (v payload) (salt payload) in
        let signed :=
          set_k_sig (Some (toString_hex (publicKey ks)))
                    (Some (toString_hex (ed_sign encoded (publicKey ks) (secretKey ks))))
                    payload in
        let a := mutable_address (publicKey ks) (salt payload) in
        let stored :=
          {| store := <[a := signed]> (store w); opts := opts w;
             opts_keys := opts_keys w; draws := draws w; calls := calls w1 |} in
        match store w !! a with
        | None => (Done a, stored)
        | Some old =>
            if mutable_accepts old signed then (Done a, stored)
            else (Failed "302 sequence number less than current", w1)
        end
    end.

(** Modelled from the spec: [transport.get].  Spec 4.5: the record at
    the address, or a sentinel without [v] when there is none. *)
Definition transport_get (st : gmap string Rec) (key : string) : outcome Rec :=
  match st !! key with
  | Some r => Done (set_id (Some transport_id) r)
  | None => Done (set_id (Some transport_id) emptyRec)
  end.

(** *** Writing *)

Definition getPayload (data : string) (o : Opts) : Rec :=
  let res := set_v (Some data) emptyRec in
  if negb (truthy_num (o_seq o)) then res
  else
    let res := if truthy_str (o_salt o) then set_salt (o_salt o) res else res in
    set_seq (o_seq o) res.

(** [sha1(data + Math.random())]. *)
Definition sha_of (data : string) (n : nat) : string :=
  sha1_hex (data +:+ Math_random n).

Definition getSha (data : string) : M string :=
  fun w =>
    (Done (sha_of data (draws w)),
     {| store := store w; opts := opts w; opts_keys := opts_keys w;
        draws := S (draws w); calls := calls w |}).

Definition sendImmutable (payload : Rec) : M string :=
  fun w =>
    let payload :=
      if truthy_str (o_salt (opts w)) then set_salt (o_salt (opts w)) payload
      else payload in
    transport_put payload w.

Definition sendMutable (payload : Rec) : M string :=
  transport_putMutable payload.

(** [opts.seq !== 0 && !opts.seq]. *)
Definition seq_absent (o : Opts) : bool :=
  negb (bool_decide (o_seq o = Some 0%Z)) && negb (truthy_num (o_seq o)).

Definition send (data : string) : M string :=
  fun w =>
    let payload := getPayload data (opts w) in
    if seq_absent (opts w) then sendImmutable payload w
    else
      match keys (conf bk) with
      | None => (Failed "no keys set", w)
      | Some ks => (_ <- set_opts_keys ks ;; sendMutable payload) w
      end.

Definition getStoreTasks (slices : list string) : list (M string) :=
  List.map (fun chunk => sha <- getSha chunk ;; _ <- set_opts_salt sha ;; send chunk)
           slices.

Definition taskParallel {A : Type} (tasks : list (M A)) : M (list A) :=
  mapM (fun t => t) tasks.

Definition storeParallel (slices : list string) : M (list string) :=
  taskParallel (getStoreTasks slices).

Definition wrapAndStorePointers (p : list string) : M string :=
  let wrapped := wrapPointers p in
  sha <- getSha (JSON_stringify (JStr wrapped)) ;;
  _ <- set_opts_salt sha ;;
  send wrapped.

(** [async.series] over the boxes; its callback returns the error
    instead of passing it on, so the caller's callback is not invoked. *)
Definition storeUntilPointersFit (put_ : string -> M string)
    (boxes : list (list string)) : M string :=
  fun w =>
    match mapM storeParallel boxes w with
    | (Done res, w') => put_ (wrapPointers (List.concat res)) w'
    | (Failed _, w') => (NoCallback, w')
    | (NoCallback, w') => (NoCallback, w')
    | (OutOfFuel, w') => (OutOfFuel, w')
    end.

Definition storeChunked (put_ : string -> M string) (slices : list string) : M string :=
  let K := maxPointersPerBuffer bk in
  if (Z.of_nat (length slices) <? K)%Z then
    pointers <- storeParallel slices ;; wrapAndStorePointers pointers
  else if (Z.of_nat (length slices) >? maxSliceCount bk)%Z then
    fail "data too large: adjust maxIndirections"
  else
    storeUntilPointersFit put_ (prepareMultiLevelData slices K).

Fixpoint put (fuel : nat) (data : string) : M string :=
  match fuel with
  | O => fun w => (OutOfFuel, w)
  | S fuel' =>
      slices <- (fun w => (prepareData data (conf bk), w)) ;;
      match slices with
      | [slice0] =>
          fun w =>
            (_ <- (if truthy_str (o_salt (opts w)) then ret tt
                   else sha <- getSha slice0 ;; set_opts_salt sha) ;;
             send slice0) w
      | _ => storeChunked (put fuel') slices
      end
  end.

(** *** Reading *)

Definition isResultChunked (payload : json) : bool :=
  if falsy payload then false
  else
    match property payload "wasteland_type" with
    | Some (JStr t) => String.eqb t "pointers"
    | _ => false
    end.

(** [get(pointer, { recursive: true }, cb)] for one element of the
    pointer array: a falsy element is refused, a string is looked up, and
    for anything else the transport finds nothing. *)
Definition get_pointer (st : gmap string Rec) (pointer : json) : outcome Rec :=
  if falsy pointer then Failed "no key provided"
  else
    match pointer with
    | JStr key => transport_get st key
    | _ => Done (set_id (Some transport_id) emptyRec)
    end.

Definition getRetrieveTasks (st : gmap string Rec) (pointers : list json)
    : list (outcome Rec) :=
  List.map (get_pointer st) pointers.

(** The results of the tasks by position, or the first error. *)
Fixpoint all_done {A : Type} (tasks : list (outcome A)) : outcome (list A) :=
  match tasks with
  | [] => Done []
  | t :: rest =>
      match t with
      | Done r =>
          match all_done rest with
          | Done rs => Done (r :: rs)
          | Failed e => Failed e
          | NoCallback => NoCallback
          | OutOfFuel => OutOfFuel
          end
      | Failed e => Failed e
      | NoCallback => NoCallback
      | OutOfFuel => OutOfFuel
      end
  end.

(** [taskParallel(getRetrieveTasks(pointers))]. *)
Definition collect (st : gmap string Rec) (pointers : list json) : outcome (list Rec) :=
  all_done (getRetrieveTasks st pointers).

(** [res.reduce((acc, el) => acc + el.v, '')]. *)
Definition reduce_v (res : list Rec) : string :=
  fold_left (fun acc el => acc +:+ js_string (v el)) res "".

(** [handleChunked(payload, pointers, cb)], with [maybe_] for the call
    back into [maybeRetrieveChunked].  A [pointers] that is not an array
    makes [pointers.map] throw outside every callback. *)
Definition handleChunked (maybe_ : Rec -> outcome Rec) (st : gmap string Rec)
    (payload : Rec) (pointers : option json) : outcome Rec :=
  let payload := set_original (v payload) payload in
  match pointers with
  | Some (JArr ps) =>
      match collect st ps with
      | Done res => maybe_ (set_v (Some (reduce_v res)) payload)
      | Failed e => Failed e
      | NoCallback => NoCallback
      | OutOfFuel => OutOfFuel
      end
  | _ => NoCallback
  end.

(** [JSON.parse] of a missing [v] throws, as it does on any text that is
    not JSON, and the record is handed back as it is. *)
Fixpoint maybeRetrieveChunked (fuel : nat) (st : gmap string Rec) (payload : Rec)
    : outcome Rec :=
  match fuel with
  | O => OutOfFuel
  | S fuel' =>
      match v payload with
      | None => Done payload
      | Some text =>
          match JSON_parse text with
          | None => Done payload
          | Some content =>
              if isResultChunked content then
                handleChunked (maybeRetrieveChunked fuel' st) st payload
                  (property content "p")
              else Done payload
          end
      end
  end.

Definition get (fuel : nat) (st : gmap string Rec) (key : string) (recursive : bool)
    : outcome Rec :=
  if String.eqb key "" then Failed "no key provided"
  else
    match transport_get st key with
    | Done data =>
        if recursive then Done data else maybeRetrieveChunked fuel st data
    | Failed e => Failed e
    | NoCallback => NoCallback
    | OutOfFuel => OutOfFuel
    end.

(** *** One level of reassembly

    The test and the step that [maybeRetrieveChunked] repeats, taken on
    their own: whether a text is a pointer buffer, and the text that
    replaces it - what its children hold, end to end. *)

Definition is_chunked (text : string) : bool :=
  match JSON_parse text with
  | Some content => isResultChunked content
  | None => false
  end.

Definition step (st : gmap string Rec) (text : string) : option string :=
  match JSON_parse text with
  | Some content =>
      if isResultChunked content then
        match property content "p" with
        | Some (JArr pointers) =>
            match collect st pointers with
            | Done res => Some (reduce_v res)
            | _ => None
            end
        | _ => None
        end
      else None
  | None => None
  end.

Fixpoint iter_step (st : gmap string Rec) (n : nat) (text : string) : option string :=
  match n with
  | O => Some text
  | S n' =>
      match step st text with
      | Some text' => iter_step st n' text'
      | None => None
      end
  end.

(** *** The salts of the records sent

    Vocabulary for the salting policy. *)

(** The salt of the record of call [c] is a digest drawn by [getSha]
    between draw [lo] and draw [hi], of the record's own [v] (a
    fragment) or of [JSON.stringify] of it (a pointer buffer stored by
    [wrapAndStorePointers]). *)
Definition own_digest (lo hi : nat) (c : Call) : Prop :=
  exists i, lo <= i < hi /\
    (salt (call_payload c) = Some (sha_of (js_string (v (call_payload c))) i) \/
     salt (call_payload c)
     = Some (sha_of (JSON_stringify (JStr (js_string (v (call_payload c))))) i)).

End Backend.

(** *** What the proofs ask of the platform *)

(** [JSON.parse] reads back what [JSON.stringify] wrote for a pointer
    buffer. *)
Class JSONLaws `{Json : JSON} : Prop := {
  JSON_parse_wrapPointers :
    forall p : list string, JSON_parse (wrapPointers p) = Some (pointers_object p)
}.

(** An idealised transport: the address of an immutable record
    determines its content (no collisions), no address is the empty
    string, and a mutable entry is never overwritten by a record of the
    same [seq]. *)
Class TransportLaws `{Tr : Transport} : Prop := {
  immutable_address_content :
    forall r1 r2 : Rec, immutable_address r1 = immutable_address r2 -> v r1 = v r2;
  immutable_address_nonempty : forall r : Rec, immutable_address r <> "";
  mutable_address_nonempty :
    forall (pk : Buffer) (s : option string), mutable_address pk s <> "";
  mutable_accepts_seq :
    forall old new : Rec, mutable_accepts old new = true -> seq new <> seq old
}.

(** A content-addressed transport in the narrow sense: the immutable
    address depends on [v] alone, whatever salt accompanies it. *)
Class ContentAddressed `{Tr : Transport} : Prop := {
  immutable_address_v :
    forall r1 r2 : Rec, v r1 = v r2 -> immutable_address r1 = immutable_address r2
}.

(** A digest is never the empty text. *)
Class PrimitivesLaws `{Prim : Primitives} : Prop := {
  sha1_hex_nonempty : forall s : string, sha1_hex s <> ""
}.

End Grenache.


(** ** A small concrete platform

    One instance of each interface, used to run the backends on concrete
    inputs: a reader for serialized pointer buffers, a transport whose
    immutable address is an injective function of the content, and
    stand-ins for the hash, the random source and the signature. *)

Module Toy.

Import Grenache.

Definition unhex_digit (c : ascii) : option N :=
  let n := N_of_ascii c in
  if ((48 <=? n) && (n <=? 57))%N then Some (n - 48)%N
  else if ((97 <=? n) && (n <=? 102))%N then Some (n - 87)%N
  else None.

Definition cons_char (c : ascii) (r : option (string * string)) : option (string * string) :=
  match r with
  | Some (s, rest) => Some (String c s, rest)
  | None => None
  end.

(** Reads a JSON string up to its closing quote (the opening quote has
    been consumed); returns the decoded text and what follows. *)
Fixpoint read_string (s : string) : option (string * string) :=
  match s with
  | EmptyString => None
  | String c rest =>
      if (N_of_ascii c =? 34)%N then Some ("", rest)
      else if (N_of_ascii c =? 92)%N then
        match rest with
        | String e rest' =>
            let n := N_of_ascii e in
            if (n =? 34)%N then cons_char dquote (read_string rest')
            else if (n =? 92)%N then cons_char backslash (read_string rest')
            else if (n =? 98)%N then cons_char (ascii_of_nat 8) (read_string rest')
            else if (n =? 116)%N then cons_char (ascii_of_nat 9) (read_string rest')
            else if (n =? 110)%N then cons_char (ascii_of_nat 10) (read_string rest')
            else if (n =? 102)%N then cons_char (ascii_of_nat 12) (read_string rest')
            else if (n =? 114)%N then cons_char (ascii_of_nat 13) (read_string rest')
            else if (n =? 117)%N then
              match rest' with
              | String h1 (String h2 (String h3 (String h4 rest''))) =>
                  match unhex_digit h1, unhex_digit h2, unhex_digit h3, unhex_digit h4 with
                  | Some 0%N, Some 0%N, Some a, Some b =>
                      cons_char (ascii_of_N (16 * a + b)) (read_string rest'')
                  | _, _, _, _ => None
                  end
              | _ => None
              end
            else None
        | EmptyString => None
        end
      else cons_char c (read_string rest)
  end.

(** Reads [x1,x2,...,xn]}] with [n >= 1], each [xi] a JSON string. *)
Fixpoint read_items (fuel : nat) (s : string) : option (list string) :=
  match fuel with
  | O => None
  | S fuel' =>
      match s with
      | String c rest =>
          if (N_of_ascii c =? 34)%N then
            match read_string rest with
            | Some (x, after) =>
                if String.eqb after "]}" then Some [x]
                else
                  match after with
                  | String "," more =>
                      match read_items fuel' more with
                      | Some xs => Some (x :: xs)
                      | None => None
                      end
                  | _ => None
                  end
            | None => None
            end
          else None
      | EmptyString => None
      end
  end.

Fixpoint strip_prefix (p s : string) : option string :=
  match p, s with
  | EmptyString, _ => Some s
  | String a p', String b s' => if Ascii.eqb a b then strip_prefix p' s' else None
  | _, _ => None
  end.

(** The text [JSON.stringify] puts in front of the addresses of a
    pointer buffer. *)
Definition pointers_prefix : string :=
  "{" +:+ quote "wasteland_type" +:+ ":" +:+ quote "pointers" +:+ "," +:+
  quote "p" +:+ ":[".

(** A reader for the texts [wrapPointers] writes.  On them it agrees
    with [JSON.parse]; any other text it refuses, where [JSON.parse]
    would throw or yield a value that is, but for other spellings of the
    same object, no pointer buffer. *)
Definition parse (s : string) : option json :=
  match strip_prefix pointers_prefix s with
  | Some body =>
      if String.eqb body "]}" then Some (pointers_object [])
      else
        match read_items (String.length body) body with
        | Some p => Some (pointers_object p)
        | None => None
        end
  | None => None
  end.

#[export] Instance toy_json : JSON := {| JSON_parse := parse |}.

Fixpoint all_a (s : string) : bool :=
  match s with
  | EmptyString => true
  | String c rest => Ascii.eqb c "a" && all_a rest
  end.

(** An injective digest that is short on runs of the letter a. *)
Definition digest (s : string) : string :=
  if all_a s then "r" +:+ pretty (N.of_nat (String.length s))
  else "x" +:+ s.

Definition toy_immutable_address (r : Rec) : string :=
  match v r with
  | Some s => digest s
  | None => "u"
  end.

(** The rule of the concrete transport for a write to an occupied
    address: the record must carry the stored [seq] plus one. *)
Definition seq_refused (stored payload : Rec) : bool :=
  match seq stored with
  | Some s =>
      match seq payload with
      | Some n => negb (Z.eqb (s + 1) n)
      | None => true
      end
  | None => true
  end.

#[export] Instance toy_transport : Transport := {|
  transport_id := "toy";
  immutable_address := toy_immutable_address;
  immutable_error := fun _ _ => None;
  mutable_address := fun pk s => "m" +:+ toString_hex pk +:+ ":" +:+ js_string s;
  mutable_accepts := fun old new => negb (seq_refused old new)
|}.

(** A checksum standing in for the hash: the sum of the bytes. *)
Fixpoint byte_sum (s : string) : N :=
  match s with
  | EmptyString => 0%N
  | String c rest => (N_of_ascii c + byte_sum rest)%N
  end.

#[export] Instance toy_primitives : Primitives := {|
  sha1_hex := fun s => "h" +:+ pretty (byte_sum s);
  Math_random := fun n => "0." +:+ pretty (N.of_nat n);
  bencode_encode := fun sq vv sl =>
    "4:salt" +:+ js_string sl +:+ "3:seqi" +:+
    match sq with Some z => pretty z | None => "" end +:+ "e1:v" +:+ js_string vv;
  ed_sign := fun msg pk sk => "signed(" +:+ msg +:+ ")"
|}.

(** The slice limit of the examples: the number [K^D * B] that spec 4.2
    gives for a tree of depth [D].  Under the defaults it admits the
    2200 fragments of the large payload that the integration test
    stores.  It stands in for the function of [lib/data-helper.js] in
    the examples only. *)
#[export] Instance toy_helper : DataHelper := {|
  getSliceLimit := fun limit maxPointers maxInd => (limit * maxPointers ^ maxInd)%Z
|}.

(** Two configurations with small buffers: three pointers per buffer,
    at most two or no indirections. *)
Definition conf48 : Conf :=
  {| maxIndirections := 2; bufferSizelimit := 48; addressSize := 1;
     concurrentRequests := 5; keys := None |}.

Definition conf48_flat : Conf :=
  {| maxIndirections := 0; bufferSizelimit := 48; addressSize := 1;
     concurrentRequests := 5; keys := None |}.

(** The defaults, but for the indirections. *)
Definition default_flat : Conf :=
  {| maxIndirections := 0; bufferSizelimit := 1000; addressSize := 40;
     concurrentRequests := 5; keys := None |}.

(** The backend that the constructor makes when [getSliceLimit]
    answers [limit]. *)
Definition limited_backend (c : Conf) (limit : Z) : Backend :=
  new_backend (Helper := {| getSliceLimit := fun _ _ _ => limit |}) c.

Definition toy_keys : Keys := {| publicKey := "K"; secretKey := "S" |}.

Definition conf48_keys : Conf :=
  {| maxIndirections := 2; bufferSizelimit := 48; addressSize := 1;
     concurrentRequests := 5; keys := Some toy_keys |}.

Fixpoint repeat_a (n : nat) : string :=
  match n with
  | O => ""
  | S n' => String "a" (repeat_a n')
  end.

Definition world0 (o : Opts) : World :=
  {| store := ∅; opts := o; opts_keys := None; draws := 0; calls := [] |}.

Definition no_opts : Opts := {| o_seq := None; o_salt := None |}.

Definition seq1 : Opts := {| o_seq := Some 1%Z; o_salt := None |}.

(** A [put] on a fresh transport, the address it answered, and the [get]
    that follows it. *)
Definition run (c : Conf) (data : string) (o : Opts) : outcome string * World :=
  put (new_backend c) 8 data (world0 o).

Definition answer (r : outcome string * World) : string :=
  match fst r with
  | Done a => a
  | _ => ""
  end.

Definition read_back (r : outcome string * World) : outcome Rec :=
  get 9 (store (snd r)) (answer r) false.

Definition v_of (o : outcome Rec) : option string :=
  match o with
  | Done r => v r
  | _ => None
  end.

Definition record_of (o : outcome Rec) : Rec :=
  match o with
  | Done r => r
  | _ => emptyRec
  end.

Definition stored_root (r : outcome string * World) : Rec :=
  default emptyRec (store (snd r) !! answer r).

(** A transport that derives the immutable address from the salt as
    well as from the content. *)
Definition salt_sensitive_transport : Transport := {|
  transport_id := "toy";
  immutable_address := fun r => toy_immutable_address r +:+ ":" +:+ js_string (salt r);
  immutable_error := fun _ _ => None;
  mutable_address := fun pk s => "m" +:+ toString_hex pk +:+ ":" +:+ js_string s;
  mutable_accepts := fun old new => negb (seq_refused old new)
|}.

(** The scenario of the memory backend's tests: one record stored under
    a caller-chosen salt. *)
Definition pineapple (n : Z) : Opts :=
  {| o_seq := Some n; o_salt := Some "pineapple-salt" |}.

Definition memory0 : Memory.State := {| Memory.store := ∅; Memory.draws := 0 |}.

Definition memory_furbie : Memory.State :=
  snd (Memory.put toy_keys "furbie" (pineapple 1) memory0).

End Toy.


(** ** Histories of the in-memory backend *)

Module MemoryHistory.

Import Memory.

(** A history of [put] calls on one backend: the answers, oldest
    first, and the state they leave. *)
Fixpoint puts `{Prim : Primitives} (keys : Keys) (ops : list (string * Opts)) (st : State)
    : list (outcome string) * State :=
  match ops with
  | [] => ([], st)
  | (data, opts) :: rest =>
      let '(out, st1) := put keys data opts st in
      let '(outs, st2) := puts keys rest st1 in
      (out :: outs, st2)
  end.

(** How many of the answers are the address [a]. *)
Fixpoint answered (a : string) (outs : list (outcome string)) : nat :=
  match outs with
  | [] => 0
  | Done b :: rest => (if String.eqb a b then 1 else 0) + answered a rest
  | _ :: rest => answered a rest
  end.

End MemoryHistory.


(** ** The records of a single-level write *)

Module GrenacheTrace.

Import Grenache.

Section Trace.
Context `{Prim : Primitives} `{Tr : Transport}.

(** The records [getStoreTasks] sends for [slices] on the immutable
    path when the first digest is draw [n]: each fragment under the
    digest drawn for it. *)
Fixpoint leaf_records (slices : list string) (n : nat) : list Rec :=
  match slices with
  | [] => []
  | s :: rest =>
      set_salt (Some (sha_of s n)) (set_v (Some s) emptyRec) :: leaf_records rest (S n)
  end.

(** The record [wrapAndStorePointers] sends for the pointers [ps] on the
    immutable path at draw [n]. *)
Definition root_record (ps : list string) (n : nat) : Rec :=
  set_salt (Some (sha_of (JSON_stringify (JStr (wrapPointers ps))) n))
           (set_v (Some (wrapPointers ps)) emptyRec).

End Trace.

End GrenacheTrace.


(** ** The earlier revision of the chunking backend

    The second listing of [backends/Grenache.js]: keys are mandatory,
    every write is a mutable one, the digest is that of the data alone,
    and there is one level of pointers.  [wrapPointers], [taskParallel],
    [isResultChunked] and [getRetrieveTasks] read the same in both
    listings and are shared with the module above. *)

Module GrenacheEarlier.

Import Grenache.

(** The defaults of the constructor. *)
Definition default_conf : Conf :=
  {| maxIndirections := 3; bufferSizelimit := 1000; addressSize := 40;
     concurrentRequests := 5; keys := None |}.

(** The fields a constructed backend carries. *)
Record Backend : Type := mkBackend {
  conf : Conf;
  maxPointersPerBuffer : Z
}.

(** The constructor, once a transport is set; without keys it throws. *)
Definition new_backend (c : Conf) : Backend + string :=
  match keys c with
  | None => inr "no keys set"
  | Some _ =>
      inl {| conf := c;
             maxPointersPerBuffer :=
               getMaxPointersPerBuffer (bufferSizelimit c) (addressSize c) wrapPointers |}
  end.

(** [opts.keys = keys]. *)
Definition assign_opts_keys (ks : option Keys) : M unit :=
  fun w => (Done tt,
            {| store := store w; opts := opts w; opts_keys := ks;
               draws := draws w; calls := calls w |}).

Section Backend.
Context `{Prim : Primitives} `{Json : JSON} `{Tr : Transport}.
Variable bk : Backend.

Definition getPayload (data : string) (o : Opts) : Rec :=
  let res := set_v (Some data) emptyRec in
  let res := if truthy_str (o_salt o) then set_salt (o_salt o) res else res in
  set_seq (o_seq o) res.

(** [sha1(data)]. *)
Definition getSha (data : string) : string := sha1_hex data.

Definition sendMutable (payload : Rec) : M string :=
  transport_putMutable payload.

Definition send (data : string) : M string :=
  fun w =>
    let payload := getPayload data (opts w) in
    (_ <- assign_opts_keys (keys (conf bk)) ;; sendMutable payload) w.

Definition getStoreTasks (slices : list string) : list (M string) :=
  List.map (fun chunk => _ <- set_opts_salt (getSha chunk) ;; send chunk) slices.

(** With as many slices as fit a pointer buffer, or more, it throws:
    the callback is never invoked. *)
Definition storeChunked (slices : list string) : M string :=
  if (Z.of_nat (length slices) <? maxPointersPerBuffer bk)%Z then
    res <- taskParallel (getStoreTasks slices) ;;
    let wrapped := wrapPointers res in
    _ <- set_opts_salt (getSha (JSON_stringify (JStr wrapped))) ;;
    send wrapped
  else fun w => (NoCallback, w).

Definition put (data : string) : M string :=
  slices <- (fun w => (prepareData data (conf bk), w)) ;;
  match slices with
  | [slice0] =>
      fun w =>
        (_ <- (if truthy_str (o_salt (opts w)) then ret tt
               else set_opts_salt (getSha slice0)) ;;
         send slice0) w
  | _ => storeChunked slices
  end.

(** [handleChunked(payload, pointers, cb)]: one level, and the record
    goes to the callback. *)
Definition handleChunked (st : gmap string Rec) (payload : Rec) (pointers : option json)
    : outcome Rec :=
  let payload := set_original (v payload) payload in
  match pointers with
  | Some (JArr ps) =>
      match collect st ps with
      | Done res => Done (set_v (Some (reduce_v res)) payload)
      | Failed e => Failed e
      | NoCallback => NoCallback
      | OutOfFuel => OutOfFuel
      end
  | _ => NoCallback
  end.

Definition maybeRetrieveChunked (st : gmap string Rec) (payload : Rec) : outcome Rec :=
  match v payload with
  | None => Done payload
  | Some text =>
      match JSON_parse text with
      | None => Done payload
      | Some content =>
          if isResultChunked content then
            handleChunked st payload (property content "p")
          else Done payload
      end
  end.

Definition get (st : gmap string Rec) (key : string) (recursive : bool) : outcome Rec :=
  if String.eqb key "" then Failed "no key provided"
  else
    match transport_get st key with
    | Done data =>
        if recursive then Done data else maybeRetrieveChunked st data
    | Failed e => Failed e
    | NoCallback => NoCallback
    | OutOfFuel => OutOfFuel
    end.

End Backend.

End GrenacheEarlier.


(** ** Further concrete inputs *)

Module Cases.

Import Grenache Toy.

(** Buffers of 72 bytes and addresses of nine: three pointers per
    buffer, and the addresses of the concrete transport have the
    configured size. *)
Definition conf72_keys : Conf :=
  {| maxIndirections := 2; bufferSizelimit := 72; addressSize := 9;
     concurrentRequests := 5; keys := Some toy_keys |}.

(** A pointer buffer whose one pointer is the mutable address of the
    salt [s] under the concrete keys, and the write that stores it
    there. *)
Definition self_pointer : string :=
  wrapPointers [mutable_address (publicKey toy_keys) (Some "s")].

Definition salt_s : Opts := {| o_seq := Some 1%Z; o_salt := Some "s" |}.

Definition self_pointing : outcome string * World :=
  run conf48_keys self_pointer salt_s.

(** A pointer buffer that lists the empty string, stored as data. *)
Definition empty_pointer : outcome string * World :=
  run conf48 (wrapPointers ["r1"; ""]) no_opts.

(** The fragments of 216 bytes stored one box after the other, before
    their pointer buffer is written. *)
Definition boxes216 : outcome (list (list string)) * World :=
  mapM (storeParallel (new_backend conf72_keys))
       (prepareMultiLevelData (sliceData (repeat_a 216) 72) 3) (world0 seq1).

Definition pointers_of (r : outcome (list (list string)) * World) : list string :=
  match fst r with
  | Done res => List.concat res
  | _ => []
  end.

(** The earlier revision under the small buffers. *)
Definition earlier48 : GrenacheEarlier.Backend :=
  {| GrenacheEarlier.conf := conf48_keys;
     GrenacheEarlier.maxPointersPerBuffer :=
       getMaxPointersPerBuffer 48 1 wrapPointers |}.

(** Records of the in-memory backend: one under another salt, one
    without a [seq]. *)
Definition other_salt : Opts := {| o_seq := Some 1%Z; o_salt := Some "other" |}.

Definition unsequenced : Opts := {| o_seq := None; o_salt := Some "pineapple-salt" |}.

Definition memory_unsequenced : Memory.State :=
  snd (Memory.put toy_keys "furbie" unsequenced memory0).

Definition furbie_address : string :=
  Memory.address (fst (Memory.getPayload toy_keys "furbie" (pineapple 1) 0)).

Definition furbie_history : list (string * Opts) :=
  [("furbie-foo", pineapple 2); ("furbie-bar", pineapple 2); ("furbie-baz", pineapple 3)].

End Cases.



(** * Properties *)

(** ** Shared facts *)

Lemma toString_hex_app (a b : string) :
  toString_hex (a +:+ b) = toString_hex a +:+ toString_hex b.
Proof.
  induction a as [|c a IH]; simpl; [reflexivity|]. now rewrite IH.
Qed.

Lemma truthy_str_Some (o : option string) :
  truthy_str o = true -> exists s, o = Some s /\ s <> "".
Proof.
  destruct o as [s|]; simpl; [|discriminate].
  intros H. exists s. split; [reflexivity|].
  intros ->. discriminate.
Qed.

(** Adding one to a number is exact up to [2^53], and there it stops. *)
Lemma js_succ_exact (s : Z) : (- 2 ^ 53 < s < 2 ^ 53)%Z -> js_succ s = (s + 1)%Z.
Proof.
  unfold js_succ, double_of_Z. change (2 ^ 53)%Z with 9007199254740992%Z.
  intros Hs. cbv zeta.
  destruct (Z.ltb_spec (Z.abs (s + 1)) 9007199254740992) as [_|Hge]; [reflexivity|].
  assert (E : (s + 1 = 9007199254740992)%Z) by lia.
  rewrite E. vm_compute. reflexivity.
Qed.

Lemma js_succ_two53 : js_succ (2 ^ 53) = (2 ^ 53)%Z.
Proof. vm_compute. reflexivity. Qed.

(** ** The in-memory backend *)

Module MemoryFacts.

Import Memory Toy.

Section Facts.
Context `{Prim : Primitives}.
Variable keys : Keys.

Lemma memory_payload_k data opts n :
  k (fst (getPayload keys data opts n)) = Some (toString_hex (publicKey keys)).
Proof. unfold getPayload. destruct (truthy_str (o_salt opts)); reflexivity. Qed.

Lemma memory_payload_seq data opts n :
  seq (fst (getPayload keys data opts n)) = o_seq opts.
Proof. unfold getPayload. destruct (truthy_str (o_salt opts)); reflexivity. Qed.

Lemma memory_payload_salt_given data opts n :
  truthy_str (o_salt opts) = true ->
  salt (fst (getPayload keys data opts n)) = o_salt opts.
Proof.
  intros H. unfold getPayload. rewrite H. simpl.
  destruct (o_salt opts); [reflexivity|discriminate].
Qed.

Lemma memory_payload_salt_some data opts n :
  exists s, salt (fst (getPayload keys data opts n)) = Some s.
Proof.
  unfold getPayload. destruct (truthy_str (o_salt opts)); simpl; eauto.
Qed.

Lemma address_given data opts n :
  truthy_str (o_salt opts) = true ->
  address (fst (getPayload keys data opts n)) =
  toString_hex (toString_hex (publicKey keys)) +:+ toString_hex (js_string (o_salt opts)).
Proof.
  intros H. unfold address, Buffer_concat, Buffer_from. simpl fold_right.
  rewrite memory_payload_k, (memory_payload_salt_given _ _ _ H). simpl js_string at 1.
  rewrite toString_hex_app. f_equal.
  clear. induction (js_string (o_salt opts)) as [|c s IH]; simpl; [reflexivity|].
  now rewrite IH.
Qed.

Lemma seq_conflict_false stored payload :
  seq_conflict stored payload = false <->
  exists s, seq stored = Some s /\ seq payload = Some (js_succ s).
Proof.
  unfold seq_conflict. split.
  - destruct (seq stored) as [s|]; [|discriminate].
    destruct (seq payload) as [n|]; [|discriminate].
    intros H. apply negb_false_iff, Z.eqb_eq in H. subst n. eauto.
  - intros (s & -> & ->). now rewrite Z.eqb_refl.
Qed.

(** The three ways [put] can end, read off its code. *)
Lemma put_cases data opts st :
  data <> "" ->
  let payload := fst (getPayload keys data opts (draws st)) in
  let n' := snd (getPayload keys data opts (draws st)) in
  let key := address payload in
  let stored_st := {| store := <[key := payload]> (store st); draws := n' |} in
  (store st !! key = None /\ put keys data opts st = (Done key, stored_st)) \/
  (exists old, store st !! key = Some old /\ seq_conflict old payload = false /\
               put keys data opts st = (Done key, stored_st)) \/
  (exists old, store st !! key = Some old /\ seq_conflict old payload = true /\
               put keys data opts st =
               (Failed "ERR_CONFLICT_SEQ", {| store := store st; draws := n' |})).
Proof.
  intros Hdata. unfold put.
  destruct (String.eqb_spec data "") as [->|_]; [congruence|].
  destruct (getPayload keys data opts (draws st)) as [payload n'] eqn:E. simpl.
  destruct (store st !! address payload) as [old|] eqn:L.
  - destruct (seq_conflict old payload) eqn:C.
    + right. right. exists old. auto.
    + right. left. exists old. auto.
  - left. auto.
Qed.

End Facts.

(** C10: whenever [put] reports an error (missing data, or a sequence
    conflict at an occupied address), the store mapping after the call
    is the store mapping before it; and these two are the only errors
    [put] reports. *)
Theorem put_failed_store_unchanged `{Prim : Primitives}
    (keys : Keys) (data : string) (opts : Opts) (st st' : State) (msg : string) :
  put keys data opts st = (Failed msg, st') ->
  store st' = store st /\
  (msg = "no data provided" \/ msg = "ERR_CONFLICT_SEQ").
Proof.
  intros H. destruct (String.eqb_spec data "") as [->|Hne].
  - unfold put in H. simpl in H. inversion H; subst. auto.
  - destruct (put_cases keys data opts st Hne) as [[_ E]|[(old & _ & _ & E)|(old & _ & _ & E)]];
      rewrite E in H; inversion H; subst; auto.
Qed.

(** C3, as amended: for data that is provided (not empty), [put] stores
    the record and answers its address exactly when the address is free
    or the incoming [seq] is the number that [stored.seq + 1] yields; in
    every other case it reports ERR_CONFLICT_SEQ and leaves the store as
    it was, and when the stored record has a [seq], a following [put]
    of a record of that address succeeds with the number that
    [stored.seq + 1] yields.  That number is the stored [seq] plus one
    as long as the stored [seq] is below 2^53 in magnitude. *)
Theorem put_sequence `{Prim : Primitives}
    (keys : Keys) (data : string) (opts : Opts) (st : State) :
  data <> "" ->
  let payload := fst (getPayload keys data opts (draws st)) in
  let key := address payload in
  let free := store st !! key = None in
  let next := exists stored s, store st !! key = Some stored /\
                               seq stored = Some s /\ seq payload = Some (js_succ s) in
  ((exists st', put keys data opts st = (Done key, st') /\
                store st' !! key = Some payload) <-> (free \/ next)) /\
  (~ (free \/ next) ->
   exists st', put keys data opts st = (Failed "ERR_CONFLICT_SEQ", st') /\
               store st' = store st /\
               forall (stored : Rec) (s : Z) (data2 : string) (opts2 : Opts),
                 store st !! key = Some stored -> seq stored = Some s ->
                 data2 <> "" -> o_seq opts2 = Some (js_succ s) ->
                 address (fst (getPayload keys data2 opts2 (draws st'))) = key ->
                 exists st'', put keys data2 opts2 st' = (Done key, st'') /\
                              store st'' !! key
                              = Some (fst (getPayload keys data2 opts2 (draws st')))) /\
  (forall s, (- 2 ^ 53 < s < 2 ^ 53)%Z -> js_succ s = (s + 1)%Z).
Proof.
  intros Hdata payload key free next.
  split; [|split; [|exact js_succ_exact]];
    destruct (put_cases keys data opts st Hdata)
      as [[L E]|[(old & L & C & E)|(old & L & C & E)]];
    fold payload in L, E; fold key in L, E.
  - split; [intros _; left; exact L|]. intros _. eexists. split; [exact E|].
    simpl. apply lookup_insert_eq.
  - fold payload in C. apply seq_conflict_false in C. destruct C as (s & Hs & Hp).
    split; [intros _; right; exists old, s; auto|]. intros _. eexists.
    split; [exact E|]. simpl. apply lookup_insert_eq.
  - split.
    + intros (st' & E' & _). rewrite E in E'. discriminate.
    + fold payload in C. intros [F|(stored & s & L' & Hs & Hp)].
      * unfold free in F. congruence.
      * rewrite L in L'. inversion L'; subst stored.
        assert (seq_conflict old payload = false) by (apply seq_conflict_false; eauto).
        congruence.
  - intros N. exfalso. apply N. left. exact L.
  - fold payload in C. apply seq_conflict_false in C. destruct C as (s & Hs & Hp).
    intros N. exfalso. apply N. right. exists old, s. auto.
  - intros _. eexists. split; [exact E|]. split; [reflexivity|].
    intros stored s data2 opts2 L2 Hs Hdata2 Hq2 Ha.
    match goal with
    | |- exists _, put _ _ _ ?st1 = _ /\ _ => set (st' := st1) in *
    end.
    destruct (put_cases keys data2 opts2 st' Hdata2)
      as [[L' E']|[(old' & L' & C' & E')|(old' & L' & C' & E')]];
      rewrite Ha in L'; try rewrite Ha in E'; change (store st') with (store st) in L'.
    + congruence.
    + eexists. split; [exact E'|]. simpl. apply lookup_insert_eq.
    + exfalso. rewrite L2 in L'. inversion L'; subst old'.
      assert (Hc : seq_conflict stored (fst (getPayload keys data2 opts2 (draws st')))
                   = false).
      { apply seq_conflict_false. exists s. split; [exact Hs|].
        rewrite <- Hq2. apply memory_payload_seq. }
      congruence.
Qed.

(** C9, as amended: the address [put] answers is the hex encoding of
    the bytes of the record's [k] - itself the hex text of the public
    key - followed by the hex encoding of the bytes of the record's
    salt; the record is stored under it, and a salt supplied by the
    caller is the record's salt. *)
Theorem put_address `{Prim : Primitives}
    (keys : Keys) (data : string) (opts : Opts) (st st' : State) (a : string) :
  put keys data opts st = (Done a, st') ->
  exists payload s,
    store st' !! a = Some payload /\
    v payload = Some data /\
    k payload = Some (toString_hex (publicKey keys)) /\
    salt payload = Some s /\
    (truthy_str (o_salt opts) = true -> o_salt opts = Some s) /\
    a = toString_hex (toString_hex (publicKey keys)) +:+ toString_hex s.
Proof.
  intros H. destruct (String.eqb_spec data "") as [->|Hne].
  { unfold put in H. simpl in H. discriminate. }
  set (payload := fst (getPayload keys data opts (draws st))).
  destruct (memory_payload_salt_some keys data opts (draws st)) as [s Hs].
  fold payload in Hs.
  assert (Ha : address payload =
               toString_hex (toString_hex (publicKey keys)) +:+ toString_hex s).
  { unfold address, Buffer_concat, Buffer_from. simpl fold_right.
    unfold payload at 1. rewrite memory_payload_k, Hs. simpl js_string.
    rewrite toString_hex_app. f_equal.
    clear. induction s as [|c s IH]; simpl; [reflexivity|]. now rewrite IH. }
  assert (Hv : v payload = Some data).
  { unfold payload, getPayload. destruct (truthy_str (o_salt opts)); reflexivity. }
  assert (Hgiven : truthy_str (o_salt opts) = true -> o_salt opts = Some s).
  { intros T. rewrite <- Hs. unfold payload. now rewrite memory_payload_salt_given. }
  destruct (put_cases keys data opts st Hne)
    as [[_ E]|[(old & _ & _ & E)|(old & _ & _ & E)]];
    rewrite E in H; inversion H; subst; clear H.
  - exists payload, s. simpl. rewrite lookup_insert_eq.
    repeat split; auto. apply memory_payload_k.
  - exists payload, s. simpl. rewrite lookup_insert_eq.
    repeat split; auto. apply memory_payload_k.
Qed.

(** The first test of the memory backend: store, then read back. *)
Example memory_stores_data :
  exists a,
    fst (put toy_keys "furbie" (pineapple 1) memory0) = Done a /\
    exists r, get a memory_furbie = Done r /\
      v r = Some "furbie" /\ seq r = Some 1%Z /\ salt r = Some "pineapple-salt" /\
      k r = Some (toString_hex (publicKey toy_keys)) /\ id r = Some "memory".
Proof. eexists. split; [vm_compute; reflexivity|]. eexists. vm_compute. repeat split. Qed.

(** The second test: a repeated [seq] is refused, the next one accepted. *)
Example memory_verifies_sequences :
  fst (put toy_keys "furbie" (pineapple 1) memory_furbie) = Failed "ERR_CONFLICT_SEQ" /\
  exists a st r,
    put toy_keys "furbie-foo" (pineapple 2) memory_furbie = (Done a, st) /\
    get a st = Done r /\ v r = Some "furbie-foo" /\ seq r = Some 2%Z.
Proof. split; [vm_compute; reflexivity|]. do 3 eexists. vm_compute. repeat split. Qed.

Lemma put_failed_store_unchanged_witness :
  store (snd (put toy_keys "furbie" (pineapple 1) memory_furbie)) = store memory_furbie /\
  ("ERR_CONFLICT_SEQ" = "no data provided" \/ "ERR_CONFLICT_SEQ" = "ERR_CONFLICT_SEQ").
Proof.
  apply (put_failed_store_unchanged toy_keys "furbie" (pineapple 1) memory_furbie).
  vm_compute. reflexivity.
Defined.

(** C3 as stated fails in two places.  Where the doubles run out of
    integers: a record of [seq] 2^53 is replaced by one that carries
    2^53 again, because 2^53 + 1 is 2^53 as a double.  And at a record
    stored without a [seq]: every later [put] at its address is refused,
    whatever [seq] it carries. *)
Lemma put_sequence_exceptions :
  (exists a st1 st2 stored,
     put toy_keys "furbie" (pineapple (2 ^ 53)) memory0 = (Done a, st1) /\
     store st1 !! a = Some stored /\ seq stored = Some (2 ^ 53)%Z /\
     put toy_keys "furbie-foo" (pineapple (2 ^ 53)) st1 = (Done a, st2) /\
     (2 ^ 53 <> 2 ^ 53 + 1)%Z) /\
  (exists a st1 stored,
     put toy_keys "furbie" {| o_seq := None; o_salt := Some "pineapple-salt" |} memory0
     = (Done a, st1) /\
     store st1 !! a = Some stored /\ seq stored = None /\
     forall q : option Z,
       put toy_keys "furbie-foo" {| o_seq := q; o_salt := Some "pineapple-salt" |} st1
       = (Failed "ERR_CONFLICT_SEQ", st1)).
Proof.
  split.
  - do 4 eexists. split; [vm_compute; reflexivity|].
    split; [vm_compute; reflexivity|]. split; [reflexivity|].
    split; [vm_compute; reflexivity|]. vm_compute. discriminate.
  - do 3 eexists. split; [vm_compute; reflexivity|].
    split; [vm_compute; reflexivity|]. split; [reflexivity|].
    intros q. vm_compute. reflexivity.
Defined.

Lemma put_sequence_witness :
  exists st',
    put toy_keys "furbie" (pineapple 1) memory_furbie = (Failed "ERR_CONFLICT_SEQ", st') /\
    store st' = store memory_furbie /\
    exists st'',
      put toy_keys "furbie-foo" (pineapple 2) st'
      = (Done (address (fst (getPayload toy_keys "furbie" (pineapple 1)
                               (draws memory_furbie)))), st'').
Proof.
  destruct (put_sequence toy_keys "furbie" (pineapple 1) memory_furbie) as (_ & Hno & _);
    [discriminate|].
  destruct Hno as (st' & E & Hst & Hnext).
  - intros [F|(stored & s & L & Hs & Hp)].
    + vm_compute in F. discriminate.
    + vm_compute in L. inversion L; subst stored.
      vm_compute in Hs. inversion Hs; subst s.
      vm_compute in Hp. discriminate.
  - exists st'. split; [exact E|]. split; [exact Hst|].
    assert (Est : st' = snd (put toy_keys "furbie" (pineapple 1) memory_furbie))
      by (rewrite E; reflexivity).
    destruct (Hnext (fst (getPayload toy_keys "furbie" (pineapple 1) 0)) 1%Z
                "furbie-foo" (pineapple 2)) as (st'' & E2 & _).
    + vm_compute. reflexivity.
    + reflexivity.
    + discriminate.
    + reflexivity.
    + rewrite Est. vm_compute. reflexivity.
    + exists st''. exact E2.
Defined.

(** C9 as stated fails: with the one-byte public key K (hex 4b) and the
    salt s (hex 73) the address is not 4b73; the hex text of the key is
    hex-encoded once more. *)
Lemma put_address_not_hex_of_key :
  fst (put toy_keys "furbie" {| o_seq := Some 1%Z; o_salt := Some "s" |} memory0)
  = Done "346273" /\
  "346273" <> toString_hex (publicKey toy_keys) +:+ toString_hex "s".
Proof. split; [vm_compute; reflexivity|vm_compute; discriminate]. Defined.

Lemma put_address_witness :
  exists payload s,
    store memory_furbie !! ("3462" +:+ toString_hex "pineapple-salt") = Some payload /\
    v payload = Some "furbie" /\
    k payload = Some (toString_hex (publicKey toy_keys)) /\
    salt payload = Some s /\
    (truthy_str (o_salt (pineapple 1)) = true -> o_salt (pineapple 1) = Some s) /\
    "3462" +:+ toString_hex "pineapple-salt"
    = toString_hex (toString_hex (publicKey toy_keys)) +:+ toString_hex s.
Proof.
  apply (put_address toy_keys "furbie" (pineapple 1) memory0 memory_furbie).
  vm_compute. reflexivity.
Defined.

End MemoryFacts.


(** ** The chunking backend *)

Module GrenacheFacts.

Import Grenache Toy.

(** *** Slicing *)

Lemma append_cons (c : ascii) (s t : string) : String c s +:+ t = String c (s +:+ t).
Proof. reflexivity. Qed.

Lemma append_nil (s : string) : "" +:+ s = s.
Proof. reflexivity. Qed.

Lemma string_app_nil_r (s : string) : s +:+ "" = s.
Proof.
  induction s as [|c s IH]; [reflexivity|]. now rewrite append_cons, IH.
Qed.

Lemma string_app_assoc (a b c : string) : (a +:+ b) +:+ c = a +:+ (b +:+ c).
Proof.
  induction a as [|x a IH]; [reflexivity|]. now rewrite !append_cons, IH.
Qed.

Lemma string_take_drop (n : nat) (s : string) :
  string_take n s +:+ string_drop n s = s.
Proof.
  revert s. induction n as [|n IH]; intros [|c s]; simpl; try reflexivity.
  now rewrite append_cons, IH.
Qed.

Lemma string_drop_length (n : nat) (s : string) :
  String.length (string_drop n s) = String.length s - n.
Proof.
  revert s. induction n as [|n IH]; intros [|c s]; simpl; try reflexivity; try lia.
  apply IH.
Qed.

Lemma string_take_length (n : nat) (s : string) :
  String.length (string_take n s) = Nat.min n (String.length s).
Proof.
  revert s. induction n as [|n IH]; intros [|c s]; simpl; try reflexivity.
  now rewrite IH.
Qed.

Lemma sliceData_go_concat (fuel limit : nat) (s : string) :
  0 < limit -> String.length s <= fuel ->
  concat_strings (sliceData_go fuel limit s) = s.
Proof.
  intros Hl. revert s. induction fuel as [|fuel IH]; intros s Hf; simpl.
  - destruct s; [reflexivity|simpl in Hf; lia].
  - destruct (String.eqb_spec s "") as [->|Hne]; [reflexivity|].
    simpl. rewrite IH; [apply string_take_drop|].
    rewrite string_drop_length. destruct s; [congruence|simpl in *; lia].
Qed.

Lemma sliceData_go_bound (fuel limit : nat) (s : string) :
  0 < limit -> String.length s <= fuel ->
  String.length s <= length (sliceData_go fuel limit s) * limit.
Proof.
  intros Hl. revert s. induction fuel as [|fuel IH]; intros s Hf; simpl.
  - lia.
  - destruct (String.eqb_spec s "") as [->|Hne]; [simpl; lia|].
    simpl. specialize (IH (string_drop limit s)).
    rewrite string_drop_length in IH.
    assert (String.length s <> 0) by (destruct s; [congruence|simpl; lia]).
    lia.
Qed.

Lemma sliceData_go_pieces (fuel limit : nat) (s : string) :
  Forall (fun x => String.length x <= limit) (sliceData_go fuel limit s).
Proof.
  revert s. induction fuel as [|fuel IH]; intros s; simpl; [constructor|].
  destruct (String.eqb s ""); constructor; [|apply IH].
  rewrite string_take_length. lia.
Qed.

(** The slices, put end to end, are the payload. *)
Lemma sliceData_concat (data : string) (limit : Z) :
  (0 < limit)%Z -> concat_strings (sliceData data limit) = data.
Proof.
  intros Hl. unfold sliceData.
  pose proof (sliceData_go_concat (String.length data) (Z.to_nat limit) data) as H.
  destruct (sliceData_go _ _ data) eqn:E.
  - simpl in *. rewrite <- H by lia. reflexivity.
  - apply H; lia.
Qed.

Lemma sliceData_nonempty (data : string) (limit : Z) : sliceData data limit <> [].
Proof. unfold sliceData. destruct (sliceData_go _ _ data); discriminate. Qed.

Lemma sliceData_bound (data : string) (limit : Z) :
  (0 < limit)%Z ->
  (Z.of_nat (String.length data) <= Z.of_nat (length (sliceData data limit)) * limit)%Z.
Proof.
  intros Hl. unfold sliceData.
  pose proof (sliceData_go_bound (String.length data) (Z.to_nat limit) data) as H.
  assert (Hb : String.length data <=
               length (sliceData_go (String.length data) (Z.to_nat limit) data)
               * Z.to_nat limit) by (apply H; lia).
  destruct (sliceData_go _ _ data) eqn:E; simpl length in *; nia.
Qed.

(** Each slice respects the limit. *)
Lemma sliceData_pieces (data : string) (limit : Z) :
  Forall (fun x => (Z.of_nat (String.length x) <= Z.max 0 limit)%Z) (sliceData data limit).
Proof.
  unfold sliceData.
  pose proof (sliceData_go_pieces (String.length data) (Z.to_nat limit) data) as H.
  destruct (sliceData_go _ _ data) eqn:E.
  - constructor; [simpl; lia|constructor].
  - eapply Forall_impl; [exact H|]. simpl. intros x Hx. lia.
Qed.

Lemma boxes_go_concat {A : Type} (fuel size : nat) (l : list A) :
  0 < size -> length l <= fuel -> List.concat (boxes_go fuel size l) = l.
Proof.
  intros Hs. revert l. induction fuel as [|fuel IH]; intros l Hf; simpl.
  - destruct l; [reflexivity|simpl in Hf; lia].
  - destruct l as [|x l]; [reflexivity|].
    simpl List.concat. rewrite IH; [apply take_drop|].
    rewrite length_drop. simpl in *. lia.
Qed.

(** The boxes, put end to end, are the slices. *)
Lemma prepareMultiLevelData_concat {A : Type} (slices : list A) (K : Z) :
  (1 <= K)%Z -> List.concat (prepareMultiLevelData slices K) = slices.
Proof. intros HK. apply boxes_go_concat; lia. Qed.

(** *** The write path, step by step *)

Section Facts.
Context `{Prim : Primitives} `{Json : JSON} `{Tr : Transport}.
Variable bk : Backend.

Lemma put_unfold (fuel : nat) (data : string) (w : World) :
  put bk (S fuel) data w =
  match sliceData data (bufferSizelimit (conf bk)) with
  | [slice0] =>
      (_ <- (if truthy_str (o_salt (opts w)) then ret tt
             else sha <- getSha slice0 ;; set_opts_salt sha) ;;
       send bk slice0) w
  | slices => storeChunked bk (put bk fuel) slices w
  end.
Proof.
  simpl. unfold bind, prepareData.
  destruct (sliceData data (bufferSizelimit (conf bk))) as [|s0 [|s1 rest]]; reflexivity.
Qed.

(** Which transport operation [send] reaches. *)
Lemma send_immutable (data : string) (w : World) :
  o_seq (opts w) = None ->
  send bk data w = sendImmutable (set_v (Some data) emptyRec) w.
Proof.
  intros H. unfold send, seq_absent, getPayload. rewrite H. reflexivity.
Qed.

Lemma send_mutable (data : string) (w : World) (s : Z) (ks : Keys) :
  o_seq (opts w) = Some s -> keys (conf bk) = Some ks ->
  send bk data w =
  (_ <- set_opts_keys ks ;; sendMutable (getPayload data (opts w))) w.
Proof.
  intros H Hk. unfold send, seq_absent. rewrite H, Hk. simpl.
  destruct (bool_decide (Some s = Some 0%Z)) eqn:E; simpl; [reflexivity|].
  destruct (Z.eqb_spec s 0) as [->|]; simpl; [|reflexivity].
  rewrite bool_decide_eq_false in E. congruence.
Qed.

Lemma send_no_keys (data : string) (w : World) (s : Z) :
  o_seq (opts w) = Some s -> keys (conf bk) = None ->
  send bk data w = (Failed "no keys set", w).
Proof.
  intros H Hk. unfold send, seq_absent. rewrite H, Hk. simpl.
  destruct (bool_decide (Some s = Some 0%Z)) eqn:E; simpl; [reflexivity|].
  destruct (Z.eqb_spec s 0) as [->|]; simpl; [|reflexivity].
  rewrite bool_decide_eq_false in E. congruence.
Qed.

End Facts.

(** C2, as amended: on a backend with a positive buffer size and a
    slice limit of at least one, a payload longer than
    [maxSliceCount * bufferSizelimit] that is also longer than
    [(maxPointersPerBuffer - 1) * bufferSizelimit] makes at least
    [maxPointersPerBuffer] slices and more slices than the slice limit,
    and [put] fails with the capacity error without a single transport
    call or any other change of state.  The slice limit is the number
    the constructor obtained from [getSliceLimit]; the statement holds
    whatever that number is. *)
Theorem put_capacity `{Prim : Primitives} `{Json : JSON} `{Tr : Transport}
    (bk : Backend) (fuel : nat) (data : string) (w : World) :
  (0 < bufferSizelimit (conf bk))%Z ->
  (1 <= maxSliceCount bk)%Z ->
  ((maxPointersPerBuffer bk - 1) * bufferSizelimit (conf bk)
   < Z.of_nat (String.length data))%Z ->
  (maxSliceCount bk * bufferSizelimit (conf bk) < Z.of_nat (String.length data))%Z ->
  (maxPointersPerBuffer bk
   <= Z.of_nat (length (sliceData data (bufferSizelimit (conf bk)))))%Z /\
  (maxSliceCount bk < Z.of_nat (length (sliceData data (bufferSizelimit (conf bk)))))%Z /\
  put bk (S fuel) data w
  = (Failed "data too large: adjust maxIndirections", w).
Proof.
  intros HB HM HK Hlen.
  set (K := maxPointersPerBuffer bk) in *.
  pose proof (sliceData_bound data (bufferSizelimit (conf bk)) HB) as Hb.
  set (slices := sliceData data (bufferSizelimit (conf bk))) in *.
  assert (Hn : (maxSliceCount bk < Z.of_nat (length slices))%Z) by nia.
  assert (HKn : (K <= Z.of_nat (length slices))%Z) by nia.
  split; [exact HKn|]. split; [exact Hn|].
  rewrite put_unfold. fold slices.
  destruct slices as [|s0 [|s1 rest]] eqn:E.
  - simpl in Hn. lia.
  - simpl in Hn. lia.
  - rewrite <- E in *. unfold storeChunked. fold K.
    destruct (Z.ltb_spec (Z.of_nat (length slices)) K); [lia|].
    destruct (Z.gtb_spec (Z.of_nat (length slices)) (maxSliceCount bk)); [|lia].
    reflexivity.
Qed.

(** *** Reassembly *)

Section Reading.
Context `{Json : JSON} `{Tr : Transport}.

Lemma maybeRetrieveChunked_leaf (fuel : nat) (st : gmap string Rec) (r : Rec) (text : string) :
  v r = Some text -> is_chunked text = false ->
  maybeRetrieveChunked (S fuel) st r = Done r.
Proof.
  intros Hv Hc. simpl. rewrite Hv. unfold is_chunked in Hc.
  destruct (JSON_parse text) as [content|]; [|reflexivity].
  now rewrite Hc.
Qed.

Lemma maybeRetrieveChunked_node (fuel : nat) (st : gmap string Rec) (r : Rec)
    (text text' : string) :
  v r = Some text -> step st text = Some text' ->
  maybeRetrieveChunked (S fuel) st r =
  maybeRetrieveChunked fuel st (set_v (Some text') (set_original (Some text) r)).
Proof.
  intros Hv Hs. simpl. rewrite Hv. unfold step in Hs. unfold handleChunked.
  destruct (JSON_parse text) as [content|]; [|discriminate].
  destruct (isResultChunked content); [|discriminate].
  destruct (property content "p") as [[| | | |pointers|]|]; try discriminate.
  destruct (collect st pointers); try discriminate.
  inversion Hs; subst. rewrite Hv. reflexivity.
Qed.

Lemma step_is_chunked (st : gmap string Rec) (text text' : string) :
  step st text = Some text' -> is_chunked text = true.
Proof.
  unfold step, is_chunked. destruct (JSON_parse text) as [content|]; [|discriminate].
  destruct (isResultChunked content); [reflexivity|discriminate].
Qed.

(** What a finished reassembly returns: the texts met on the way are
    [text], [step text], [step (step text)], ...; the record gets the
    first of them that is no pointer buffer as its [v] and the one
    before it as its [original]. *)
Lemma maybeRetrieveChunked_done (fuel : nat) (st : gmap string Rec) (root r : Rec)
    (text : string) :
  maybeRetrieveChunked fuel st root = Done r ->
  v root = Some text -> is_chunked text = true ->
  exists n prev last,
    n < fuel /\
    iter_step st n text = Some prev /\ step st prev = Some last /\
    is_chunked last = false /\
    r = set_v (Some last) (set_original (Some prev) root).
Proof.
  revert root text. induction fuel as [|fuel IH]; intros root text H Hv Hc.
  - discriminate.
  - destruct (step st text) as [text'|] eqn:Hs.
    + rewrite (maybeRetrieveChunked_node _ _ _ _ _ Hv Hs) in H.
      destruct (is_chunked text') eqn:Hc'.
      * apply (IH _ text') in H; [|reflexivity|exact Hc'].
        destruct H as (n & prev & last & Hn & Hi & Hl & Hcl & ->).
        exists (S n), prev, last. simpl. rewrite Hs.
        repeat split; auto. lia.
      * destruct fuel as [|fuel']; [discriminate|].
        rewrite (maybeRetrieveChunked_leaf _ _ _ text') in H by (auto).
        inversion H; subst. exists 0, text, text'. simpl. repeat split; auto. lia.
    + exfalso. simpl in H. rewrite Hv in H. unfold step in Hs. unfold is_chunked in Hc.
      unfold handleChunked in H.
      destruct (JSON_parse text) as [content|]; [|discriminate].
      rewrite Hc in *.
      destruct (property content "p") as [[| | | |pointers|]|]; try discriminate.
      destruct (collect st pointers); discriminate.
Qed.

(** Conversely, a chain of steps that ends in a text that is no pointer
    buffer is followed to its end, given fuel for each step and one more. *)
Lemma maybeRetrieveChunked_steps (st : gmap string Rec) (n : nat) :
  forall (fuel : nat) (root : Rec) (text last : string),
    v root = Some text -> iter_step st n text = Some last ->
    is_chunked last = false -> n < fuel ->
    exists r, maybeRetrieveChunked fuel st root = Done r /\ v r = Some last.
Proof.
  induction n as [|n IH]; intros fuel root text last Hv Hi Hc Hf.
  - simpl in Hi. inversion Hi; subst. destruct fuel as [|fuel]; [lia|].
    exists root. split; [|exact Hv]. now apply maybeRetrieveChunked_leaf with last.
  - simpl in Hi. destruct (step st text) as [text'|] eqn:Hs; [|discriminate].
    destruct fuel as [|fuel]; [lia|].
    rewrite (maybeRetrieveChunked_node _ _ _ _ _ Hv Hs).
    apply (IH fuel _ text'); auto. lia.
Qed.

Lemma iter_step_snoc (st : gmap string Rec) (n : nat) (a b c : string) :
  iter_step st n a = Some b -> step st b = Some c -> iter_step st (S n) a = Some c.
Proof.
  revert a. induction n as [|n IH]; intros a Hi Hs; simpl in *.
  - inversion Hi; subst. now rewrite Hs.
  - destruct (step st a) as [a'|]; [|discriminate]. now apply IH.
Qed.

End Reading.

(** C4, as amended: when [get] without the recursive flag returns from
    a chunked root, the returned record is the root with [v] replaced by
    the first text of the chain root.v, step(root.v), step(step(root.v)),
    ... that is no pointer buffer, and [original] set to the text just
    before it in the chain.  With one level of indirection that text is
    the root's own [v]. *)
Theorem get_original `{Json : JSON} `{Tr : Transport}
    (fuel : nat) (st : gmap string Rec) (key : string) (root r : Rec) (text : string) :
  st !! key = Some root -> v root = Some text -> is_chunked text = true ->
  get fuel st key false = Done r ->
  exists n prev last,
    iter_step st n text = Some prev /\ step st prev = Some last /\
    is_chunked last = false /\
    original r = Some prev /\ v r = Some last /\
    (n = 0 -> original r = v root).
Proof.
  intros Hk Hv Hc Hget. unfold get in Hget.
  destruct (String.eqb key ""); [discriminate|].
  unfold transport_get in Hget. rewrite Hk in Hget.
  apply (maybeRetrieveChunked_done _ _ _ _ text) in Hget; [|exact Hv|exact Hc].
  destruct Hget as (n & prev & last & _ & Hi & Hs & Hl & ->).
  exists n, prev, last. repeat split; auto.
  intros ->. simpl in Hi. inversion Hi; subst. simpl. now rewrite Hv.
Qed.

(** *** What a successful write leaves in the store *)

(** The [seq] a record written under the options' [seq] carries: it is
    copied by [getPayload] when it is truthy. *)
Definition payload_seq (q : option Z) : option Z :=
  if truthy_num q then q else None.

Section Writing.
Context `{Prim : Primitives} `{Json : JSON} `{Tr : Transport}.
Context `{!TransportLaws}.
Variable bk : Backend.

(** [holds q st a s]: the store has, under the usable address [a], a
    record with content [s] that a [put] running with [opts.seq = q]
    cannot replace by another content: an immutable record sits at the
    address of its content, a mutable one has the [seq] of the call. *)
Definition holds (q : option Z) (st : gmap string Rec) (a s : string) : Prop :=
  a <> "" /\
  exists r, st !! a = Some r /\ v r = Some s /\
    match q with
    | None => immutable_address r = a
    | Some _ => seq r = payload_seq q
    end.

Definition stable (w w' : World) : Prop :=
  o_seq (opts w') = o_seq (opts w) /\
  forall a s, holds (o_seq (opts w)) (store w) a s -> holds (o_seq (opts w)) (store w') a s.

Lemma stable_refl (w : World) : stable w w.
Proof. split; auto. Qed.

Lemma stable_trans (w1 w2 w3 : World) : stable w1 w2 -> stable w2 w3 -> stable w1 w3.
Proof.
  intros [E1 H1] [E2 H2]. split; [congruence|].
  intros a s Hh. rewrite E1 in H2. auto.
Qed.

Lemma bind_done {A B : Type} (m : M A) (f : A -> M B) (w w' : World) (b : B) :
  bind m f w = (Done b, w') ->
  exists a w1, m w = (Done a, w1) /\ f a w1 = (Done b, w').
Proof.
  unfold bind. destruct (m w) as [[a| | |] w1]; try discriminate. eauto.
Qed.

Lemma getPayload_v (data : string) (o : Opts) : v (getPayload data o) = Some data.
Proof.
  unfold getPayload. destruct (truthy_num (o_seq o)); simpl; [|reflexivity].
  destruct (truthy_str (o_salt o)); reflexivity.
Qed.

Lemma getPayload_seq (data : string) (o : Opts) :
  seq (getPayload data o) = payload_seq (o_seq o).
Proof.
  unfold getPayload, payload_seq. destruct (truthy_num (o_seq o)); simpl; [|reflexivity].
  destruct (truthy_str (o_salt o)); reflexivity.
Qed.

Lemma transport_put_stable (p : Rec) (s : string) (w w' : World) (a : string) :
  o_seq (opts w) = None -> v p = Some s ->
  transport_put p w = (Done a, w') ->
  stable w w' /\ holds None (store w') a s.
Proof.
  intros Hq Hv E. unfold transport_put in E.
  destruct (immutable_error _ _); [discriminate|]. inversion E; subst; clear E.
  split.
  - split; [reflexivity|]. rewrite Hq. simpl.
    intros a0 s0 (Hne & r & Hl & Hv0 & Ha).
    split; [exact Hne|].
    destruct (decide (immutable_address p = a0)) as [Heq|Hneq].
    + exists p. split; [rewrite Heq; apply lookup_insert_eq|].
      split; [|exact Heq].
      rewrite <- Hv0. apply immutable_address_content. congruence.
    + exists r. rewrite lookup_insert_ne by exact Hneq. auto.
  - split; [apply immutable_address_nonempty|].
    exists p. simpl. rewrite lookup_insert_eq. auto.
Qed.

Lemma transport_putMutable_stable (p : Rec) (s : string) (z : Z) (w w' : World) (a : string) :
  o_seq (opts w) = Some z -> v p = Some s -> seq p = payload_seq (Some z) ->
  transport_putMutable p w = (Done a, w') ->
  stable w w' /\ holds (Some z) (store w') a s.
Proof.
  intros Hq Hv Hs E. unfold transport_putMutable in E.
  destruct (opts_keys w) as [ks|]; [|discriminate].
  set (signed := set_k_sig _ _ p) in E.
  set (a1 := mutable_address (publicKey ks) (salt p)) in E.
  assert (Hfresh : forall a0 s0, holds (Some z) (store w) a0 s0 ->
                     (store w !! a1 = None \/
                      exists old, store w !! a1 = Some old /\ mutable_accepts old signed = true) ->
                     a0 <> a1).
  { intros a0 s0 (_ & r & Hl & _ & Hr) Hacc ->.
    destruct Hacc as [Hn|(old & Ho & Hacc)]; [congruence|].
    rewrite Hl in Ho. inversion Ho; subst old.
    apply mutable_accepts_seq in Hacc. apply Hacc. simpl. congruence. }
  assert (Hgoal : forall w1,
            store w1 = <[a1 := signed]> (store w) -> opts w1 = opts w ->
            (store w !! a1 = None \/
             exists old, store w !! a1 = Some old /\ mutable_accepts old signed = true) ->
            stable w w1 /\ holds (Some z) (store w1) a1 s).
  { intros w1 Est Eo Hacc. split.
    - split; [now rewrite Eo|]. rewrite Hq. intros a0 s0 Hh.
      pose proof (Hfresh a0 s0 Hh Hacc) as Hne.
      destruct Hh as (Hne0 & r & Hl & Hv0 & Hr).
      split; [exact Hne0|]. exists r. rewrite Est, lookup_insert_ne by congruence. auto.
    - split; [apply mutable_address_nonempty|].
      exists signed. rewrite Est, lookup_insert_eq. simpl. auto. }
  destruct (store w !! a1) as [old|] eqn:L.
  - destruct (mutable_accepts old signed) eqn:Hacc; [|discriminate].
    inversion E; subst. apply Hgoal; simpl; eauto.
  - inversion E; subst. apply Hgoal; simpl; eauto.
Qed.

Lemma send_stable (data : string) (w w' : World) (a : string) :
  send bk data w = (Done a, w') ->
  stable w w' /\ holds (o_seq (opts w)) (store w') a data /\
  o_salt (opts w') = o_salt (opts w) /\ draws w' = draws w.
Proof.
  intros E. destruct (o_seq (opts w)) as [z|] eqn:Hq.
  - destruct (keys (conf bk)) as [ks|] eqn:Hk.
    + rewrite (send_mutable bk data w z ks Hq Hk) in E.
      apply bind_done in E. destruct E as ([] & w1 & E1 & E2).
      unfold set_opts_keys in E1. inversion E1; subst w1; clear E1.
      unfold sendMutable in E2.
      pose proof E2 as E3.
      apply (transport_putMutable_stable _ data z) in E2;
        [|exact Hq|apply getPayload_v|rewrite getPayload_seq, Hq; reflexivity].
      destruct E2 as [[Es Hst] Hh]. simpl in *.
      split; [split; [exact Es|rewrite Hq in *; exact Hst]|].
      split; [exact Hh|].
      unfold transport_putMutable in E3. simpl in E3.
      destruct (store w !! _); [destruct (mutable_accepts _ _)|];
        inversion E3; subst; auto.
    + rewrite (send_no_keys bk data w z Hq Hk) in E. discriminate.
  - rewrite (send_immutable bk data w Hq) in E. unfold sendImmutable in E.
    pose proof E as E3.
    apply (transport_put_stable _ data) in E; [|exact Hq|].
    + destruct E as [Hst Hh]. split; [exact Hst|]. split; [exact Hh|].
      unfold transport_put in E3.
      destruct (immutable_error _ _); [discriminate|]. inversion E3; subst; auto.
    + destruct (truthy_str (o_salt (opts w))); reflexivity.
Qed.

Lemma holds_seq_eq (w w' : World) (a s : string) :
  o_seq (opts w') = o_seq (opts w) ->
  holds (o_seq (opts w')) (store w') a s -> holds (o_seq (opts w)) (store w') a s.
Proof. intros ->. auto. Qed.

Lemma task_stable (x chunk : string) (w w' : World) (a : string) :
  (sha <- getSha x ;; _ <- set_opts_salt sha ;; send bk chunk) w = (Done a, w') ->
  stable w w' /\ holds (o_seq (opts w)) (store w') a chunk /\ draws w < draws w'.
Proof.
  intros E. apply bind_done in E. destruct E as (sha & w1 & E1 & E).
  apply bind_done in E. destruct E as ([] & w2 & E2 & E).
  unfold getSha in E1. inversion E1; subst; clear E1.
  unfold set_opts_salt in E2. inversion E2; subst; clear E2.
  apply send_stable in E. simpl in E. destruct E as ([Es Hst] & Hh & _ & Hd).
  split; [split; [exact Es|exact Hst]|]. split; [exact Hh|]. lia.
Qed.

Lemma storeParallel_stable (slices : list string) :
  forall (w w' : World) (ps : list string),
    storeParallel bk slices w = (Done ps, w') ->
    stable w w' /\ Forall2 (holds (o_seq (opts w)) (store w')) ps slices /\
    draws w <= draws w'.
Proof.
  unfold storeParallel, taskParallel, getStoreTasks.
  induction slices as [|chunk slices IH]; intros w w' ps E; simpl in E.
  - inversion E; subst. split; [apply stable_refl|]. split; [constructor|lia].
  - apply bind_done in E. destruct E as (a & w1 & E1 & E).
    apply bind_done in E. destruct E as (rest & w2 & E2 & E).
    inversion E; subst; clear E.
    apply task_stable in E1. destruct E1 as (S1 & H1 & D1).
    apply IH in E2. destruct E2 as (S2 & H2 & D2).
    split; [eapply stable_trans; eauto|]. split; [|lia].
    destruct S1 as [Eq1 _]. rewrite Eq1 in *. constructor; [|exact H2].
    destruct S2 as [_ Hst]. rewrite Eq1 in Hst. auto.
Qed.

Lemma boxes_stable (boxes : list (list string)) :
  forall (w w' : World) (res : list (list string)),
    mapM (storeParallel bk) boxes w = (Done res, w') ->
    stable w w' /\
    Forall2 (holds (o_seq (opts w)) (store w')) (List.concat res) (List.concat boxes).
Proof.
  induction boxes as [|box boxes IH]; intros w w' res E; simpl in E.
  - inversion E; subst. split; [apply stable_refl|constructor].
  - apply bind_done in E. destruct E as (ps & w1 & E1 & E).
    apply bind_done in E. destruct E as (rest & w2 & E2 & E).
    inversion E; subst; clear E.
    apply storeParallel_stable in E1. destruct E1 as (S1 & H1 & _).
    apply IH in E2. destruct E2 as (S2 & H2).
    split; [eapply stable_trans; eauto|].
    destruct S1 as [Eq1 _]. rewrite Eq1 in *. simpl.
    apply Forall2_app; [|exact H2].
    destruct S2 as [_ Hst]. rewrite Eq1 in Hst.
    eapply Forall2_impl; [exact H1|]. auto.
Qed.

Lemma wrapAndStorePointers_stable (ps : list string) (w w' : World) (a : string) :
  wrapAndStorePointers bk ps w = (Done a, w') ->
  stable w w' /\ holds (o_seq (opts w)) (store w') a (wrapPointers ps).
Proof.
  intros E. unfold wrapAndStorePointers in E.
  apply task_stable in E. tauto.
Qed.

(** [tree q st n s d]: under [st], the text [s] is [n] pointer buffers
    above the text [d]; each buffer lists addresses whose records hold,
    end to end, the text below. *)
Inductive tree (q : option Z) (st : gmap string Rec) : nat -> string -> string -> Prop :=
| tree_leaf (d : string) : tree q st 0 d d
| tree_node (n : nat) (ps slices : list string) (d : string) :
    Forall2 (holds q st) ps slices ->
    tree q st n (concat_strings slices) d ->
    tree q st (S n) (wrapPointers ps) d.

Lemma tree_snoc (q : option Z) (st : gmap string Rec) (n : nat) (s : string)
    (ps slices : list string) :
  tree q st n s (wrapPointers ps) -> Forall2 (holds q st) ps slices ->
  tree q st (S n) s (concat_strings slices).
Proof.
  intros T. remember (wrapPointers ps) as d eqn:Ed. revert ps slices Ed.
  induction T as [d|n ps0 slices0 d F T IH]; intros ps slices -> F2.
  - apply tree_node with slices; [exact F2|constructor].
  - apply tree_node with slices0; [exact F|]. now apply IH with ps.
Qed.

Lemma tree_stable (w w' : World) (n : nat) (s d : string) :
  stable w w' -> tree (o_seq (opts w)) (store w) n s d ->
  tree (o_seq (opts w)) (store w') n s d.
Proof.
  intros [_ Hst] T. induction T as [d|n ps slices d F T IH]; [constructor|].
  apply tree_node with slices; [|exact IH].
  eapply Forall2_impl; [exact F|]. auto.
Qed.

(** The invariant of [put]: the address it answers holds the top of a
    tree above the payload, and nothing that held before is lost. *)
Lemma put_tree (fuel : nat) :
  forall (data : string) (w w' : World) (a : string),
    (0 < bufferSizelimit (conf bk))%Z -> (1 <= maxPointersPerBuffer bk)%Z ->
    put bk fuel data w = (Done a, w') ->
    stable w w' /\
    exists n s, n <= fuel /\
      holds (o_seq (opts w)) (store w') a s /\
      tree (o_seq (opts w)) (store w') n s data.
Proof.
  induction fuel as [|fuel IH]; intros data w w' a HB HK E; [discriminate|].
  rewrite put_unfold in E.
  pose proof (sliceData_concat data _ HB) as Hcat.
  destruct (sliceData data (bufferSizelimit (conf bk))) as [|s0 [|s1 rest]] eqn:Es.
  - exfalso. eapply sliceData_nonempty; eauto.
  - simpl in Hcat. rewrite string_app_nil_r in Hcat. subst s0.
    apply bind_done in E. destruct E as ([] & w1 & E1 & E).
    assert (S1 : stable w w1).
    { destruct (truthy_str (o_salt (opts w))).
      - inversion E1; subst. apply stable_refl.
      - apply bind_done in E1. destruct E1 as (sha & w0 & E0 & E1).
        unfold getSha in E0. inversion E0; subst; clear E0.
        unfold set_opts_salt in E1. inversion E1; subst; clear E1.
        split; simpl; auto. }
    apply send_stable in E. destruct E as (S2 & Hh & _).
    split; [eapply stable_trans; eauto|].
    destruct S1 as [Eq1 _]. rewrite Eq1 in *.
    exists 0, data. split; [lia|]. split; [exact Hh|constructor].
  - rewrite <- Es in *. set (slices := sliceData data _) in *.
    unfold storeChunked in E.
    destruct (Z.of_nat (length slices) <? maxPointersPerBuffer bk)%Z.
    + apply bind_done in E. destruct E as (ps & w1 & E1 & E).
      apply storeParallel_stable in E1. destruct E1 as (S1 & F & _).
      apply wrapAndStorePointers_stable in E. destruct E as (S2 & Hh).
      split; [eapply stable_trans; eauto|].
      destruct S1 as [Eq1 _]. rewrite Eq1 in *.
      exists 1, (wrapPointers ps). split; [lia|]. split; [exact Hh|].
      rewrite <- Hcat. apply tree_node with slices; [|constructor].
      destruct S2 as [_ Hst]. rewrite Eq1 in Hst.
      eapply Forall2_impl; [exact F|]. auto.
    + destruct (Z.of_nat (length slices) >? maxSliceCount bk)%Z; [discriminate|].
      unfold storeUntilPointersFit in E.
      destruct (mapM (storeParallel bk) _ w) as [[res| | |] w1] eqn:E1; try discriminate.
      apply boxes_stable in E1. destruct E1 as (S1 & F).
      rewrite prepareMultiLevelData_concat in F by exact HK.
      apply IH in E; [|exact HB|exact HK].
      destruct E as (S2 & n & s & Hn & Hh & T).
      split; [eapply stable_trans; eauto|].
      destruct S1 as [Eq1 _]. rewrite Eq1 in *.
      exists (S n), s. split; [lia|]. split; [exact Hh|].
      rewrite <- Hcat. apply tree_snoc with (List.concat res); [exact T|].
      destruct S2 as [_ Hst]. rewrite Eq1 in Hst.
      eapply Forall2_impl; [exact F|]. auto.
Qed.

End Writing.

Section RoundTrip.
Context `{Prim : Primitives} `{Json : JSON} `{Tr : Transport}.
Context `{!TransportLaws} `{!JSONLaws}.
Variable bk : Backend.

Lemma isResultChunked_pointers_object (ps : list string) :
  isResultChunked (pointers_object ps) = true.
Proof. reflexivity. Qed.

Lemma is_chunked_wrapPointers (ps : list string) : is_chunked (wrapPointers ps) = true.
Proof.
  unfold is_chunked. rewrite JSON_parse_wrapPointers. reflexivity.
Qed.

Lemma wrapPointers_inj (ps ps' : list string) :
  wrapPointers ps = wrapPointers ps' -> ps = ps'.
Proof.
  intros E. apply (f_equal JSON_parse) in E. rewrite !JSON_parse_wrapPointers in E.
  inversion E as [E']. clear E. revert ps' E'.
  induction ps as [|p ps IH]; intros [|p' ps'] E'; simpl in E'; try discriminate.
  - reflexivity.
  - inversion E'; subst. f_equal. auto.
Qed.

Lemma reduce_v_fold (recs : list Rec) (slices : list string) (acc : string) :
  Forall2 (fun r s => v r = Some s) recs slices ->
  fold_left (fun acc el => acc +:+ js_string (v el)) recs acc
  = acc +:+ concat_strings slices.
Proof.
  intros F. revert acc. induction F as [|r s recs slices Hv F IH]; intros acc; simpl.
  - now rewrite string_app_nil_r.
  - rewrite IH, Hv. simpl. now rewrite string_app_assoc.
Qed.

Lemma holds_collect (q : option Z) (st : gmap string Rec) (ps slices : list string) :
  Forall2 (holds q st) ps slices ->
  exists recs, collect st (List.map JStr ps) = Done recs /\
               Forall2 (fun r s => v r = Some s) recs slices.
Proof.
  unfold collect, getRetrieveTasks.
  induction 1 as [|p s ps slices Hh F IH]; simpl.
  - exists []. split; [reflexivity|constructor].
  - destruct IH as (recs & -> & Hrecs).
    destruct Hh as (Hne & r & Hl & Hv & _).
    unfold get_pointer, transport_get. simpl.
    destruct (String.eqb_spec p "") as [->|_]; [congruence|].
    rewrite Hl. eexists. split; [reflexivity|]. constructor; [exact Hv|exact Hrecs].
Qed.

Lemma step_wrapPointers (q : option Z) (st : gmap string Rec) (ps slices : list string) :
  Forall2 (holds q st) ps slices ->
  step st (wrapPointers ps) = Some (concat_strings slices).
Proof.
  intros F. unfold step. rewrite JSON_parse_wrapPointers.
  rewrite isResultChunked_pointers_object.
  change (property (pointers_object ps) "p") with (Some (JArr (List.map JStr ps))).
  destruct (holds_collect _ _ _ _ F) as (recs & -> & Hrecs).
  unfold reduce_v. now rewrite (reduce_v_fold _ _ _ Hrecs).
Qed.

Lemma tree_iter_step (q : option Z) (st : gmap string Rec) (n : nat) (s d : string) :
  tree q st n s d -> iter_step st n s = Some d.
Proof.
  induction 1 as [d|n ps slices d F T IH]; [reflexivity|].
  simpl. now rewrite (step_wrapPointers _ _ _ _ F).
Qed.

Lemma holds_unique (st1 st2 : gmap string Rec) (a s1 s2 : string) :
  holds None st1 a s1 -> holds None st2 a s2 -> s1 = s2.
Proof.
  intros (_ & r1 & _ & Hv1 & Ha1) (_ & r2 & _ & Hv2 & Ha2).
  assert (E : v r1 = v r2) by (apply immutable_address_content; congruence).
  congruence.
Qed.

Lemma holds_unique_list (st1 st2 : gmap string Rec) (ps sl1 sl2 : list string) :
  Forall2 (holds None st1) ps sl1 -> Forall2 (holds None st2) ps sl2 -> sl1 = sl2.
Proof.
  intros F. revert sl2. induction F as [|p s ps sl1 Hh F IH]; intros sl2 F2.
  - now inversion F2.
  - inversion F2; subst. f_equal; [eapply holds_unique; eauto|auto].
Qed.

(** Two trees of immutable records with the same top lie above the same
    payload, provided the payloads are no pointer buffers themselves. *)
Lemma tree_unique (st1 st2 : gmap string Rec) (n1 n2 : nat) (s d1 d2 : string) :
  tree None st1 n1 s d1 -> tree None st2 n2 s d2 ->
  is_chunked d1 = false -> is_chunked d2 = false -> d1 = d2.
Proof.
  intros T1. revert n2 d2. induction T1 as [d1|n1 ps sl1 d1 F1 T1 IH]; intros n2 d2 T2 C1 C2.
  - inversion T2; subst; [reflexivity|].
    rewrite is_chunked_wrapPointers in C1. discriminate.
  - remember (wrapPointers ps) as s eqn:Es.
    destruct T2 as [d2|n2 ps' sl2 d2 F2 T2].
    + subst d2. rewrite is_chunked_wrapPointers in C2. discriminate.
    + apply wrapPointers_inj in Es. subst ps'.
      rewrite (holds_unique_list _ _ _ _ _ F2 F1) in T2. eauto.
Qed.

End RoundTrip.

(** C1, as amended: a payload that is not itself the text of a pointer
    buffer, once [put] has answered an address for it, is what [get] on
    that address without the recursive flag returns as [v] - whatever
    the options, the length of the payload and the depth of the tree -
    on a transport without address collisions, for a positive buffer
    size and at least one pointer per buffer. *)
Theorem put_get_roundtrip `{Prim : Primitives} `{Json : JSON} `{Tr : Transport}
    `{!TransportLaws} `{!JSONLaws}
    (bk : Backend) (fuel : nat) (data : string) (w w' : World) (a : string) :
  (0 < bufferSizelimit (conf bk))%Z -> (1 <= maxPointersPerBuffer bk)%Z ->
  is_chunked data = false ->
  put bk fuel data w = (Done a, w') ->
  forall fuel', fuel < fuel' ->
    exists r, get fuel' (store w') a false = Done r /\ v r = Some data.
Proof.
  intros HB HK Hc E fuel' Hf.
  destruct (put_tree bk fuel data w w' a HB HK E) as (_ & n & s & Hn & Hh & T).
  destruct Hh as (Hne & r0 & Hl & Hv & _).
  apply tree_iter_step in T.
  unfold get. destruct (String.eqb_spec a "") as [->|_]; [congruence|].
  unfold transport_get. rewrite Hl.
  apply (maybeRetrieveChunked_steps _ n fuel' _ s data); auto. lia.
Qed.

(** *** The concrete platform meets the requirements *)

Lemma strip_prefix_app (p s : string) : strip_prefix p (p +:+ s) = Some s.
Proof.
  induction p as [|c p IH]; [reflexivity|].
  rewrite append_cons. simpl. now rewrite Ascii.eqb_refl.
Qed.

Lemma stringify_strings (p : list string) :
  List.map JSON_stringify (List.map JStr p) = List.map quote p.
Proof. induction p as [|x p IH]; simpl; [reflexivity|]. now rewrite IH. Qed.

Lemma wrapPointers_shape (p : list string) :
  wrapPointers p = pointers_prefix +:+ (join_comma (List.map quote p) +:+ "]}").
Proof.
  unfold wrapPointers, pointers_object, pointers_prefix.
  cbn [JSON_stringify List.map join_comma fst snd].
  rewrite stringify_strings. rewrite !string_app_assoc. reflexivity.
Qed.

Lemma read_string_escape (x rest : string) :
  read_string (escape x +:+ String dquote rest) = Some (x, rest).
Proof.
  induction x as [|c x IH]; [reflexivity|].
  cbn [escape]. rewrite string_app_assoc.
  set (tail := escape x +:+ String dquote rest) in *.
  destruct c as [[] [] [] [] [] [] [] []];
    match goal with
    | |- context [escape_char ?c] =>
        let e := eval vm_compute in (escape_char c) in
        change (escape_char c) with e
    end;
    rewrite ?append_cons, append_nil; simpl; rewrite IH; reflexivity.
Qed.

Lemma string_length_app (a b : string) :
  String.length (a +:+ b) = String.length a + String.length b.
Proof.
  induction a as [|c a IH]; [reflexivity|]. rewrite append_cons. simpl. now rewrite IH.
Qed.

Lemma quote_cons (x rest : string) :
  quote x +:+ rest = String dquote (escape x +:+ String dquote rest).
Proof.
  unfold quote. rewrite append_cons, string_app_assoc, append_cons, append_nil.
  reflexivity.
Qed.

Lemma read_items_join (p : list string) (x : string) :
  forall fuel, length p < fuel ->
    read_items fuel (join_comma (List.map quote (x :: p)) +:+ "]}") = Some (x :: p).
Proof.
  revert x. induction p as [|y p IH]; intros x fuel Hf.
  - destruct fuel as [|fuel]; [simpl in Hf; lia|].
    cbn [List.map join_comma]. rewrite quote_cons.
    simpl. rewrite read_string_escape. reflexivity.
  - destruct fuel as [|fuel]; [simpl in Hf; lia|].
    change (join_comma (List.map quote (x :: y :: p)))
      with (quote x +:+ "," +:+ join_comma (List.map quote (y :: p))).
    rewrite !string_app_assoc.
    set (tl := join_comma (List.map quote (y :: p)) +:+ "]}").
    rewrite quote_cons, append_cons, append_nil.
    assert (Htl : read_items fuel tl = Some (y :: p)) by (apply IH; simpl in Hf; lia).
    clearbody tl. simpl. rewrite read_string_escape. simpl. now rewrite Htl.
Qed.

Lemma join_quote_length (p : list string) :
  length p <= String.length (join_comma (List.map quote p)).
Proof.
  induction p as [|x p IH]; [simpl; lia|].
  destruct p as [|y p].
  - cbn [List.map join_comma]. unfold quote. simpl. lia.
  - change (join_comma (List.map quote (x :: y :: p)))
      with (quote x +:+ "," +:+ join_comma (List.map quote (y :: p))).
    rewrite !string_length_app.
    change (length (x :: y :: p)) with (S (length (y :: p))).
    assert (1 <= String.length (quote x)) by (unfold quote; simpl; lia).
    lia.
Qed.

#[export] Instance toy_json_laws : JSONLaws (Json := toy_json).
Proof.
  constructor. intros p. simpl. unfold parse.
  rewrite wrapPointers_shape, strip_prefix_app.
  destruct p as [|x p]; [reflexivity|].
  assert (E : String.eqb (join_comma (List.map quote (x :: p)) +:+ "]}") "]}" = false).
  { destruct p; cbn [List.map join_comma]; rewrite ?string_app_assoc, quote_cons; reflexivity. }
  rewrite E, read_items_join; [reflexivity|].
  rewrite string_length_app. pose proof (join_quote_length (x :: p)). simpl in *. lia.
Qed.

Lemma all_a_repeat (s : string) : all_a s = true -> s = repeat_a (String.length s).
Proof.
  induction s as [|c s IH]; simpl; [reflexivity|].
  intros H. apply andb_true_iff in H. destruct H as [Hc Hs].
  apply Ascii.eqb_eq in Hc. subst c. now rewrite <- IH.
Qed.

Lemma digest_inj (s1 s2 : string) : digest s1 = digest s2 -> s1 = s2.
Proof.
  unfold digest. destruct (all_a s1) eqn:A1, (all_a s2) eqn:A2; intros E.
  - rewrite !append_cons, !append_nil in E. inversion E as [E'].
    apply (inj pretty) in E'. apply Nat2N.inj in E'.
    rewrite (all_a_repeat _ A1), (all_a_repeat _ A2). now rewrite E'.
  - rewrite !append_cons, !append_nil in E. discriminate.
  - rewrite !append_cons, !append_nil in E. discriminate.
  - rewrite !append_cons, !append_nil in E. now inversion E.
Qed.

#[export] Instance toy_transport_laws : TransportLaws (Tr := toy_transport).
Proof.
  constructor; simpl.
  - intros r1 r2. unfold toy_immutable_address.
    destruct (v r1) as [s1|], (v r2) as [s2|]; intros E.
    + f_equal. now apply digest_inj.
    + exfalso. unfold digest in E. destruct (all_a s1);
        rewrite !append_cons, !append_nil in E; discriminate.
    + exfalso. unfold digest in E. destruct (all_a s2);
        rewrite !append_cons, !append_nil in E; discriminate.
    + reflexivity.
  - intros r. unfold toy_immutable_address, digest.
    destruct (v r) as [s|]; [|discriminate].
    destruct (all_a s); rewrite !append_cons, !append_nil; discriminate.
  - intros pk s. rewrite append_cons. discriminate.
  - intros old new H. apply negb_true_iff in H. unfold seq_refused in H.
    destruct (seq old) as [s|]; [|discriminate].
    destruct (seq new) as [n|]; [|discriminate].
    apply negb_false_iff, Z.eqb_eq in H. intros E. inversion E. lia.
Qed.

#[export] Instance toy_content_addressed : ContentAddressed (Tr := toy_transport).
Proof.
  constructor. intros r1 r2 E. simpl. unfold toy_immutable_address. now rewrite E.
Qed.

#[export] Instance toy_primitives_laws : PrimitivesLaws (Prim := toy_primitives).
Proof. constructor. intros s. simpl. rewrite append_cons. discriminate. Qed.

(** *** Immutable writes *)

Section Immutable.
Context `{Prim : Primitives} `{Json : JSON} `{Tr : Transport}.
Context `{!ContentAddressed}.
Variable bk : Backend.

(** The address of a content. *)
Definition address_of (data : string) : string :=
  immutable_address (set_v (Some data) emptyRec).

(** When an immutable [send] answers, it answers the address of the
    content. *)
Lemma send_immutable_done (data : string) (w w' : World) (a : string) :
  o_seq (opts w) = None ->
  send bk data w = (Done a, w') ->
  a = address_of data /\ o_seq (opts w') = None.
Proof.
  intros Hq E. rewrite (send_immutable bk data w Hq) in E.
  unfold sendImmutable, transport_put in E.
  assert (Ea : immutable_address
                 (if truthy_str (o_salt (opts w))
                  then set_salt (o_salt (opts w)) (set_v (Some data) emptyRec)
                  else set_v (Some data) emptyRec) = address_of data).
  { apply immutable_address_v. destruct (truthy_str (o_salt (opts w))); reflexivity. }
  destruct (immutable_error _ _); [discriminate|].
  cbv zeta in E. rewrite Ea in E. inversion E; subst. split; [reflexivity|exact Hq].
Qed.

Lemma task_immutable_done (x chunk : string) (w w' : World) (a : string) :
  o_seq (opts w) = None ->
  (sha <- getSha x ;; _ <- set_opts_salt sha ;; send bk chunk) w = (Done a, w') ->
  a = address_of chunk /\ o_seq (opts w') = None.
Proof.
  intros Hq E. unfold bind at 1 in E. unfold getSha in E.
  unfold bind at 1 in E. unfold set_opts_salt in E.
  apply send_immutable_done in E; [exact E|exact Hq].
Qed.

Lemma storeParallel_immutable_done (slices : list string) :
  forall (w w' : World) (ps : list string),
    o_seq (opts w) = None ->
    storeParallel bk slices w = (Done ps, w') ->
    ps = List.map address_of slices /\ o_seq (opts w') = None.
Proof.
  unfold storeParallel, taskParallel, getStoreTasks.
  induction slices as [|chunk slices IH]; intros w w' ps Hq E; cbn [List.map mapM] in E.
  - inversion E; subst. split; [reflexivity|exact Hq].
  - apply bind_done in E. destruct E as (a & w1 & E1 & E2).
    apply bind_done in E2. destruct E2 as (ys & w2 & E2 & E3).
    inversion E3; subst. clear E3.
    apply task_immutable_done in E1; [|exact Hq]. destruct E1 as (-> & Hq1).
    apply IH in E2; [|exact Hq1]. destruct E2 as (-> & Hq2).
    split; [reflexivity|exact Hq2].
Qed.

Lemma boxes_immutable_done (boxes : list (list string)) :
  forall (w w' : World) (res : list (list string)),
    o_seq (opts w) = None ->
    mapM (storeParallel bk) boxes w = (Done res, w') ->
    res = List.map (List.map address_of) boxes /\ o_seq (opts w') = None.
Proof.
  induction boxes as [|box boxes IH]; intros w w' res Hq E; cbn [mapM] in E.
  - inversion E; subst. split; [reflexivity|exact Hq].
  - apply bind_done in E. destruct E as (ps & w1 & E1 & E2).
    apply bind_done in E2. destruct E2 as (ys & w2 & E2 & E3).
    inversion E3; subst. clear E3.
    apply storeParallel_immutable_done in E1; [|exact Hq]. destruct E1 as (-> & Hq1).
    apply IH in E2; [|exact Hq1]. destruct E2 as (-> & Hq2).
    split; [reflexivity|exact Hq2].
Qed.

(** In immutable mode the address [put] answers depends on the payload
    alone: not on the store, the salt, the draws or the fuel. *)
Lemma put_immutable_deterministic (fuel1 : nat) :
  forall (fuel2 : nat) (data : string) (w1 w2 w1' w2' : World) (a1 a2 : string),
    o_seq (opts w1) = None -> o_seq (opts w2) = None ->
    put bk fuel1 data w1 = (Done a1, w1') ->
    put bk fuel2 data w2 = (Done a2, w2') ->
    a1 = a2.
Proof.
  induction fuel1 as [|fuel1 IH]; intros fuel2 data w1 w2 w1' w2' a1 a2 Hq1 Hq2 E1 E2;
    [discriminate|].
  destruct fuel2 as [|fuel2]; [discriminate|].
  rewrite put_unfold in E1, E2.
  destruct (sliceData data (bufferSizelimit (conf bk))) as [|s0 [|s1 rest]] eqn:Es.
  - exfalso. eapply sliceData_nonempty; eauto.
  - assert (P : forall w w' a,
                 o_seq (opts w) = None ->
                 (_ <- (if truthy_str (o_salt (opts w)) then ret tt
                        else sha <- getSha s0 ;; set_opts_salt sha) ;;
                  send bk s0) w = (Done a, w') -> a = address_of s0).
    { intros w w' a Hq E. apply bind_done in E. destruct E as ([] & u & S & E).
      assert (Hu : o_seq (opts u) = None).
      { destruct (truthy_str (o_salt (opts w))).
        - inversion S; subst. exact Hq.
        - apply bind_done in S. destruct S as (sha & u0 & S0 & S).
          inversion S0; subst. inversion S; subst. exact Hq. }
      apply send_immutable_done in E; [|exact Hu]. tauto. }
    rewrite (P _ _ _ Hq1 E1), (P _ _ _ Hq2 E2). reflexivity.
  - remember (s0 :: s1 :: rest) as slices eqn:Hsl. clear Hsl Es.
    unfold storeChunked in E1, E2.
    destruct (Z.of_nat (length slices) <? maxPointersPerBuffer bk)%Z.
    + apply bind_done in E1. destruct E1 as (p1 & u1 & S1 & E1).
      apply bind_done in E2. destruct E2 as (p2 & u2 & S2 & E2).
      apply storeParallel_immutable_done in S1; [|exact Hq1]. destruct S1 as (-> & Hu1).
      apply storeParallel_immutable_done in S2; [|exact Hq2]. destruct S2 as (-> & Hu2).
      unfold wrapAndStorePointers in E1, E2. cbv zeta in E1, E2.
      apply task_immutable_done in E1; [|exact Hu1].
      apply task_immutable_done in E2; [|exact Hu2].
      destruct E1 as (-> & _), E2 as (-> & _). reflexivity.
    + destruct (Z.of_nat (length slices) >? maxSliceCount bk)%Z; [discriminate|].
      unfold storeUntilPointersFit in E1, E2.
      destruct (mapM (storeParallel bk) _ w1) as [[res1| | |] u1] eqn:B1; try discriminate.
      destruct (mapM (storeParallel bk) _ w2) as [[res2| | |] u2] eqn:B2; try discriminate.
      apply boxes_immutable_done in B1; [|exact Hq1]. destruct B1 as (-> & Hu1).
      apply boxes_immutable_done in B2; [|exact Hq2]. destruct B2 as (-> & Hu2).
      eapply IH; [| |exact E1|exact E2]; assumption.
Qed.

End Immutable.

(** C7, as amended: in immutable mode (no [seq]), on a transport whose
    immutable address depends on [v] alone, two [put]s of equal payloads
    answer equal addresses; and when moreover that address determines
    [v], two [put]s of different payloads, neither of which is the text
    of a pointer buffer, answer different addresses. *)
Theorem immutable_put_addresses `{Prim : Primitives} `{Json : JSON} `{Tr : Transport}
    `{!TransportLaws} `{!JSONLaws} `{!ContentAddressed}
    (bk : Backend) (fuel1 fuel2 : nat) (P1 P2 : string)
    (w1 w2 w1' w2' : World) (a1 a2 : string) :
  (0 < bufferSizelimit (conf bk))%Z -> (1 <= maxPointersPerBuffer bk)%Z ->
  o_seq (opts w1) = None -> o_seq (opts w2) = None ->
  put bk fuel1 P1 w1 = (Done a1, w1') ->
  put bk fuel2 P2 w2 = (Done a2, w2') ->
  (P1 = P2 -> a1 = a2) /\
  (is_chunked P1 = false -> is_chunked P2 = false -> P1 <> P2 -> a1 <> a2).
Proof.
  intros HB HK Hq1 Hq2 E1 E2. split.
  - intros ->.
    exact (put_immutable_deterministic bk fuel1 fuel2 P2 w1 w2 w1' w2' a1 a2 Hq1 Hq2 E1 E2).
  - intros C1 C2 Hne Ha. subst a2. apply Hne.
    destruct (put_tree bk fuel1 P1 w1 w1' a1 HB HK E1) as (_ & n1 & s1 & _ & Hh1 & T1).
    destruct (put_tree bk fuel2 P2 w2 w2' a1 HB HK E2) as (_ & n2 & s2 & _ & Hh2 & T2).
    rewrite Hq1 in *. rewrite Hq2 in *.
    assert (s1 = s2) by (eapply holds_unique; eauto). subst s2.
    eapply tree_unique; eauto.
Qed.

(** *** The salts of the records sent to the transport *)

Section Salts.
Context `{Prim : Primitives} `{Json : JSON} `{Tr : Transport}.
Context `{!PrimitivesLaws}.
Variable bk : Backend.

Lemma own_digest_mono (lo hi lo' hi' : nat) (c : Call) :
  own_digest lo hi c -> lo' <= lo -> hi <= hi' -> own_digest lo' hi' c.
Proof. intros (i & Hi & Hd) ? ?. exists i. split; [lia|exact Hd]. Qed.

Lemma Forall_removelast {A : Type} (P : A -> Prop) (l : list A) :
  Forall P l -> Forall P (removelast l).
Proof.
  induction 1 as [|x l Hx Hl IH]; [constructor|].
  simpl. destruct l; [constructor|]. constructor; [exact Hx|exact IH].
Qed.

Lemma own_removelast_app (lo hi : nat) (new1 new2 : list Call) :
  Forall (own_digest lo hi) new1 -> Forall (own_digest lo hi) (removelast new2) ->
  Forall (own_digest lo hi) (removelast (new1 ++ new2)).
Proof.
  intros F1 F2. destruct new2 as [|c new2].
  - rewrite app_nil_r. now apply Forall_removelast.
  - rewrite removelast_app by discriminate. apply Forall_app. now split.
Qed.

Lemma sha_truthy (x : string) (i : nat) : truthy_str (Some (sha_of x i)) = true.
Proof.
  simpl. destruct (String.eqb_spec (sha_of x i) ""); [|reflexivity].
  exfalso. eapply sha1_hex_nonempty; eauto.
Qed.

(** [send] makes at most one transport call; the record it sends has
    the payload as [v] and the salt of the options, when that is truthy
    and [seq] is not 0. *)
Lemma send_calls (data : string) (w w' : World) (out : outcome string) :
  send bk data w = (out, w') ->
  o_seq (opts w) <> Some 0%Z -> truthy_str (o_salt (opts w)) = true ->
  opts w' = opts w /\ draws w' = draws w /\
  ((calls w' = calls w /\ forall a, out <> Done a) \/
   exists c, calls w' = (calls w ++ [c])%list /\
             salt (call_payload c) = o_salt (opts w) /\
             v (call_payload c) = Some data).
Proof.
  intros E Hq Hs. destruct (o_seq (opts w)) as [z|] eqn:Eq.
  - destruct (keys (conf bk)) as [ks|] eqn:Hk.
    + rewrite (send_mutable bk data w z ks Eq Hk) in E.
      unfold bind, set_opts_keys, sendMutable, transport_putMutable in E. simpl in E.
      assert (Hp : salt (getPayload data (opts w)) = o_salt (opts w) /\
                   v (getPayload data (opts w)) = Some data).
      { unfold getPayload. rewrite Eq, Hs. simpl.
        destruct (Z.eqb_spec z 0) as [->|_]; [congruence|]. simpl. auto. }
      destruct (store w !! _) as [old|];
        [destruct (mutable_accepts old _)|]; inversion E; subst; simpl;
        (split; [reflexivity|]; split; [reflexivity|]; right;
         eexists; split; [reflexivity|exact Hp]).
    + rewrite (send_no_keys bk data w z Eq Hk) in E. inversion E; subst.
      split; [reflexivity|]. split; [reflexivity|]. left. split; [reflexivity|].
      intros a. discriminate.
  - rewrite (send_immutable bk data w Eq) in E.
    unfold sendImmutable, transport_put in E. rewrite Hs in E.
    destruct (immutable_error _ _); inversion E; subst; simpl;
      (split; [reflexivity|]; split; [reflexivity|]; right;
       eexists; split; [reflexivity|]; simpl; auto).
Qed.

(** One store task: a draw, then [send] under the digest drawn. *)
Lemma task_calls (x chunk : string) (w w' : World) (out : outcome string) :
  (sha <- getSha x ;; _ <- set_opts_salt sha ;; send bk chunk) w = (out, w') ->
  o_seq (opts w) <> Some 0%Z ->
  o_seq (opts w') = o_seq (opts w) /\ draws w' = S (draws w) /\
  o_salt (opts w') = Some (sha_of x (draws w)) /\
  ((calls w' = calls w /\ forall a, out <> Done a) \/
   exists c, calls w' = (calls w ++ [c])%list /\
             salt (call_payload c) = Some (sha_of x (draws w)) /\
             v (call_payload c) = Some chunk).
Proof.
  intros E Hq. unfold bind at 1 in E. unfold getSha in E.
  unfold bind at 1 in E. unfold set_opts_salt in E.
  apply send_calls in E; simpl; [|exact Hq|apply sha_truthy].
  simpl in E. destruct E as (Eo & Ed & Ec).
  rewrite Eo. simpl. auto.
Qed.

Lemma task_own (x chunk : string) (c : Call) (n : nat) :
  salt (call_payload c) = Some (sha_of x n) -> v (call_payload c) = Some chunk ->
  x = chunk \/ x = JSON_stringify (JStr chunk) ->
  own_digest n (S n) c.
Proof.
  intros Hs Hv Hx. exists n. split; [lia|]. rewrite Hv. simpl.
  destruct Hx as [->| ->]; auto.
Qed.

(** The state after a run of store tasks: what was sent, and - when all
    tasks succeeded - whose salt the options are left with. *)
Definition sent (w w' : World) (new : list Call) : Prop :=
  calls w' = (calls w ++ new)%list /\ draws w <= draws w' /\
  o_seq (opts w') = o_seq (opts w) /\
  Forall (own_digest (draws w) (draws w')) new.

Definition left_with (w w' : World) (new : list Call) : Prop :=
  exists c', In c' new /\ own_digest (draws w) (draws w') c' /\
             o_salt (opts w') = salt (call_payload c') /\
             truthy_str (o_salt (opts w')) = true.

Lemma sent_trans (w w1 w2 : World) (new1 new2 : list Call) :
  sent w w1 new1 -> sent w1 w2 new2 -> sent w w2 (new1 ++ new2).
Proof.
  intros (C1 & D1 & Q1 & F1) (C2 & D2 & Q2 & F2).
  split; [rewrite C2, C1; now rewrite app_assoc|].
  split; [lia|]. split; [congruence|].
  apply Forall_app. split.
  - eapply Forall_impl; [exact F1|]. intros c Hc. eapply own_digest_mono; eauto.
  - eapply Forall_impl; [exact F2|]. intros c Hc. eapply own_digest_mono; eauto.
Qed.

Lemma left_with_l (w w1 w2 : World) (new1 new2 : list Call) :
  left_with w w1 new1 -> w2 = w1 -> new2 = [] -> left_with w w2 (new1 ++ new2).
Proof. intros L -> ->. now rewrite app_nil_r. Qed.

Lemma left_with_r (w w1 w2 : World) (new1 new2 : list Call) :
  draws w <= draws w1 -> left_with w1 w2 new2 -> left_with w w2 (new1 ++ new2).
Proof.
  intros D (c' & Hin & Ho & Hs & Ht). exists c'.
  split; [apply in_or_app; now right|].
  split; [eapply own_digest_mono; eauto|]. auto.
Qed.

Lemma task_sent (x chunk : string) (w w' : World) (out : outcome string) :
  (sha <- getSha x ;; _ <- set_opts_salt sha ;; send bk chunk) w = (out, w') ->
  o_seq (opts w) <> Some 0%Z ->
  x = chunk \/ x = JSON_stringify (JStr chunk) ->
  exists new, sent w w' new /\ (forall a, out = Done a -> left_with w w' new).
Proof.
  intros E Hq Hx. apply task_calls in E; [|exact Hq].
  destruct E as (Eq & Ed & Es & [[Ec Hout]|(c & Ec & Hs & Hv)]).
  - exists []. split.
    + split; [now rewrite app_nil_r|]. split; [lia|]. split; [exact Eq|constructor].
    + intros a ->. exfalso. eapply Hout; eauto.
  - pose proof (task_own x chunk c (draws w) Hs Hv Hx) as Ho.
    exists [c]. split.
    + split; [exact Ec|]. split; [lia|]. split; [exact Eq|].
      constructor; [|constructor]. now rewrite Ed.
    + intros a _. exists c. split; [now left|]. rewrite Ed. split; [exact Ho|].
      split; [congruence|]. rewrite Es. apply sha_truthy.
Qed.

Lemma storeParallel_sent (slices : list string) :
  forall (w w' : World) (out : outcome (list string)),
    storeParallel bk slices w = (out, w') ->
    o_seq (opts w) <> Some 0%Z ->
    exists new, sent w w' new /\
      (forall ps, out = Done ps -> slices <> [] -> left_with w w' new) /\
      (slices = [] -> w' = w /\ new = []).
Proof.
  unfold storeParallel, taskParallel, getStoreTasks.
  induction slices as [|chunk slices IH]; intros w w' out E Hq.
  - inversion E; subst. exists []. split.
    + split; [now rewrite app_nil_r|]. split; [lia|]. split; [reflexivity|constructor].
    + split; [congruence|auto].
  - cbn [List.map mapM] in E. unfold bind at 1 in E.
    destruct ((sha <- getSha chunk;; _ <- set_opts_salt sha;; send bk chunk) w)
      as [o1 w1] eqn:E1.
    apply task_sent in E1; [|exact Hq|now left].
    destruct E1 as (new1 & S1 & L1).
    assert (Hq1 : o_seq (opts w1) <> Some 0%Z).
    { destruct S1 as (_ & _ & Eq & _). now rewrite Eq. }
    destruct o1 as [a| | |];
      try (inversion E; subst; exists new1; split; [exact S1|];
           split; [discriminate|discriminate]).
    unfold bind at 1 in E.
    destruct (mapM (fun t => t) _ w1) as [o2 w2] eqn:E2.
    apply IH in E2; [|exact Hq1]. destruct E2 as (new2 & S2 & L2 & N2).
    exists (new1 ++ new2)%list.
    split; [|split; [|discriminate]].
    + assert (Hw : w' = w2) by (destruct o2; inversion E; reflexivity).
      subst w'. eapply sent_trans; eauto.
    + intros ps Hout _. destruct o2 as [rest| | |]; inversion E; subst; try discriminate.
      destruct slices as [|s1 slices'].
      * destruct N2 as [-> ->]; [reflexivity|].
        eapply left_with_l; eauto.
      * eapply left_with_r; [apply S1|]. eapply L2; [reflexivity|discriminate].
Qed.

Lemma boxes_sent (boxes : list (list string)) :
  forall (w w' : World) (out : outcome (list (list string))),
    mapM (storeParallel bk) boxes w = (out, w') ->
    o_seq (opts w) <> Some 0%Z ->
    exists new, sent w w' new /\
      (forall res, out = Done res -> List.concat boxes <> [] -> left_with w w' new) /\
      (List.concat boxes = [] -> w' = w /\ new = []).
Proof.
  induction boxes as [|box boxes IH]; intros w w' out E Hq.
  - inversion E; subst. exists []. split.
    + split; [now rewrite app_nil_r|]. split; [lia|]. split; [reflexivity|constructor].
    + split; [intros ? _ Hne; exfalso; now apply Hne|auto].
  - cbn [mapM] in E. unfold bind at 1 in E.
    destruct (storeParallel bk box w) as [o1 w1] eqn:E1.
    apply storeParallel_sent in E1; [|exact Hq].
    destruct E1 as (new1 & S1 & L1 & N1).
    assert (Hq1 : o_seq (opts w1) <> Some 0%Z).
    { destruct S1 as (_ & _ & Eq & _). now rewrite Eq. }
    destruct o1 as [ps| | |];
      try (inversion E; subst; exists new1; split; [exact S1|];
           split; [discriminate|];
           intros Hc; apply app_eq_nil in Hc; destruct Hc as [Hb _]; auto).
    unfold bind at 1 in E.
    destruct (mapM (storeParallel bk) boxes w1) as [o2 w2] eqn:E2.
    apply IH in E2; [|exact Hq1]. destruct E2 as (new2 & S2 & L2 & N2).
    assert (Hw : w' = w2) by (destruct o2; inversion E; reflexivity).
    subst w'.
    exists (new1 ++ new2)%list.
    split; [eapply sent_trans; eauto|]. split.
    + intros res Hout Hne. destruct o2 as [rest| | |]; inversion E; subst; try discriminate.
      destruct (List.concat boxes) as [|y ys] eqn:Ec.
      * destruct N2 as [-> ->]; [reflexivity|].
        eapply left_with_l; eauto. eapply L1; [reflexivity|].
        intros ->. apply Hne. simpl. exact Ec.
      * eapply left_with_r; [apply S1|]. eapply L2; [reflexivity|discriminate].
    + intros Hc. simpl in Hc. apply app_eq_nil in Hc. destruct Hc as [Hb Hc].
      destruct (N1 Hb) as [-> ->]. destruct (N2 Hc) as [-> ->]. auto.
Qed.

Lemma sent_own (w w' : World) (new : list Call) (lo hi : nat) :
  sent w w' new -> lo <= draws w -> draws w' <= hi ->
  Forall (own_digest lo hi) new.
Proof.
  intros (_ & _ & _ & F) Hlo Hhi. eapply Forall_impl; [exact F|].
  intros c Hc. eapply own_digest_mono; eauto.
Qed.

(** The calls of a [put], nested or not.  Every record but the one sent
    last carries a digest drawn for it; so does the last when the slices
    fit one pointer buffer, or when the one slice is sent under no salt
    of the options; one slice under a salt of the options is sent under
    that salt. *)
Lemma put_own (fuel : nat) :
  forall (data : string) (w w' : World) (out : outcome string),
    put bk fuel data w = (out, w') ->
    o_seq (opts w) <> Some 0%Z -> (1 <= maxPointersPerBuffer bk)%Z ->
    exists new, calls w' = (calls w ++ new)%list /\ draws w <= draws w' /\
      Forall (own_digest (draws w) (draws w')) (removelast new) /\
      ((forall s0, sliceData data (bufferSizelimit (conf bk)) <> [s0]) ->
       (Z.of_nat (length (sliceData data (bufferSizelimit (conf bk))))
        < maxPointersPerBuffer bk)%Z ->
       Forall (own_digest (draws w) (draws w')) new) /\
      (forall s0, sliceData data (bufferSizelimit (conf bk)) = [s0] ->
         length new <= 1 /\
         (truthy_str (o_salt (opts w)) = true ->
          Forall (fun c => salt (call_payload c) = o_salt (opts w)) new) /\
         (truthy_str (o_salt (opts w)) = false ->
          Forall (own_digest (draws w) (draws w')) new)).
Proof.
  induction fuel as [|fuel IH]; intros data w w' out E Hq HK.
  { inversion E; subst. exists []. split; [now rewrite app_nil_r|]. split; [lia|].
    split; [constructor|]. split; [constructor|].
    intros _ _. split; [simpl; lia|]. split; constructor. }
  rewrite put_unfold in E.
  destruct (sliceData data (bufferSizelimit (conf bk))) as [|s0 [|s1 rest]] eqn:Es.
  - exfalso. eapply sliceData_nonempty; eauto.
  - destruct (truthy_str (o_salt (opts w))) eqn:Ht.
    + assert (E' : send bk s0 w = (out, w')) by exact E.
      apply send_calls in E'; [|exact Hq|exact Ht].
      destruct E' as (Eo & Ed & [[Ec _]|(c & Ec & Hs & Hv)]).
      * exists []. split; [now rewrite app_nil_r|]. split; [lia|].
        split; [constructor|].
        split; [intros Hn; exfalso; now apply (Hn s0)|].
        intros _ _. split; [simpl; lia|]. split; constructor.
      * exists [c]. split; [exact Ec|]. split; [lia|].
        split; [constructor|].
        split; [intros Hn; exfalso; now apply (Hn s0)|].
        intros _ _. split; [simpl; lia|].
        split; [intros _; constructor; [exact Hs|constructor]|discriminate].
    + assert (E' : (sha <- getSha s0 ;; _ <- set_opts_salt sha ;; send bk s0) w
                   = (out, w')) by exact E.
      apply task_calls in E'; [|exact Hq].
      destruct E' as (Eq & Ed & Esalt & [[Ec _]|(c & Ec & Hs & Hv)]).
      * exists []. split; [now rewrite app_nil_r|]. split; [lia|].
        split; [constructor|].
        split; [intros Hn; exfalso; now apply (Hn s0)|].
        intros _ _. split; [simpl; lia|]. split; constructor.
      * pose proof (task_own s0 s0 c (draws w) Hs Hv (or_introl eq_refl)) as Ho.
        exists [c]. split; [exact Ec|]. split; [lia|].
        split; [constructor|].
        split; [intros Hn; exfalso; now apply (Hn s0)|].
        intros _ _. split; [simpl; lia|].
        split; [discriminate|]. intros _. rewrite Ed.
        constructor; [exact Ho|constructor].
  - remember (s0 :: s1 :: rest) as slices eqn:Hsl.
    assert (Hne : slices <> []) by (subst slices; discriminate).
    assert (Hmany : forall x, slices <> [x]) by (subst slices; discriminate).
    clear Hsl. unfold storeChunked in E.
    destruct (Z.ltb_spec (Z.of_nat (length slices)) (maxPointersPerBuffer bk))
      as [Hlt|Hge].
    + assert (Hall : exists new, calls w' = (calls w ++ new)%list /\
                       draws w <= draws w' /\
                       Forall (own_digest (draws w) (draws w')) new).
      { unfold bind at 1 in E.
        destruct (storeParallel bk slices w) as [o1 w1] eqn:E1.
        apply storeParallel_sent in E1; [|exact Hq].
        destruct E1 as (new1 & S1 & _ & _).
        destruct o1 as [ps| | |];
          try (inversion E; subst; exists new1; split; [apply S1|];
               split; [apply S1|]; eapply sent_own; eauto).
        unfold wrapAndStorePointers in E. cbv zeta in E.
        apply task_sent in E; [|destruct S1 as (_ & _ & Eq & _); now rewrite Eq|now right].
        destruct E as (new2 & S2 & _).
        pose proof (sent_trans _ _ _ _ _ S1 S2) as S12.
        exists (new1 ++ new2)%list. split; [apply S12|]. split; [apply S12|].
        eapply sent_own; eauto. }
      destruct Hall as (new & Ec & Ed & F).
      exists new. split; [exact Ec|]. split; [exact Ed|].
      split; [now apply Forall_removelast|].
      split; [intros _ _; exact F|].
      intros x Hx. exfalso. now apply (Hmany x).
    + destruct (Z.of_nat (length slices) >? maxSliceCount bk)%Z.
      { inversion E; subst. exists []. split; [now rewrite app_nil_r|].
        split; [lia|]. split; [constructor|].
        split; [intros _ Hlt; lia|].
        intros x Hx. exfalso. now apply (Hmany x). }
      unfold storeUntilPointersFit in E.
      destruct (mapM (storeParallel bk) _ w) as [o1 w1] eqn:E1.
      apply boxes_sent in E1; [|exact Hq].
      destruct E1 as (new1 & S1 & _ & _).
      assert (Hrest : exists new2, calls w' = (calls w1 ++ new2)%list /\
                        draws w1 <= draws w' /\
                        Forall (own_digest (draws w1) (draws w')) (removelast new2)).
      { destruct o1 as [res| | |];
          try (inversion E; subst; exists []; split; [now rewrite app_nil_r|];
               split; [lia|constructor]).
        apply IH in E; [|destruct S1 as (_ & _ & Eq & _); now rewrite Eq|exact HK].
        destruct E as (new2 & C2 & D2 & F2 & _). exists new2. auto. }
      destruct Hrest as (new2 & C2 & D2 & F2).
      pose proof S1 as (C1 & D1 & Q1 & F1).
      exists (new1 ++ new2)%list.
      split; [rewrite C2, C1; now rewrite app_assoc|]. split; [lia|].
      split.
      * apply own_removelast_app.
        -- eapply sent_own; eauto.
        -- eapply Forall_impl; [exact F2|].
           intros c Hc. eapply own_digest_mono; eauto.
      * split; [intros _ Hlt; lia|].
        intros x Hx. exfalso. now apply (Hmany x).
Qed.

End Salts.

(** C6, as amended: on a chunked write (the payload makes more than one
    slice; [seq] undefined or not 0) every record sent to the transport
    before the last one - every leaf and every intermediate record -
    carries a digest that [getSha] drew for it during this [put]: of
    the record's own fragment or of the serialized pointer buffer it
    holds.  When the slices fit one pointer buffer the record sent last,
    the root, carries such a digest too, whatever salt the caller
    passed.  The caller's salt is used only when the payload makes one
    slice: it is then the salt of the one record sent, and without it
    that record carries a digest drawn for it. *)
Theorem chunked_put_salts `{Prim : Primitives} `{Json : JSON} `{Tr : Transport}
    `{!PrimitivesLaws}
    (bk : Backend) (fuel : nat) (data : string) (w w' : World) (out : outcome string) :
  (1 <= maxPointersPerBuffer bk)%Z -> o_seq (opts w) <> Some 0%Z ->
  put bk fuel data w = (out, w') ->
  exists new, calls w' = (calls w ++ new)%list /\
    ((forall s0, sliceData data (bufferSizelimit (conf bk)) <> [s0]) ->
     Forall (own_digest (draws w) (draws w')) (removelast new) /\
     ((Z.of_nat (length (sliceData data (bufferSizelimit (conf bk))))
       < maxPointersPerBuffer bk)%Z ->
      Forall (own_digest (draws w) (draws w')) new)) /\
    (forall s0, sliceData data (bufferSizelimit (conf bk)) = [s0] ->
                length new <= 1 /\
                (truthy_str (o_salt (opts w)) = true ->
                 Forall (fun c => salt (call_payload c) = o_salt (opts w)) new) /\
                (truthy_str (o_salt (opts w)) = false ->
                 Forall (own_digest (draws w) (draws w')) new)).
Proof.
  intros HK Hq E.
  destruct (put_own bk fuel data w w' out E Hq HK) as (new & Ec & _ & Fr & Fall & Fone).
  exists new. split; [exact Ec|]. split.
  - intros Hmany. split; [exact Fr|]. intros Hlt. now apply Fall.
  - exact Fone.
Qed.

(** *** Errors on the write path, and the record sent under [seq = 0] *)

Section Errors.
Context `{Prim : Primitives} `{Json : JSON} `{Tr : Transport}.
Variable bk : Backend.

(** Without keys a store task under a defined [seq] fails before any
    transport call. *)
Lemma task_no_keys (x chunk : string) (w : World) (s : Z) :
  o_seq (opts w) = Some s -> keys (conf bk) = None ->
  exists w',
    (sha <- getSha x ;; _ <- set_opts_salt sha ;; send bk chunk) w
    = (Failed "no keys set", w') /\ calls w' = calls w.
Proof.
  intros Hq Hk. unfold bind at 1. unfold getSha. unfold bind at 1. unfold set_opts_salt.
  rewrite (send_no_keys bk chunk _ s); [|exact Hq|exact Hk].
  eexists. split; reflexivity.
Qed.

(** The single-level path hands that error to the callback of [put]... *)
Lemma put_single_level_no_keys (fuel : nat) (data : string) (w : World) (s : Z) :
  o_seq (opts w) = Some s -> keys (conf bk) = None ->
  (2 <= length (sliceData data (bufferSizelimit (conf bk)))) ->
  (Z.of_nat (length (sliceData data (bufferSizelimit (conf bk))))
   < maxPointersPerBuffer bk)%Z ->
  exists w', put bk (S fuel) data w = (Failed "no keys set", w') /\ calls w' = calls w.
Proof.
  intros Hq Hk Hn HK. rewrite put_unfold.
  destruct (sliceData data (bufferSizelimit (conf bk))) as [|s0 [|s1 rest]] eqn:Es;
    try (simpl in Hn; lia).
  unfold storeChunked.
  destruct (Z.ltb_spec (Z.of_nat (length (s0 :: s1 :: rest))) (maxPointersPerBuffer bk));
    [|lia].
  unfold bind at 1. unfold storeParallel, taskParallel, getStoreTasks.
  cbn [List.map mapM]. unfold bind at 1.
  destruct (task_no_keys s0 s0 w s Hq Hk) as (w' & -> & Hc).
  exists w'. split; [reflexivity|exact Hc].
Qed.

(** ... and the path of the sequential boxes drops it. *)
Lemma put_boxes_no_keys (fuel : nat) (data : string) (w : World) (s : Z) :
  o_seq (opts w) = Some s -> keys (conf bk) = None ->
  (1 <= maxPointersPerBuffer bk)%Z ->
  (2 <= length (sliceData data (bufferSizelimit (conf bk)))) ->
  (maxPointersPerBuffer bk
   <= Z.of_nat (length (sliceData data (bufferSizelimit (conf bk)))))%Z ->
  (Z.of_nat (length (sliceData data (bufferSizelimit (conf bk))))
   <= maxSliceCount bk)%Z ->
  exists w', put bk (S fuel) data w = (NoCallback, w') /\ calls w' = calls w.
Proof.
  intros Hq Hk HK1 Hn HK Hmax. rewrite put_unfold.
  destruct (sliceData data (bufferSizelimit (conf bk))) as [|s0 [|s1 rest]] eqn:Es;
    try (simpl in Hn; lia).
  unfold storeChunked.
  destruct (Z.ltb_spec (Z.of_nat (length (s0 :: s1 :: rest))) (maxPointersPerBuffer bk));
    [lia|].
  destruct (Z.gtb_spec (Z.of_nat (length (s0 :: s1 :: rest))) (maxSliceCount bk));
    [lia|].
  unfold storeUntilPointersFit, prepareMultiLevelData.
  destruct (Z.to_nat (maxPointersPerBuffer bk)) as [|k'] eqn:Ek; [lia|].
  cbn [length boxes_go take]. cbn [mapM]. unfold bind at 1.
  unfold storeParallel at 1. unfold taskParallel, getStoreTasks.
  cbn [List.map mapM]. unfold bind at 1.
  destruct (task_no_keys s0 s0 w s Hq Hk) as (w' & -> & Hc).
  exists w'. split; [reflexivity|exact Hc].
Qed.

(** With [seq = 0] the mutable path is taken with a record that carries
    the payload and nothing else. *)
Lemma send_seq_zero (data : string) (w : World) (ks : Keys) :
  o_seq (opts w) = Some 0%Z -> keys (conf bk) = Some ks ->
  exists out w',
    send bk data w = (out, w') /\
    calls w' = (calls w ++ [CallPutMutable (set_v (Some data) emptyRec) (opts w) (Some ks)])%list.
Proof.
  intros Hq Hk. rewrite (send_mutable bk data w 0 ks Hq Hk).
  unfold bind, set_opts_keys, sendMutable, transport_putMutable. simpl.
  assert (E : getPayload data (opts w) = set_v (Some data) emptyRec).
  { unfold getPayload. rewrite Hq. reflexivity. }
  rewrite E.
  destruct (store w !! _) as [old|]; [destruct (mutable_accepts old _)|];
    do 2 eexists; split; reflexivity.
Qed.

End Errors.

(** *** The backend at work on the concrete platform *)

(** Payloads of length 0, [bufferSizelimit], [bufferSizelimit + 1] and
    [K^maxIndirections * bufferSizelimit - 1] come back unchanged, stored
    immutably or under [seq = 1]. *)
Example roundtrip_boundary_lengths :
  Forall (fun n =>
            v_of (read_back (run conf48 (repeat_a n) no_opts)) = Some (repeat_a n) /\
            v_of (read_back (run conf48_keys (repeat_a n) seq1)) = Some (repeat_a n))
         [0; 48; 49; 431].
Proof. repeat constructor; vm_compute; reflexivity. Qed.

Lemma put_get_roundtrip_witness :
  exists r,
    get 9 (store (snd (run conf48_keys (repeat_a 49) seq1)))
        (answer (run conf48_keys (repeat_a 49) seq1)) false = Done r /\
    v r = Some (repeat_a 49).
Proof.
  apply (put_get_roundtrip (new_backend conf48_keys) 8 (repeat_a 49) (world0 seq1)
           (snd (run conf48_keys (repeat_a 49) seq1))
           (answer (run conf48_keys (repeat_a 49) seq1))).
  - vm_compute. reflexivity.
  - vm_compute. discriminate.
  - vm_compute. reflexivity.
  - vm_compute. reflexivity.
  - lia.
Defined.

(** C1 as stated fails on a payload that is itself the text of a
    pointer buffer: stored as one slice, it is taken for a buffer on the
    way back; here an empty one, and [get] answers the empty text. *)
Lemma put_get_pointer_buffer_payload :
  exists a w' r,
    put (new_backend conf48) 8 (wrapPointers []) (world0 no_opts) = (Done a, w') /\
    get 9 (store w') a false = Done r /\
    v r = Some "" /\ v r <> Some (wrapPointers []).
Proof.
  do 3 eexists. split; [vm_compute; reflexivity|].
  split; [vm_compute; reflexivity|]. split; [reflexivity|]. vm_compute. discriminate.
Defined.

Lemma put_capacity_witness :
  (maxPointersPerBuffer (limited_backend conf48 9)
   <= Z.of_nat (length (sliceData (repeat_a 433)
                          (bufferSizelimit (conf (limited_backend conf48 9))))))%Z /\
  (maxSliceCount (limited_backend conf48 9)
   < Z.of_nat (length (sliceData (repeat_a 433)
                         (bufferSizelimit (conf (limited_backend conf48 9))))))%Z /\
  put (limited_backend conf48 9) 1 (repeat_a 433) (world0 no_opts)
  = (Failed "data too large: adjust maxIndirections", world0 no_opts).
Proof.
  apply (put_capacity (limited_backend conf48 9) 0 (repeat_a 433) (world0 no_opts)).
  - vm_compute. reflexivity.
  - vm_compute. discriminate.
  - vm_compute. reflexivity.
  - vm_compute. reflexivity.
Defined.

(** C2 as stated fails when no indirection is allowed: the payload is
    longer than [K^0 * bufferSizelimit], yet its two slices are fewer
    than [K], and [storeChunked] stores them before it looks at the
    slice limit: whatever limit the backend was constructed with, the
    tree is stored. *)
Lemma put_capacity_no_indirection :
  (maxPointersPerBuffer (limited_backend conf48_flat 1) ^ maxIndirections conf48_flat
   * bufferSizelimit conf48_flat < Z.of_nat (String.length (repeat_a 49)))%Z /\
  (maxSliceCount (limited_backend conf48_flat 1)
   < Z.of_nat (length (sliceData (repeat_a 49) (bufferSizelimit conf48_flat))))%Z /\
  forall limit : Z,
  exists a w',
    put (limited_backend conf48_flat limit) 8 (repeat_a 49) (world0 no_opts)
    = (Done a, w') /\
    length (calls w') = 3.
Proof.
  split; [vm_compute; reflexivity|]. split; [vm_compute; reflexivity|].
  intros limit. do 2 eexists. split; vm_compute; reflexivity.
Defined.

(** The same under the default buffer size: 1001 bytes, no indirection
    allowed, and a tree of depth one is stored. *)
Example put_capacity_no_indirection_defaults :
  maxPointersPerBuffer (limited_backend default_flat 1) = 22%Z /\
  forall limit : Z,
  exists a, fst (put (limited_backend default_flat limit) 8 (repeat_a 1001)
                   (world0 no_opts)) = Done a.
Proof.
  split; [reflexivity|]. intros limit. eexists. vm_compute. reflexivity.
Qed.

Lemma get_original_witness :
  exists n prev last,
    iter_step (store (snd (run conf48 (repeat_a 49) no_opts))) n
      (js_string (v (stored_root (run conf48 (repeat_a 49) no_opts)))) = Some prev /\
    step (store (snd (run conf48 (repeat_a 49) no_opts))) prev = Some last /\
    is_chunked last = false /\
    original (record_of (read_back (run conf48 (repeat_a 49) no_opts))) = Some prev /\
    v (record_of (read_back (run conf48 (repeat_a 49) no_opts))) = Some last /\
    (n = 0 ->
     original (record_of (read_back (run conf48 (repeat_a 49) no_opts)))
     = v (stored_root (run conf48 (repeat_a 49) no_opts))).
Proof.
  apply (get_original 9 (store (snd (run conf48 (repeat_a 49) no_opts)))
           (answer (run conf48 (repeat_a 49) no_opts))
           (stored_root (run conf48 (repeat_a 49) no_opts))
           (record_of (read_back (run conf48 (repeat_a 49) no_opts)))
           (js_string (v (stored_root (run conf48 (repeat_a 49) no_opts))))).
  - vm_compute. reflexivity.
  - vm_compute. reflexivity.
  - vm_compute. reflexivity.
  - vm_compute. reflexivity.
Defined.

(** C4 as stated fails at depth two: [handleChunked] sets [original]
    anew at every level, so the record returned carries the pointer
    buffer resolved last (the three leaf addresses), not the [v] of the
    root record (the addresses of the two pieces of that buffer). *)
Lemma get_original_two_levels :
  exists root r,
    store (snd (run conf48 (repeat_a 144) no_opts))
      !! answer (run conf48 (repeat_a 144) no_opts) = Some root /\
    read_back (run conf48 (repeat_a 144) no_opts) = Done r /\
    v r = Some (repeat_a 144) /\
    original r = Some (wrapPointers ["r48"; "r48"; "r48"]) /\
    original r <> v root.
Proof.
  do 2 eexists. split; [vm_compute; reflexivity|].
  split; [vm_compute; reflexivity|]. split; [reflexivity|]. split; [reflexivity|].
  vm_compute. discriminate.
Defined.

(** C5: with [seq = 0] [send] takes the mutable path, as claimed, but
    [getPayload] tests [!opts.seq] and hands over a record that carries
    neither [seq] nor the caller's salt, where for [seq = 1] it carries
    both.  And without keys the mutable path reports 'no keys set' only
    where the error is passed on: behind the sequential boxes the
    callback of [put] is not invoked at all. *)
Theorem send_seq_zero_record :
  calls (snd (run conf48_keys "furbie"
                {| o_seq := Some 0%Z; o_salt := Some "pineapple-salt" |}))
  = [CallPutMutable (set_v (Some "furbie") emptyRec)
       {| o_seq := Some 0%Z; o_salt := Some "pineapple-salt" |} (Some toy_keys)] /\
  calls (snd (run conf48_keys "furbie" (pineapple 1)))
  = [CallPutMutable
       (set_seq (Some 1%Z) (set_salt (Some "pineapple-salt") (set_v (Some "furbie") emptyRec)))
       (pineapple 1) (Some toy_keys)] /\
  fst (run conf48 "furbie" seq1) = Failed "no keys set" /\
  fst (run conf48 (repeat_a 144) seq1) <> Failed "no keys set".
Proof.
  split; [vm_compute; reflexivity|]. split; [vm_compute; reflexivity|].
  split; [vm_compute; reflexivity|]. vm_compute. discriminate.
Qed.

Lemma chunked_put_salts_witness :
  exists new,
    calls (snd (run conf48_keys (repeat_a 49) (pineapple 1)))
    = (calls (world0 (pineapple 1)) ++ new)%list /\
    ((forall s0, sliceData (repeat_a 49) (bufferSizelimit (conf (new_backend conf48_keys)))
                 <> [s0]) ->
     Forall (own_digest (draws (world0 (pineapple 1)))
                        (draws (snd (run conf48_keys (repeat_a 49) (pineapple 1)))))
            (removelast new) /\
     ((Z.of_nat (length (sliceData (repeat_a 49)
                           (bufferSizelimit (conf (new_backend conf48_keys)))))
       < maxPointersPerBuffer (new_backend conf48_keys))%Z ->
      Forall (own_digest (draws (world0 (pineapple 1)))
                         (draws (snd (run conf48_keys (repeat_a 49) (pineapple 1)))))
             new)) /\
    (forall s0, sliceData (repeat_a 49) (bufferSizelimit (conf (new_backend conf48_keys)))
                = [s0] ->
                length new <= 1 /\
                (truthy_str (o_salt (opts (world0 (pineapple 1)))) = true ->
                 Forall (fun c => salt (call_payload c) = o_salt (opts (world0 (pineapple 1))))
                        new) /\
                (truthy_str (o_salt (opts (world0 (pineapple 1)))) = false ->
                 Forall (own_digest (draws (world0 (pineapple 1)))
                                    (draws (snd (run conf48_keys (repeat_a 49)
                                                   (pineapple 1)))))
                        new)).
Proof.
  apply (chunked_put_salts (new_backend conf48_keys) 8 (repeat_a 49) (world0 (pineapple 1))
           (snd (run conf48_keys (repeat_a 49) (pineapple 1)))
           (fst (run conf48_keys (repeat_a 49) (pineapple 1)))).
  - vm_compute. discriminate.
  - vm_compute. discriminate.
  - vm_compute. reflexivity.
Defined.

(** C6 as stated fails: on a chunked write under a caller-chosen salt
    the root record is stored under a digest, and no record sent to the
    transport carries the caller's salt. *)
Lemma chunked_put_ignores_caller_salt :
  exists a root,
    fst (run conf48_keys (repeat_a 49) (pineapple 1)) = Done a /\
    store (snd (run conf48_keys (repeat_a 49) (pineapple 1))) !! a = Some root /\
    salt root <> Some "pineapple-salt" /\
    Forall (fun c => salt (call_payload c) <> Some "pineapple-salt")
           (calls (snd (run conf48_keys (repeat_a 49) (pineapple 1)))).
Proof.
  do 2 eexists. split; [vm_compute; reflexivity|].
  split; [vm_compute; reflexivity|].
  split; [vm_compute; discriminate|].
  vm_compute. repeat constructor; discriminate.
Defined.

Lemma immutable_put_addresses_witness :
  (repeat_a 49 = repeat_a 50 ->
   answer (run conf48 (repeat_a 49) no_opts)
   = answer (put (new_backend conf48) 8 (repeat_a 50)
               (snd (run conf48 (repeat_a 49) no_opts)))) /\
  (is_chunked (repeat_a 49) = false -> is_chunked (repeat_a 50) = false ->
   repeat_a 49 <> repeat_a 50 ->
   answer (run conf48 (repeat_a 49) no_opts)
   <> answer (put (new_backend conf48) 8 (repeat_a 50)
                (snd (run conf48 (repeat_a 49) no_opts)))).
Proof.
  apply (immutable_put_addresses (new_backend conf48) 8 8 (repeat_a 49) (repeat_a 50)
           (world0 no_opts) (snd (run conf48 (repeat_a 49) no_opts))
           (snd (run conf48 (repeat_a 49) no_opts))
           (snd (put (new_backend conf48) 8 (repeat_a 50)
                   (snd (run conf48 (repeat_a 49) no_opts))))).
  - vm_compute. reflexivity.
  - vm_compute. discriminate.
  - reflexivity.
  - vm_compute. reflexivity.
  - vm_compute. reflexivity.
  - vm_compute. reflexivity.
Defined.

(** C7 as stated fails, even on a transport whose address is an
    injective function of the content: the payload of 49 letters and the
    payload that is the text of its pointer buffer are different, and
    [put] answers the same address for both. *)
Lemma immutable_put_pointer_buffer_collision :
  repeat_a 49 <> wrapPointers ["r48"; "r1"] /\
  exists a,
    fst (run conf48 (repeat_a 49) no_opts) = Done a /\
    fst (run conf48 (wrapPointers ["r48"; "r1"]) no_opts) = Done a.
Proof.
  split; [vm_compute; discriminate|].
  eexists. split; vm_compute; reflexivity.
Defined.

(** The other half of C7 depends on the transport leaving the salt out
    of the address: two [put]s of one payload, each with its own options
    object, draw different salts, and a transport that hashes the salt
    along with the content answers two addresses. *)
Example immutable_put_salt_sensitive :
  exists a1 w1 a2 w2,
    put (Tr := salt_sensitive_transport) (new_backend conf48) 8 "furbie" (world0 no_opts)
    = (Done a1, w1) /\
    put (Tr := salt_sensitive_transport) (new_backend conf48) 8 "furbie"
      {| store := store w1; opts := no_opts; opts_keys := None;
         draws := draws w1; calls := calls w1 |}
    = (Done a2, w2) /\
    a1 <> a2.
Proof.
  do 4 eexists. split; [vm_compute; reflexivity|].
  split; [vm_compute; reflexivity|]. vm_compute. discriminate.
Qed.

(** The test of the repository: the same options object for all three
    [put]s, hence one salt; equal payloads, equal addresses. *)
Example stores_immutable_data :
  exists a1 w1 a2 w2 a3 w3,
    put (new_backend conf48) 8 "furbie" (world0 no_opts) = (Done a1, w1) /\
    put (new_backend conf48) 8 "furbie" w1 = (Done a2, w2) /\
    put (new_backend conf48) 8 "furbie-foo" w2 = (Done a3, w3) /\
    a1 = a2 /\ a2 <> a3.
Proof.
  do 6 eexists. split; [vm_compute; reflexivity|].
  split; [vm_compute; reflexivity|]. split; [vm_compute; reflexivity|].
  split; [reflexivity|vm_compute; discriminate].
Qed.

(** The sequence test of the repository on the chunking backend: a
    repeated [seq] under the same salt is refused by the transport, the
    next one is accepted and read back. *)
Example grenache_verifies_sequences :
  exists a1 w1 w2 a3 w3 r,
    put (new_backend conf48_keys) 8 "furbie" (world0 (pineapple 1)) = (Done a1, w1) /\
    put (new_backend conf48_keys) 8 "furbie" w1
    = (Failed "302 sequence number less than current", w2) /\
    put (new_backend conf48_keys) 8 "furbie-foo"
      {| store := store w2; opts := pineapple 2; opts_keys := opts_keys w2;
         draws := draws w2; calls := calls w2 |}
    = (Done a3, w3) /\
    get 9 (store w3) a3 false = Done r /\
    v r = Some "furbie-foo" /\ seq r = Some 2%Z /\ salt r = Some "pineapple-salt" /\
    k r = Some (toString_hex (publicKey toy_keys)).
Proof.
  do 6 eexists. split; [vm_compute; reflexivity|].
  split; [vm_compute; reflexivity|]. split; [vm_compute; reflexivity|].
  split; [vm_compute; reflexivity|]. repeat split.
Qed.

(** C8: a sub-store that fails on the sequential-boxes path (here for
    want of keys) ends [put] without its callback being invoked: the
    callback of [async.series] returns the error.  On the single-level
    path the same failure reaches the callback. *)
Theorem put_multilevel_error_dropped :
  fst (run conf48 (repeat_a 144) seq1) = NoCallback /\
  fst (run conf48 (repeat_a 49) seq1) = Failed "no keys set".
Proof. split; vm_compute; reflexivity. Qed.

End GrenacheFacts.


(** * Further properties *)

(** ** The in-memory backend over histories *)

Module MemoryHistoryFacts.

Import Memory Toy MemoryHistory Cases.

Lemma hex_digit_inj (m n : N) :
  (m < 16)%N -> (n < 16)%N -> hex_digit m = hex_digit n -> m = n.
Proof.
  intros Hm Hn.
  assert (Em : In m [0;1;2;3;4;5;6;7;8;9;10;11;12;13;14;15]%N).
  { simpl. lia. }
  assert (En : In n [0;1;2;3;4;5;6;7;8;9;10;11;12;13;14;15]%N).
  { simpl. lia. }
  simpl in Em, En.
  repeat (destruct Em as [<-|Em]; [repeat (destruct En as [<-|En]; [first [reflexivity|discriminate]|]); contradiction|]).
  contradiction.
Qed.

Lemma toString_hex_inj (s t : string) : toString_hex s = toString_hex t -> s = t.
Proof.
  revert t. induction s as [|c s IH]; intros [|d t] E; simpl in E; try discriminate.
  - reflexivity.
  - injection E as E1 E2 E3.
    assert (Hc : (N_of_ascii c < 256)%N) by apply N_ascii_bounded.
    assert (Hd : (N_of_ascii d < 256)%N) by apply N_ascii_bounded.
    apply hex_digit_inj in E1; [|apply N.Div0.div_lt_upper_bound; lia..].
    apply hex_digit_inj in E2; [|apply N.mod_lt; lia..].
    assert (N_of_ascii c = N_of_ascii d).
    { rewrite (N.div_mod (N_of_ascii c) 16), (N.div_mod (N_of_ascii d) 16) by lia.
      congruence. }
    f_equal; [|now apply IH].
    rewrite <- (ascii_N_embedding c), <- (ascii_N_embedding d). congruence.
Qed.

Lemma string_app_inv_head (a b c : string) : a +:+ b = a +:+ c -> b = c.
Proof.
  induction a as [|x a IH]; intros E.
  - now rewrite !GrenacheFacts.append_nil in E.
  - rewrite !GrenacheFacts.append_cons in E. injection E as E. auto.
Qed.

Lemma toString_hex_nonempty (s : string) : s <> "" -> toString_hex s <> "".
Proof. destruct s; [congruence|]. discriminate. Qed.

Lemma app_nonempty_r (a b : string) : b <> "" -> a +:+ b <> "".
Proof.
  intros Hb E. destruct a; [now rewrite GrenacheFacts.append_nil in E|].
  rewrite GrenacheFacts.append_cons in E. discriminate.
Qed.

Section Facts.
Context `{Prim : Primitives}.
Variable keys : Keys.

(** The address is the hexadecimal form of [k] followed by the salt. *)
Lemma address_payload (data : string) (opts : Opts) (n : nat) :
  exists s, salt (fst (getPayload keys data opts n)) = Some s /\
    (truthy_str (o_salt opts) = true -> o_salt opts = Some s) /\
    (truthy_str (o_salt opts) = false -> s = getSha data n) /\
    address (fst (getPayload keys data opts n))
    = toString_hex (toString_hex (publicKey keys) +:+ s).
Proof.
  unfold getPayload, address.
  destruct (truthy_str (o_salt opts)) eqn:T; simpl.
  - apply truthy_str_Some in T. destruct T as (s & -> & _).
    exists s. repeat split; auto; try discriminate.
    simpl. now rewrite GrenacheFacts.string_app_nil_r.
  - eexists. repeat split; auto; try discriminate.
    simpl. now rewrite GrenacheFacts.string_app_nil_r.
Qed.

(** What one [put] does to the store. *)
Lemma put_store (data : string) (opts : Opts) (st : State) :
  exists out st',
    put keys data opts st = (out, st') /\
    ((exists a payload,
        out = Done a /\
        store st' = <[a := payload]> (store st) /\
        payload = fst (getPayload keys data opts (draws st)) /\
        a = address payload /\
        (store st !! a = None \/
         exists old s, store st !! a = Some old /\ seq old = Some s /\
                       seq payload = Some (js_succ s))) \/
     (exists msg, out = Failed msg /\ store st' = store st)).
Proof.
  destruct (String.eqb_spec data "") as [->|Hne].
  { do 2 eexists. split; [reflexivity|]. right. eexists. split; reflexivity. }
  pose proof (MemoryFacts.put_cases keys data opts st Hne) as Hc.
  cbv zeta in Hc.
  destruct Hc as [[L E]|[(old & L & C & E)|(old & L & C & E)]]; rewrite E;
    do 2 eexists; (split; [reflexivity|]).
  - left. do 2 eexists. split; [reflexivity|]. split; [reflexivity|].
    split; [reflexivity|]. split; [reflexivity|]. left. exact L.
  - left. apply MemoryFacts.seq_conflict_false in C. destruct C as (s & Hs & Hp).
    do 2 eexists. split; [reflexivity|]. split; [reflexivity|].
    split; [reflexivity|]. split; [reflexivity|]. right. eauto.
  - right. eexists. split; reflexivity.
Qed.

Lemma put_store_inv (data : string) (opts : Opts) (st st' : State) (out : outcome string) :
  put keys data opts st = (out, st') ->
  (exists a payload,
      out = Done a /\
      store st' = <[a := payload]> (store st) /\
      payload = fst (getPayload keys data opts (draws st)) /\
      a = address payload /\
      (store st !! a = None \/
       exists old s, store st !! a = Some old /\ seq old = Some s /\
                     seq payload = Some (js_succ s))) \/
  (exists msg, out = Failed msg /\ store st' = store st).
Proof.
  intros E. destruct (put_store data opts st) as (out0 & st0 & E0 & H).
  rewrite E in E0. injection E0 as <- <-. exact H.
Qed.

Lemma put_elsewhere (data : string) (opts : Opts) (st st' : State)
    (out : outcome string) (b : string) :
  put keys data opts st = (out, st') -> out <> Done b ->
  store st' !! b = store st !! b.
Proof.
  intros E Hb. apply put_store_inv in E.
  destruct E as [(a & payload & -> & -> & _)|(msg & _ & ->)]; [|reflexivity].
  apply lookup_insert_ne. congruence.
Qed.

Lemma puts_cons (data : string) (opts : Opts) (rest : list (string * Opts)) (st : State) :
  puts keys ((data, opts) :: rest) st
  = (fst (put keys data opts st) :: fst (puts keys rest (snd (put keys data opts st))),
     snd (puts keys rest (snd (put keys data opts st)))).
Proof.
  simpl. destruct (put keys data opts st) as [out st1]. simpl.
  now destruct (puts keys rest st1).
Qed.

(** Which addresses a history leaves occupied. *)
Lemma puts_domain (ops : list (string * Opts)) (st : State) (b : string) :
  is_Some (store (snd (puts keys ops st)) !! b) <->
  is_Some (store st !! b) \/ In (Done b) (fst (puts keys ops st)).
Proof.
  revert st. induction ops as [|[data opts] rest IH]; intros st.
  - simpl. tauto.
  - rewrite puts_cons. simpl fst. simpl snd.
    destruct (put_store data opts st) as (out & st1 & E & H). rewrite E. simpl.
    rewrite IH.
    destruct H as [(a & payload & -> & Est & _)|(msg & -> & Est)]; rewrite Est.
    + destruct (String.eqb_spec a b) as [->|Hne].
      * rewrite lookup_insert_eq. split; [auto|]. intros _. left. eauto.
      * rewrite lookup_insert_ne by exact Hne.
        split; [tauto|]. intros [?|[[=]|?]]; tauto.
    + split; [tauto|]. intros [?|[[=]|?]]; tauto.
Qed.

(** Every record of the store carries data. *)
Definition all_data (st : State) : Prop :=
  forall a r, store st !! a = Some r -> exists d, v r = Some d.

Lemma puts_all_data (ops : list (string * Opts)) :
  forall st, all_data st -> all_data (snd (puts keys ops st)).
Proof.
  induction ops as [|[data opts] rest IH]; intros st Hst; [exact Hst|].
  rewrite puts_cons. simpl snd. apply IH.
  destruct (put_store data opts st) as (out & st1 & E & H). rewrite E. simpl.
  intros a r. destruct H as [(a' & payload & _ & Est & Ep & _)|(msg & _ & Est)]; rewrite Est.
  - destruct (String.eqb_spec a' a) as [->|Hne].
    + rewrite lookup_insert_eq. intros [= <-]. subst payload.
      exists data. unfold getPayload. now destruct (truthy_str (o_salt opts)).
    + rewrite lookup_insert_ne by exact Hne. apply Hst.
  - apply Hst.
Qed.

End Facts.

(** X1: a successful [put] followed by [get] at the answered address
    hands back the record just stored - the data, the caller's [seq],
    the hexadecimal public key, the caller's salt when one was given -
    marked with the id of the backend. *)
Theorem memory_put_then_get `{Prim : Primitives} `{!Grenache.PrimitivesLaws}
    (keys : Keys) (data : string) (opts : Opts) (st st' : State) (a : string) :
  put keys data opts st = (Done a, st') ->
  exists r,
    get a st' = Done r /\
    v r = Some data /\ seq r = o_seq opts /\
    k r = Some (toString_hex (publicKey keys)) /\
    id r = Some "memory" /\
    (truthy_str (o_salt opts) = true -> salt r = o_salt opts).
Proof.
  intros E. apply put_store_inv in E.
  destruct E as [(a' & payload & Ea & Est & Ep & Eaddr & _)|(msg & Ea & _)];
    [|discriminate].
  injection Ea as <-.
  assert (Hne : a <> "").
  { rewrite Eaddr, Ep.
    destruct (address_payload keys data opts (draws st)) as (s & Hs & Ht & Hf & ->).
    apply toString_hex_nonempty, app_nonempty_r.
    destruct (truthy_str (o_salt opts)) eqn:T.
    - specialize (Ht eq_refl). rewrite Ht in T. simpl in T.
      intros ->. discriminate.
    - rewrite (Hf eq_refl). apply Grenache.sha1_hex_nonempty. }
  exists (set_id (Some "memory") payload).
  unfold get. destruct (String.eqb_spec a "") as [?|_]; [contradiction|].
  rewrite Est, lookup_insert_eq. split; [reflexivity|].
  subst payload. simpl.
  rewrite MemoryFacts.memory_payload_k, MemoryFacts.memory_payload_seq.
  repeat split; auto.
  - unfold getPayload. now destruct (truthy_str (o_salt opts)).
  - apply MemoryFacts.memory_payload_salt_given.
Qed.

(** X2: a [put] touches no address but the one it answers: whatever the
    outcome, every other address holds what it held before. *)
Theorem memory_put_elsewhere `{Prim : Primitives}
    (keys : Keys) (data : string) (opts : Opts) (st st' : State)
    (out : outcome string) (b : string) :
  put keys data opts st = (out, st') -> out <> Done b ->
  store st' !! b = store st !! b.
Proof.
  intros E Hb. apply put_store_inv in E.
  destruct E as [(a & payload & -> & -> & _)|(msg & _ & ->)]; [|reflexivity].
  apply lookup_insert_ne. congruence.
Qed.

(** X3: over any history of [put] calls, an address that held a record
    with a [seq] still holds one, and its [seq] is the old one after as
    many additions of one as there were calls answered with that
    address; as long as the numbers stay within 2^53 that is the old
    [seq] plus the number of those calls. *)
Theorem memory_history_seq `{Prim : Primitives}
    (keys : Keys) (ops : list (string * Opts)) (st : State) (a : string)
    (old : Rec) (s : Z) :
  store st !! a = Some old -> seq old = Some s ->
  exists r,
    store (snd (puts keys ops st)) !! a = Some r /\
    seq r = Some (Nat.iter (answered a (fst (puts keys ops st))) js_succ s) /\
    ((- 2 ^ 53 < s)%Z ->
     (s + Z.of_nat (answered a (fst (puts keys ops st))) <= 2 ^ 53)%Z ->
     seq r = Some (s + Z.of_nat (answered a (fst (puts keys ops st))))%Z).
Proof.
  intros L Hso.
  assert (Hiter : forall cnt x, (- 2 ^ 53 < x)%Z -> (x + Z.of_nat cnt <= 2 ^ 53)%Z ->
                    Nat.iter cnt js_succ x = (x + Z.of_nat cnt)%Z).
  { induction cnt as [|cnt IHc]; intros x Hlo Hhi; simpl Nat.iter; [lia|].
    rewrite IHc by lia. rewrite js_succ_exact by lia. lia. }
  assert (Hmain : exists r,
    store (snd (puts keys ops st)) !! a = Some r /\
    seq r = Some (Nat.iter (answered a (fst (puts keys ops st))) js_succ s)).
  { revert st old s L Hso. clear Hiter.
    induction ops as [|[data opts] rest IH]; intros st old s L Hso.
    - simpl. exists old. split; [exact L|exact Hso].
    - rewrite puts_cons. simpl fst. simpl snd.
      destruct (put_store keys data opts st) as (out & st1 & E & H). rewrite E. simpl.
      destruct H as [(a' & payload & -> & Est & _ & _ & Hocc)|(msg & -> & Est)].
      + destruct (String.eqb_spec a a') as [<-|Hne].
        * destruct Hocc as [Hnone|(old' & s' & L' & S' & Sp)]; [congruence|].
          assert (old' = old) by congruence. subst old'.
          assert (s' = s) by congruence. subst s'.
          destruct (IH st1 payload (js_succ s)) as (r & Lr & Sr).
          { rewrite Est. apply lookup_insert_eq. }
          { exact Sp. }
          exists r. split; [exact Lr|]. rewrite Sr. f_equal.
          change (1 + answered a (fst (puts keys rest st1)))
            with (S (answered a (fst (puts keys rest st1)))).
          symmetry. apply Nat.iter_succ_r.
        * destruct (IH st1 old s) as (r & Lr & Sr).
          { rewrite Est. rewrite lookup_insert_ne by congruence. exact L. }
          { exact Hso. }
          exists r. split; [exact Lr|exact Sr].
      + destruct (IH st1 old s) as (r & Lr & Sr); [now rewrite Est|exact Hso|].
        exists r. split; [exact Lr|exact Sr]. }
  destruct Hmain as (r & Lr & Sr). exists r. split; [exact Lr|]. split; [exact Sr|].
  intros Hlo Hhi. rewrite Sr. f_equal. apply Hiter; assumption.
Qed.

(** X4: a record stored without a [seq] stays for good: over any
    history of [put] calls its address keeps the record and is never
    answered again. *)
Theorem memory_history_frozen `{Prim : Primitives}
    (keys : Keys) (ops : list (string * Opts)) (st : State) (a : string) (old : Rec) :
  store st !! a = Some old -> seq old = None ->
  store (snd (puts keys ops st)) !! a = Some old /\
  Forall (fun out => out <> Done a) (fst (puts keys ops st)).
Proof.
  revert st. induction ops as [|[data opts] rest IH]; intros st L S.
  - simpl. split; [exact L|constructor].
  - rewrite puts_cons. simpl fst. simpl snd.
    destruct (put_store keys data opts st) as (out & st1 & E & H). rewrite E. simpl.
    assert (Hout : out <> Done a).
    { destruct H as [(a' & payload & -> & _ & _ & _ & Hocc)|(msg & -> & _)];
        [|discriminate].
      intros [= <-]. destruct Hocc as [Hnone|(old' & s' & L' & S' & _)]; congruence. }
    assert (L1 : store st1 !! a = Some old).
    { rewrite (put_elsewhere keys data opts st st1 out a E Hout). exact L. }
    destruct (IH st1 L1 S) as [Lr F]. split; [exact Lr|]. constructor; assumption.
Qed.

(** X5: the store never loses an address, and gains exactly the
    addresses answered: after any history an address is occupied if and
    only if it was occupied before or some call answered it. *)
Theorem memory_history_domain `{Prim : Primitives}
    (keys : Keys) (ops : list (string * Opts)) (st : State) (b : string) :
  is_Some (store (snd (puts keys ops st)) !! b) <->
  is_Some (store st !! b) \/ In (Done b) (fst (puts keys ops st)).
Proof.
  exact (puts_domain keys ops st b).
Qed.

(** X6: records put under different caller-chosen salts live at
    different addresses: a [put] under one salt neither is answered with
    the address of a record stored under another salt nor changes what
    that address holds. *)
Theorem memory_salts_independent `{Prim : Primitives}
    (keys : Keys) (d1 d2 : string) (o1 o2 : Opts) (st st1 st2 : State)
    (a1 : string) (out : outcome string) :
  truthy_str (o_salt o1) = true -> truthy_str (o_salt o2) = true ->
  o_salt o1 <> o_salt o2 ->
  put keys d1 o1 st = (Done a1, st1) ->
  put keys d2 o2 st1 = (out, st2) ->
  out <> Done a1 /\ store st2 !! a1 = store st1 !! a1.
Proof.
  intros T1 T2 Hne E1 E2.
  assert (Hout : out <> Done a1).
  { apply put_store_inv in E1.
    destruct E1 as [(a & p1 & [= <-] & _ & -> & Ea1 & _)|(msg & [=] & _)].
    apply put_store_inv in E2.
    destruct E2 as [(a2 & p2 & -> & _ & -> & Ea2 & _)|(msg & -> & _)]; [|discriminate].
    intros [= ->]. apply Hne.
    rewrite Ea1 in Ea2.
    rewrite !MemoryFacts.address_given in Ea2 by assumption.
    apply string_app_inv_head, toString_hex_inj in Ea2.
    apply truthy_str_Some in T1, T2.
    destruct T1 as (s1 & H1 & _), T2 as (s2 & H2 & _).
    rewrite H1, H2 in Ea2 |- *. simpl in Ea2. congruence. }
  split; [exact Hout|].
  exact (put_elsewhere keys d2 o2 st1 st2 out a1 E2 Hout).
Qed.

(** X7: what [get] answers on a backend that started empty, after any
    history of [put] calls: an error for the empty key; for a key that
    some call answered, a record with data, marked 'memory'; for every
    other key the bare mark, without data. *)
Theorem memory_get_after_history `{Prim : Primitives}
    (keys : Keys) (ops : list (string * Opts)) (n : nat) (b : string) :
  let r := puts keys ops {| store := ∅; draws := n |} in
  (b = "" -> get b (snd r) = Failed "no key provided") /\
  (b <> "" -> In (Done b) (fst r) ->
   exists rec data, get b (snd r) = Done rec /\ v rec = Some data /\
                    id rec = Some "memory") /\
  (b <> "" -> ~ In (Done b) (fst r) ->
   get b (snd r) = Done (set_id (Some "memory") emptyRec)).
Proof.
  cbv zeta. set (st0 := {| store := ∅; draws := n |}).
  pose proof (puts_domain keys ops st0 b) as Hdom.
  assert (Hdata : all_data (snd (puts keys ops st0))).
  { apply puts_all_data. intros a r L. simpl in L. now rewrite lookup_empty in L. }
  split; [intros ->; reflexivity|]. split.
  - intros Hne Hin. unfold get. destruct (String.eqb_spec b "") as [?|_]; [contradiction|].
    destruct (proj2 Hdom (or_intror Hin)) as (rec & L). rewrite L.
    destruct (Hdata b rec L) as (d & Hd).
    exists (set_id (Some "memory") rec), d. auto.
  - intros Hne Hnin. unfold get. destruct (String.eqb_spec b "") as [?|_]; [contradiction|].
    destruct (store (snd (puts keys ops st0)) !! b) as [rec|] eqn:L; [|reflexivity].
    exfalso. destruct (proj1 Hdom (ex_intro _ rec eq_refl)) as [(x & Hx)|Hin]; [|tauto].
    simpl in Hx. now rewrite lookup_empty in Hx.
Qed.

(** *** The theorems at work on the scenario of the tests *)

Lemma memory_put_then_get_witness :
  exists r,
    get furbie_address memory_furbie = Done r /\
    v r = Some "furbie" /\ seq r = o_seq (pineapple 1) /\
    k r = Some (toString_hex (publicKey toy_keys)) /\
    id r = Some "memory" /\
    (truthy_str (o_salt (pineapple 1)) = true -> salt r = o_salt (pineapple 1)).
Proof.
  apply (@memory_put_then_get toy_primitives GrenacheFacts.toy_primitives_laws
           toy_keys "furbie" (pineapple 1) memory0 memory_furbie furbie_address).
  vm_compute. reflexivity.
Defined.

Lemma memory_put_elsewhere_witness :
  store (snd (put toy_keys "furbie" other_salt memory_furbie)) !! furbie_address
  = store memory_furbie !! furbie_address.
Proof.
  apply (memory_put_elsewhere toy_keys "furbie" other_salt memory_furbie
           (snd (put toy_keys "furbie" other_salt memory_furbie))
           (fst (put toy_keys "furbie" other_salt memory_furbie)) furbie_address).
  - vm_compute. reflexivity.
  - vm_compute. discriminate.
Defined.

Lemma memory_history_seq_witness :
  exists r,
    store (snd (puts toy_keys furbie_history memory_furbie)) !! furbie_address = Some r /\
    seq r = Some 3%Z.
Proof.
  destruct (memory_history_seq toy_keys furbie_history memory_furbie furbie_address
              (fst (getPayload toy_keys "furbie" (pineapple 1) 0)) 1)
    as (r & Lr & _ & Sr).
  - vm_compute. reflexivity.
  - vm_compute. reflexivity.
  - exists r. split; [exact Lr|].
    rewrite Sr; [vm_compute; reflexivity|vm_compute; reflexivity|vm_compute; discriminate].
Defined.

Lemma memory_history_frozen_witness :
  store (snd (puts toy_keys furbie_history memory_unsequenced)) !! furbie_address
  = Some (fst (getPayload toy_keys "furbie" unsequenced 0)) /\
  Forall (fun out => out <> Done furbie_address)
         (fst (puts toy_keys furbie_history memory_unsequenced)).
Proof.
  apply (memory_history_frozen toy_keys furbie_history memory_unsequenced furbie_address
           (fst (getPayload toy_keys "furbie" unsequenced 0))).
  - vm_compute. reflexivity.
  - vm_compute. reflexivity.
Defined.

Lemma memory_salts_independent_witness :
  fst (put toy_keys "furbie" other_salt memory_furbie) <> Done furbie_address /\
  store (snd (put toy_keys "furbie" other_salt memory_furbie)) !! furbie_address
  = store memory_furbie !! furbie_address.
Proof.
  apply (memory_salts_independent toy_keys "furbie" "furbie" (pineapple 1) other_salt
           memory0 memory_furbie (snd (put toy_keys "furbie" other_salt memory_furbie))
           furbie_address (fst (put toy_keys "furbie" other_salt memory_furbie))).
  - vm_compute. reflexivity.
  - vm_compute. reflexivity.
  - vm_compute. discriminate.
  - vm_compute. reflexivity.
  - vm_compute. reflexivity.
Defined.

Lemma memory_get_after_history_witness :
  get "" (snd (puts toy_keys furbie_history memory0)) = Failed "no key provided" /\
  get "unknown" (snd (puts toy_keys furbie_history memory0))
  = Done (set_id (Some "memory") emptyRec).
Proof.
  destruct (memory_get_after_history toy_keys furbie_history 0 "") as (H1 & _).
  destruct (memory_get_after_history toy_keys furbie_history 0 "unknown") as (_ & _ & H3).
  split.
  - apply H1. reflexivity.
  - apply H3; [discriminate|]. vm_compute.
    intros [E|[E|[E|[]]]]; discriminate.
Defined.

End MemoryHistoryFacts.


(** ** The chunking backend: reading, keys, and the calls of a write *)

Module GrenacheMore.

Import Grenache Toy GrenacheFacts GrenacheTrace Cases.

(** *** Reading: chains that do not end, and pointers that are no address *)

Section ReadingMore.
Context `{Json : JSON} `{Tr : Transport}.

Lemma iter_step_add (st : gmap string Rec) (a b : nat) (x : string) :
  iter_step st (a + b) x =
  match iter_step st a x with
  | Some y => iter_step st b y
  | None => None
  end.
Proof.
  revert x. induction a as [|a IH]; intros x; simpl; [reflexivity|].
  destruct (step st x); [apply IH|reflexivity].
Qed.

(** On a cycle every number of steps can be taken. *)
Lemma cycle_unbounded (st : gmap string Rec) (n : nat) (text : string) :
  iter_step st (S n) text = Some text ->
  forall m, exists t, iter_step st m text = Some t.
Proof.
  intros Hc m. induction m as [m IH] using lt_wf_ind.
  destruct (Nat.le_gt_cases m (S n)) as [Hle|Hgt].
  - replace (S n) with (m + (S n - m)) in Hc by lia.
    rewrite iter_step_add in Hc.
    destruct (iter_step st m text) as [t|]; [eauto|discriminate].
  - replace m with (S n + (m - S n)) by lia.
    rewrite iter_step_add, Hc. apply IH. lia.
Qed.

Lemma maybeRetrieveChunked_unbounded (st : gmap string Rec) (fuel : nat) :
  forall (r : Rec) (text : string),
    v r = Some text ->
    (forall m, exists t, iter_step st m text = Some t) ->
    maybeRetrieveChunked fuel st r = OutOfFuel.
Proof.
  induction fuel as [|fuel IH]; intros r text Hv Hall; [reflexivity|].
  destruct (step st text) as [text'|] eqn:Hs.
  - rewrite (maybeRetrieveChunked_node _ _ _ _ _ Hv Hs).
    apply (IH _ text'); [reflexivity|].
    intros m. destruct (Hall (S m)) as (t & Ht). simpl in Ht. rewrite Hs in Ht. eauto.
  - destruct (Hall 1) as (t & Ht). simpl in Ht. rewrite Hs in Ht. discriminate.
Qed.

Lemma get_pointer_string (st : gmap string Rec) (p : string) :
  (p = "" /\ get_pointer st (JStr p) = Failed "no key provided") \/
  (p <> "" /\ exists r, get_pointer st (JStr p) = Done r).
Proof.
  unfold get_pointer, transport_get. simpl.
  destruct (String.eqb_spec p "") as [->|Hne]; [left; auto|right].
  split; [exact Hne|]. destruct (st !! p); eauto.
Qed.

Lemma collect_empty_pointer (st : gmap string Rec) (ps : list string) :
  In "" ps -> collect st (List.map JStr ps) = Failed "no key provided".
Proof.
  unfold collect, getRetrieveTasks. induction ps as [|p ps IH]; intros Hin; [destruct Hin|].
  cbn [List.map all_done].
  destruct (get_pointer_string st p) as [[-> ->]|[Hne (r & ->)]]; [reflexivity|].
  destruct Hin as [->|Hin]; [congruence|]. now rewrite (IH Hin).
Qed.

End ReadingMore.

(** X8: a chain of pointer buffers that leads back to its start is
    followed for ever: on a record whose text, after one or more rounds
    of reassembly, is that same text again, [get] answers under no
    recursion budget. *)
Theorem get_cycle_never_answers `{Json : JSON} `{Tr : Transport}
    (st : gmap string Rec) (key : string) (root : Rec) (text : string) (n : nat) :
  key <> "" -> st !! key = Some root -> v root = Some text ->
  iter_step st (S n) text = Some text ->
  forall fuel, get fuel st key false = OutOfFuel.
Proof.
  intros Hne Hk Hv Hc fuel. unfold get.
  destruct (String.eqb_spec key "") as [?|_]; [contradiction|].
  unfold transport_get. rewrite Hk.
  apply (maybeRetrieveChunked_unbounded st fuel _ text); [exact Hv|].
  exact (cycle_unbounded st n text Hc).
Qed.

(** X9: a pointer buffer that lists the empty string among its pointers
    cannot be read: [get] on a record holding it fails with 'no key
    provided', whatever the other pointers are. *)
Theorem get_empty_pointer `{Json : JSON} `{Tr : Transport} `{!JSONLaws}
    (fuel : nat) (st : gmap string Rec) (key : string) (root : Rec) (ps : list string) :
  key <> "" -> st !! key = Some root -> v root = Some (wrapPointers ps) ->
  In "" ps ->
  get (S fuel) st key false = Failed "no key provided".
Proof.
  intros Hne Hk Hv Hin. unfold get.
  destruct (String.eqb_spec key "") as [?|_]; [contradiction|].
  unfold transport_get. rewrite Hk.
  cbn [maybeRetrieveChunked]. cbn [v set_id]. rewrite Hv.
  rewrite JSON_parse_wrapPointers, isResultChunked_pointers_object.
  unfold handleChunked. cbn [property pointers_object assoc String.eqb Ascii.eqb Bool.eqb].
  simpl. now rewrite (collect_empty_pointer st ps Hin).
Qed.

(** *** Writing without keys *)

Section NoKeys.
Context `{Prim : Primitives} `{Json : JSON} `{Tr : Transport}.
Variable bk : Backend.
Hypothesis Hk : keys (conf bk) = None.

(** Nothing was sent and nothing stored between [w] and [w']. *)
Definition untouched (w w' : World) : Prop :=
  calls w' = calls w /\ store w' = store w /\ o_seq (opts w') = o_seq (opts w).

Lemma untouched_trans (w1 w2 w3 : World) :
  untouched w1 w2 -> untouched w2 w3 -> untouched w1 w3.
Proof. intros (A1 & B1 & C1) (A2 & B2 & C2). repeat split; congruence. Qed.

Lemma send_untouched (data : string) (w : World) (s : Z) :
  o_seq (opts w) = Some s ->
  send bk data w = (Failed "no keys set", w).
Proof. intros Hq. exact (send_no_keys bk data w s Hq Hk). Qed.

Lemma task_untouched (x chunk : string) (w : World) (s : Z) :
  o_seq (opts w) = Some s ->
  exists w',
    (sha <- getSha x ;; _ <- set_opts_salt sha ;; send bk chunk) w
    = (Failed "no keys set", w') /\ untouched w w'.
Proof.
  intros Hq. unfold bind at 1. unfold getSha. unfold bind at 1. unfold set_opts_salt.
  rewrite (send_untouched chunk _ s); [|exact Hq].
  eexists. split; [reflexivity|]. repeat split.
Qed.

Lemma storeParallel_untouched (slices : list string) (w : World) (s : Z) :
  o_seq (opts w) = Some s -> slices <> [] ->
  exists w',
    storeParallel bk slices w = (Failed "no keys set", w') /\ untouched w w'.
Proof.
  intros Hq Hne. unfold storeParallel, taskParallel, getStoreTasks.
  destruct slices as [|s0 rest]; [congruence|]. cbn [List.map mapM].
  unfold bind at 1. destruct (task_untouched s0 s0 w s Hq) as (w' & -> & Hu).
  exists w'. auto.
Qed.

Lemma put_untouched (fuel : nat) (data : string) (w : World) (s : Z) :
  o_seq (opts w) = Some s -> (1 <= maxPointersPerBuffer bk)%Z ->
  exists out w',
    put bk (S fuel) data w = (out, w') /\ untouched w w' /\
    (out = Failed "no keys set" \/
     out = Failed "data too large: adjust maxIndirections" \/
     out = NoCallback).
Proof.
  intros Hq HK. rewrite put_unfold.
  pose proof (sliceData_nonempty data (bufferSizelimit (conf bk))) as Hne.
  destruct (sliceData data (bufferSizelimit (conf bk))) as [|s0 [|s1 rest]];
    [congruence| |].
  - unfold bind at 1. destruct (truthy_str (o_salt (opts w))).
    + unfold ret. rewrite (send_untouched s0 w s Hq).
      exists (Failed "no keys set"), w. split; [reflexivity|].
      split; [repeat split|auto].
    + destruct (task_untouched s0 s0 w s Hq) as (w' & E & Hu).
      exists (Failed "no keys set"), w'. split; [|split; [exact Hu|auto]].
      revert E. unfold bind, getSha, set_opts_salt. simpl. auto.
  - unfold storeChunked.
    destruct (Z.of_nat (length (s0 :: s1 :: rest)) <? maxPointersPerBuffer bk)%Z.
    + unfold bind at 1.
      destruct (storeParallel_untouched (s0 :: s1 :: rest) w s Hq) as (w1 & -> & Hu);
        [discriminate|].
      exists (Failed "no keys set"), w1. auto.
    + destruct (Z.of_nat (length (s0 :: s1 :: rest)) >? maxSliceCount bk)%Z.
      * exists (Failed "data too large: adjust maxIndirections"), w.
        split; [reflexivity|]. split; [repeat split|auto].
      * unfold storeUntilPointersFit, prepareMultiLevelData.
        destruct (Z.to_nat (maxPointersPerBuffer bk)) as [|k'] eqn:Ek; [lia|].
        cbn [length boxes_go take]. cbn [mapM]. unfold bind at 1.
        destruct (storeParallel_untouched (s0 :: take k' (s1 :: rest)) w s Hq)
          as (w1 & -> & Hu); [discriminate|].
        exists NoCallback, w1. auto.
Qed.

End NoKeys.

(** X10: a backend without keys asked for a mutable write (a [seq] in
    the options, 0 included) sends nothing to the transport and stores
    nothing.  Its callback receives 'no keys set' or the capacity
    error, or - on the path of the sequential boxes - is not invoked at
    all; it never receives an address. *)
Theorem put_without_keys `{Prim : Primitives} `{Json : JSON} `{Tr : Transport}
    (bk : Backend) (fuel : nat) (data : string) (w : World) (s : Z) :
  keys (conf bk) = None -> o_seq (opts w) = Some s ->
  (1 <= maxPointersPerBuffer bk)%Z ->
  exists out w',
    put bk (S fuel) data w = (out, w') /\
    calls w' = calls w /\ store w' = store w /\
    (out = Failed "no keys set" \/
     out = Failed "data too large: adjust maxIndirections" \/
     out = NoCallback).
Proof.
  intros Hk Hq HK.
  destruct (put_untouched bk Hk fuel data w s Hq HK) as (out & w' & E & (Hc & Hs & _) & Ho).
  exists out, w'. auto.
Qed.

(** *** The transport calls of a single-level immutable write *)

Section TraceFacts.
Context `{Prim : Primitives} `{Json : JSON} `{Tr : Transport}.
Context `{!PrimitivesLaws}.
Variable bk : Backend.

Lemma sha_of_truthy (x : string) (i : nat) : truthy_str (Some (sha_of x i)) = true.
Proof.
  simpl. destruct (String.eqb_spec (sha_of x i) ""); [|reflexivity].
  exfalso. eapply sha1_hex_nonempty; eauto.
Qed.

(** One store task on the immutable path: the transport is called once,
    with the fragment under the digest drawn for it, whatever it
    answers. *)
Lemma task_immutable_trace (x chunk : string) (w : World) :
  o_seq (opts w) = None ->
  let r := set_salt (Some (sha_of x (draws w))) (set_v (Some chunk) emptyRec) in
  (sha <- getSha x ;; _ <- set_opts_salt sha ;; send bk chunk) w
  = match immutable_error (length (calls w)) r with
    | Some e =>
        (Failed e,
         {| store := store w;
            opts := {| o_seq := None; o_salt := Some (sha_of x (draws w)) |};
            opts_keys := opts_keys w; draws := S (draws w);
            calls := (calls w ++ [CallPut r])%list |})
    | None =>
        (Done (immutable_address r),
         {| store := <[immutable_address r := r]> (store w);
            opts := {| o_seq := None; o_salt := Some (sha_of x (draws w)) |};
            opts_keys := opts_keys w; draws := S (draws w);
            calls := (calls w ++ [CallPut r])%list |})
    end.
Proof.
  intros Hq r. unfold bind at 1. unfold getSha. unfold bind at 1. unfold set_opts_salt.
  rewrite send_immutable by exact Hq.
  unfold sendImmutable. cbn [opts o_salt]. rewrite sha_of_truthy.
  unfold transport_put. cbn [store opts opts_keys draws calls o_seq o_salt].
  rewrite Hq. fold r. destruct (immutable_error _ r); reflexivity.
Qed.

(** The fragments of one buffer, when every one of them is answered. *)
Lemma storeParallel_trace (slices : list string) :
  forall (w w' : World) (ps : list string),
    o_seq (opts w) = None ->
    storeParallel bk slices w = (Done ps, w') ->
    ps = List.map immutable_address (leaf_records slices (draws w)) /\
    calls w' = (calls w ++ List.map CallPut (leaf_records slices (draws w)))%list /\
    draws w' = draws w + length slices /\
    o_seq (opts w') = None /\ opts_keys w' = opts_keys w.
Proof.
  unfold storeParallel, taskParallel, getStoreTasks.
  induction slices as [|s0 rest IH]; intros w w' ps Hq E;
    cbn [List.map mapM leaf_records] in E |- *.
  - inversion E; subst. rewrite app_nil_r. simpl. repeat split; auto; lia.
  - apply bind_done in E. destruct E as (a & w1 & E1 & E2).
    apply bind_done in E2. destruct E2 as (ys & w2 & E2 & E3).
    inversion E3; subst. clear E3.
    rewrite (task_immutable_trace s0 s0 w Hq) in E1. cbv zeta in E1.
    destruct (immutable_error _ _); [discriminate|].
    inversion E1; subst. clear E1.
    apply IH in E2; [|reflexivity].
    cbn [calls draws opts_keys] in E2. destruct E2 as (-> & Hc & Hd & Hq' & Hk').
    rewrite Hc, Hd, <- app_assoc. cbn [length]. repeat split; auto; lia.
Qed.

(** A transport that refuses no record answers every fragment. *)
Lemma storeParallel_answers (slices : list string) :
  (forall (i : nat) (r : Rec), immutable_error i r = None) ->
  forall w : World,
    o_seq (opts w) = None ->
    exists ps w', storeParallel bk slices w = (Done ps, w').
Proof.
  intros Hok. unfold storeParallel, taskParallel, getStoreTasks.
  induction slices as [|s0 rest IH]; intros w Hq; cbn [List.map mapM].
  - eexists _, _. reflexivity.
  - unfold bind at 1. rewrite (task_immutable_trace s0 s0 w Hq). cbv zeta.
    rewrite Hok.
    match goal with
    | |- exists _ _, bind _ _ ?w1 = _ =>
        destruct (IH w1 eq_refl) as (ps & w' & E)
    end.
    unfold bind at 1. rewrite E. unfold ret. eexists _, _. reflexivity.
Qed.

End TraceFacts.

(** X11: a payload of two or more fragments, fewer than fit one pointer
    buffer, written without a [seq].  Whenever [put] answers an address,
    the transport has received the fragments in payload order, each
    under a digest drawn for it, and then one pointer buffer that lists,
    in the same order, the addresses the transport answered; that makes
    one call and one draw per fragment and one more of each for the
    buffer, whose address is the answer of [put].  And [put] does answer
    an address when the transport refuses no record; a transport error
    is outside this statement. *)
Theorem put_single_level_calls `{Prim : Primitives} `{Json : JSON} `{Tr : Transport}
    `{!PrimitivesLaws}
    (bk : Backend) (fuel : nat) (data : string) (w : World) :
  o_seq (opts w) = None ->
  2 <= length (sliceData data (bufferSizelimit (conf bk))) ->
  (Z.of_nat (length (sliceData data (bufferSizelimit (conf bk))))
   < maxPointersPerBuffer bk)%Z ->
  let slices := sliceData data (bufferSizelimit (conf bk)) in
  let leaves := leaf_records slices (draws w) in
  let root := root_record (List.map immutable_address leaves) (draws w + length slices) in
  (forall (a : string) (w' : World),
     put bk (S fuel) data w = (Done a, w') ->
     a = immutable_address root /\
     calls w' = (calls w ++ List.map CallPut leaves ++ [CallPut root])%list /\
     draws w' = draws w + length slices + 1) /\
  ((forall (i : nat) (r : Rec), immutable_error i r = None) ->
   exists w', put bk (S fuel) data w = (Done (immutable_address root), w')).
Proof.
  intros Hq Hn HK. cbv zeta.
  assert (Hput : put bk (S fuel) data w
                 = (pointers <- storeParallel bk (sliceData data (bufferSizelimit (conf bk))) ;;
                    wrapAndStorePointers bk pointers) w).
  { rewrite put_unfold.
    destruct (sliceData data (bufferSizelimit (conf bk))) as [|s0 [|s1 rest]] eqn:Es;
      try (simpl in Hn; lia).
    unfold storeChunked.
    destruct (Z.ltb_spec (Z.of_nat (length (s0 :: s1 :: rest))) (maxPointersPerBuffer bk));
      [reflexivity|lia]. }
  rewrite Hput. clear Hput.
  assert (Hdone : forall a w',
            (pointers <- storeParallel bk (sliceData data (bufferSizelimit (conf bk))) ;;
             wrapAndStorePointers bk pointers) w = (Done a, w') ->
            a = immutable_address
                  (root_record
                     (List.map immutable_address
                        (leaf_records (sliceData data (bufferSizelimit (conf bk))) (draws w)))
                     (draws w + length (sliceData data (bufferSizelimit (conf bk))))) /\
            calls w' = (calls w ++
                        List.map CallPut
                          (leaf_records (sliceData data (bufferSizelimit (conf bk))) (draws w)) ++
                        [CallPut
                           (root_record
                              (List.map immutable_address
                                 (leaf_records (sliceData data (bufferSizelimit (conf bk)))
                                    (draws w)))
                              (draws w + length (sliceData data (bufferSizelimit (conf bk)))))])%list /\
            draws w' = draws w + length (sliceData data (bufferSizelimit (conf bk))) + 1).
  { intros a w' E. apply bind_done in E. destruct E as (ps & w1 & E1 & E2).
    apply (storeParallel_trace bk) in E1; [|exact Hq].
    destruct E1 as (-> & Hc & Hd & Hq1 & _).
    unfold wrapAndStorePointers in E2. cbv zeta in E2.
    rewrite (task_immutable_trace bk _ _ w1 Hq1) in E2. cbv zeta in E2.
    destruct (immutable_error _ _); [discriminate|].
    inversion E2; subst. clear E2. cbn [calls draws].
    rewrite Hd, Hc. unfold root_record.
    rewrite <- app_assoc. split; [reflexivity|]. split; [reflexivity|lia]. }
  split; [exact Hdone|].
  intros Hok.
  destruct (storeParallel_answers bk (sliceData data (bufferSizelimit (conf bk))) Hok w Hq)
    as (ps & w1 & E1).
  assert (Hq1 : o_seq (opts w1) = None).
  { apply (storeParallel_trace bk) in E1; [|exact Hq]. tauto. }
  assert (E : exists a w',
             (pointers <- storeParallel bk (sliceData data (bufferSizelimit (conf bk))) ;;
              wrapAndStorePointers bk pointers) w = (Done a, w')).
  { unfold bind at 1. rewrite E1. unfold wrapAndStorePointers. cbv zeta.
    rewrite (task_immutable_trace bk _ _ w1 Hq1). cbv zeta. rewrite Hok.
    eexists _, _. reflexivity. }
  destruct E as (a & w' & E). exists w'.
  destruct (Hdone a w' E) as (<- & _). exact E.
Qed.

(** *** The root of a mutable multi-level write *)

Section MutableRoot.
Context `{Prim : Primitives} `{Json : JSON} `{Tr : Transport}.
Context `{!PrimitivesLaws} `{!TransportLaws}.
Variable bk : Backend.
Variable ks : Keys.
Variable z : Z.
Hypothesis Hks : keys (conf bk) = Some ks.
Hypothesis Hz : z <> 0%Z.

(** The address that the salt left in the options designates is taken
    by a record of the [seq] of this write. *)
Definition salt_taken (w : World) : Prop :=
  truthy_str (o_salt (opts w)) = true /\ o_seq (opts w) = Some z /\
  exists r, store w !! mutable_address (publicKey ks) (o_salt (opts w)) = Some r /\
            seq r = Some z.

Lemma getPayload_mutable (data : string) (o : Opts) :
  o_seq o = Some z -> truthy_str (o_salt o) = true ->
  getPayload data o = set_seq (Some z) (set_salt (o_salt o) (set_v (Some data) emptyRec)).
Proof.
  intros Hq Hs. unfold getPayload. rewrite Hq, Hs. simpl.
  destruct (Z.eqb_spec z 0); [contradiction|reflexivity].
Qed.

Lemma task_salt_taken (x chunk : string) (w w' : World) (a : string) :
  o_seq (opts w) = Some z ->
  (sha <- getSha x ;; _ <- set_opts_salt sha ;; send bk chunk) w = (Done a, w') ->
  salt_taken w'.
Proof.
  intros Hq E. unfold bind at 1 in E. unfold getSha in E.
  unfold bind at 1 in E. unfold set_opts_salt in E.
  rewrite (send_mutable bk chunk _ z ks) in E; [|exact Hq|exact Hks].
  cbn [opts] in E. rewrite getPayload_mutable in E; [|exact Hq|apply sha_of_truthy].
  unfold bind, set_opts_keys, sendMutable, transport_putMutable in E.
  cbn [store opts opts_keys draws calls o_salt o_seq salt set_seq set_salt] in E.
  assert (Hdone : forall st0,
    (Done a, w') =
    (Done (mutable_address (publicKey ks) (Some (sha_of x (draws w)))),
     {| store := st0; opts := {| o_seq := o_seq (opts w); o_salt := Some (sha_of x (draws w)) |};
        opts_keys := Some ks; draws := S (draws w);
        calls := calls {| store := store w;
                          opts := {| o_seq := o_seq (opts w); o_salt := Some (sha_of x (draws w)) |};
                          opts_keys := Some ks; draws := S (draws w);
                          calls := (calls w ++ [CallPutMutable
                            (set_seq (Some z) (set_salt (Some (sha_of x (draws w)))
                               (set_v (Some chunk) emptyRec)))
                            {| o_seq := o_seq (opts w); o_salt := Some (sha_of x (draws w)) |}
                            (Some ks)])%list |} |}) ->
    (exists r, st0 !! mutable_address (publicKey ks) (Some (sha_of x (draws w))) = Some r /\
               seq r = Some z) ->
    salt_taken w').
  { intros st0 [= -> ->] Hr. unfold salt_taken. cbn [opts o_salt o_seq store].
    split; [apply sha_of_truthy|]. split; [exact Hq|exact Hr]. }
  destruct (store w !! _) as [old|] eqn:L;
    [destruct (mutable_accepts old _); [|discriminate]|];
    (eapply Hdone; [symmetry; exact E|]);
    (eexists; split; [apply lookup_insert_eq|reflexivity]).
Qed.

Lemma salt_taken_seq (w : World) : salt_taken w -> o_seq (opts w) = Some z.
Proof. now intros (_ & Hq & _). Qed.

Lemma storeParallel_salt_taken (slices : list string) :
  forall (w w' : World) (ps : list string),
    o_seq (opts w) = Some z ->
    storeParallel bk slices w = (Done ps, w') ->
    (slices = [] /\ w' = w) \/ salt_taken w'.
Proof.
  unfold storeParallel, taskParallel, getStoreTasks.
  induction slices as [|s0 rest IH]; intros w w' ps Hq E; cbn [List.map mapM] in E.
  - left. inversion E. auto.
  - right. apply bind_done in E. destruct E as (a & w1 & E1 & E2).
    apply task_salt_taken in E1; [|exact Hq].
    apply bind_done in E2. destruct E2 as (ys & w2 & E2 & E3).
    inversion E3; subst.
    destruct (IH w1 w' ys (salt_taken_seq _ E1) E2) as [[_ ->]|Ht]; assumption.
Qed.

Lemma boxes_salt_taken (boxes : list (list string)) :
  forall (w w' : World) (res : list (list string)),
    o_seq (opts w) = Some z ->
    mapM (storeParallel bk) boxes w = (Done res, w') ->
    (List.concat boxes = [] /\ w' = w) \/ salt_taken w'.
Proof.
  induction boxes as [|box boxes IH]; intros w w' res Hq E; cbn [mapM] in E.
  - left. inversion E. auto.
  - apply bind_done in E. destruct E as (ps & w1 & E1 & E2).
    apply bind_done in E2. destruct E2 as (ys & w2 & E2 & E3).
    inversion E3; subst.
    destruct (storeParallel_salt_taken box w w1 ps Hq E1) as [[-> ->]|Ht].
    + exact (IH w w' ys Hq E2).
    + destruct (IH w1 w' ys (salt_taken_seq _ Ht) E2) as [[_ ->]|Ht']; right; assumption.
Qed.

(** A single-fragment [put] in a state whose salt is taken. *)
Lemma put_salt_taken (fuel : nat) (data s0 : string) (w : World) :
  salt_taken w ->
  sliceData data (bufferSizelimit (conf bk)) = [s0] ->
  exists w',
    put bk (S fuel) data w = (Failed "302 sequence number less than current", w') /\
    store w' = store w /\
    calls w' = (calls w ++
                [CallPutMutable
                   (set_seq (Some z) (set_salt (o_salt (opts w)) (set_v (Some s0) emptyRec)))
                   (opts w) (Some ks)])%list.
Proof.
  intros (Hs & Hq & r & L & Sr) Es. rewrite put_unfold, Es.
  unfold bind at 1. rewrite Hs. unfold ret.
  rewrite (send_mutable bk s0 w z ks Hq Hks).
  rewrite getPayload_mutable by assumption.
  unfold bind, set_opts_keys, sendMutable, transport_putMutable.
  cbn [store opts opts_keys draws calls salt set_seq set_salt].
  rewrite L.
  destruct (mutable_accepts r _) eqn:Acc.
  - apply mutable_accepts_seq in Acc. simpl in Acc. congruence.
  - eexists. split; [reflexivity|]. split; reflexivity.
Qed.

End MutableRoot.

(** X12: on the mutable path, when a payload takes the path of the
    sequential boxes, every fragment has been stored and the pointer
    buffer listing them fits one fragment, [put] fails with the
    transport's sequence error.  The buffer is sent under the salt left
    by the last fragment and under the same [seq], to an address that
    fragment has taken; the fragments stay stored. *)
Theorem put_mutable_root_rejected `{Prim : Primitives} `{Json : JSON} `{Tr : Transport}
    `{!PrimitivesLaws} `{!TransportLaws}
    (bk : Backend) (ks : Keys) (z : Z) (fuel : nat) (data : string) (w w1 : World)
    (res : list (list string)) (s0 : string) :
  keys (conf bk) = Some ks -> o_seq (opts w) = Some z -> z <> 0%Z ->
  (1 <= maxPointersPerBuffer bk)%Z ->
  2 <= length (sliceData data (bufferSizelimit (conf bk))) ->
  (maxPointersPerBuffer bk
   <= Z.of_nat (length (sliceData data (bufferSizelimit (conf bk))))
   <= maxSliceCount bk)%Z ->
  mapM (storeParallel bk)
       (prepareMultiLevelData (sliceData data (bufferSizelimit (conf bk)))
                              (maxPointersPerBuffer bk)) w
  = (Done res, w1) ->
  sliceData (wrapPointers (List.concat res)) (bufferSizelimit (conf bk)) = [s0] ->
  exists w',
    put bk (S (S fuel)) data w
    = (Failed "302 sequence number less than current", w') /\
    store w' = store w1 /\
    calls w' = (calls w1 ++
                [CallPutMutable
                   (set_seq (Some z) (set_salt (o_salt (opts w1)) (set_v (Some s0) emptyRec)))
                   (opts w1) (Some ks)])%list /\
    exists leaf, store w1 !! mutable_address (publicKey ks) (o_salt (opts w1)) = Some leaf /\
                 seq leaf = Some z.
Proof.
  intros Hks Hq Hz HK Hn [HKn Hmax] Eboxes Efit.
  assert (Ht : salt_taken ks z w1).
  { destruct (boxes_salt_taken bk ks z Hks Hz _ w w1 res Hq Eboxes) as [[Hnil _]|Ht];
      [|exact Ht].
    rewrite prepareMultiLevelData_concat in Hnil by exact HK.
    rewrite Hnil in Hn. simpl in Hn. lia. }
  destruct (put_salt_taken bk ks z Hks Hz fuel _ s0 w1 Ht Efit) as (w' & E & Hst & Hc).
  exists w'. split; [|split; [exact Hst|split; [exact Hc|]]].
  - rewrite put_unfold.
    destruct (sliceData data (bufferSizelimit (conf bk))) as [|x0 [|x1 rest]] eqn:Es;
      try (simpl in Hn; lia).
    unfold storeChunked.
    destruct (Z.ltb_spec (Z.of_nat (length (x0 :: x1 :: rest))) (maxPointersPerBuffer bk));
      [lia|].
    destruct (Z.gtb_spec (Z.of_nat (length (x0 :: x1 :: rest))) (maxSliceCount bk));
      [lia|].
    unfold storeUntilPointersFit. rewrite Eboxes. exact E.
  - destruct Ht as (_ & _ & Hr). exact Hr.
Qed.

(** *** Writing twice under one salt and one [seq] *)

Section SameSeq.
Context `{Prim : Primitives} `{Json : JSON} `{Tr : Transport}.
Context `{!PrimitivesLaws} `{!TransportLaws}.
Variable bk : Backend.
Variable ks : Keys.
Variable z : Z.
Hypothesis Hks : keys (conf bk) = Some ks.
Hypothesis Hz : z <> 0%Z.

Lemma send_salt_taken (data : string) (w w' : World) (a : string) :
  o_seq (opts w) = Some z -> truthy_str (o_salt (opts w)) = true ->
  send bk data w = (Done a, w') ->
  salt_taken ks z w' /\ opts w' = opts w.
Proof.
  intros Hq Hs E.
  rewrite (send_mutable bk data w z ks Hq Hks) in E.
  rewrite (getPayload_mutable z Hz) in E by assumption.
  unfold bind, set_opts_keys, sendMutable, transport_putMutable in E.
  cbn [store opts opts_keys draws calls salt set_seq set_salt] in E.
  assert (Hdone : forall st0 cs,
    (Done a, w') =
    (Done (mutable_address (publicKey ks) (o_salt (opts w))),
     {| store := st0; opts := opts w; opts_keys := Some ks; draws := draws w;
        calls := cs |}) ->
    (exists r, st0 !! mutable_address (publicKey ks) (o_salt (opts w)) = Some r /\
               seq r = Some z) ->
    salt_taken ks z w' /\ opts w' = opts w).
  { intros st0 cs [= -> ->] Hr. unfold salt_taken. cbn [opts store]. auto. }
  destruct (store w !! _) as [old|] eqn:L;
    [destruct (mutable_accepts old _); [|discriminate]|];
    (eapply Hdone; [symmetry; exact E|]);
    (eexists; split; [apply lookup_insert_eq|reflexivity]).
Qed.

End SameSeq.

(** X13: a mutable entry is written once per [seq].  After a
    single-fragment payload has been stored under a caller-chosen salt
    and a [seq], a second single-fragment [put] under the same salt and
    the same [seq] fails with the transport's sequence error, whatever
    its payload, and stores nothing. *)
Theorem put_same_seq_rejected `{Prim : Primitives} `{Json : JSON} `{Tr : Transport}
    `{!PrimitivesLaws} `{!TransportLaws}
    (bk : Backend) (ks : Keys) (z : Z) (fuel1 fuel2 : nat) (d1 d2 s1 s2 : string)
    (w w1 w2 : World) (a : string) :
  keys (conf bk) = Some ks -> o_seq (opts w) = Some z -> z <> 0%Z ->
  truthy_str (o_salt (opts w)) = true ->
  sliceData d1 (bufferSizelimit (conf bk)) = [s1] ->
  sliceData d2 (bufferSizelimit (conf bk)) = [s2] ->
  put bk (S fuel1) d1 w = (Done a, w1) ->
  store w2 = store w1 -> opts w2 = opts w ->
  exists w3,
    put bk (S fuel2) d2 w2 = (Failed "302 sequence number less than current", w3) /\
    store w3 = store w1.
Proof.
  intros Hks Hq Hz Hs E1 E2 Eput Hst Ho.
  rewrite put_unfold, E1 in Eput. unfold bind at 1 in Eput.
  rewrite Hs in Eput. unfold ret in Eput.
  apply (send_salt_taken bk ks z Hks Hz) in Eput; [|exact Hq|exact Hs].
  destruct Eput as ((_ & _ & r & L & Sr) & Eo).
  assert (Ht : salt_taken ks z w2).
  { unfold salt_taken. rewrite Ho, Hst. rewrite Eo in L. eauto. }
  destruct (put_salt_taken bk ks z Hks Hz fuel2 d2 s2 w2 Ht E2) as (w3 & E & Hs3 & _).
  exists w3. split; [exact E|congruence].
Qed.

(** *** What a write leaves in the options *)

Section OptionsAfter.
Context `{Prim : Primitives} `{Json : JSON} `{Tr : Transport}.
Context `{!PrimitivesLaws}.
Variable bk : Backend.

(** The salt left in the options of [w'] is a digest drawn between
    draw [lo] and draw [hi]. *)
Definition digest_salt (lo hi : nat) (w' : World) : Prop :=
  exists x i, lo <= i < hi /\ o_salt (opts w') = Some (sha_of x i).

Lemma left_with_digest (w w' : World) (new : list Call) :
  left_with w w' new -> digest_salt (draws w) (draws w') w'.
Proof.
  intros (c' & _ & (i & Hi & Hd) & Hs & _). unfold digest_salt. rewrite Hs.
  destruct Hd as [Hd|Hd]; eexists _, i; (split; [exact Hi|exact Hd]).
Qed.

Lemma put_options (fuel : nat) :
  forall (data : string) (w w' : World) (a : string),
    put bk fuel data w = (Done a, w') ->
    o_seq (opts w) <> Some 0%Z -> (1 <= maxPointersPerBuffer bk)%Z ->
    draws w <= draws w' /\ o_seq (opts w') = o_seq (opts w) /\
    ((exists s0, sliceData data (bufferSizelimit (conf bk)) = [s0] /\
                 truthy_str (o_salt (opts w)) = true /\ opts w' = opts w) \/
     ((forall s0, sliceData data (bufferSizelimit (conf bk)) = [s0] ->
                  truthy_str (o_salt (opts w)) = false) /\
      digest_salt (draws w) (draws w') w')).
Proof.
  unfold digest_salt.
  induction fuel as [|fuel IH]; intros data w w' a E Hq HK; [discriminate|].
  rewrite put_unfold in E.
  pose proof (sliceData_nonempty data (bufferSizelimit (conf bk))) as Hne.
  destruct (sliceData data (bufferSizelimit (conf bk))) as [|s0 [|s1 rest]] eqn:Es;
    [congruence| |].
  - unfold bind at 1 in E. destruct (truthy_str (o_salt (opts w))) eqn:Hs.
    + unfold ret in E. apply send_calls in E; [|exact Hq|exact Hs].
      destruct E as (Eo & Ed & _). rewrite Eo, Ed.
      split; [lia|]. split; [reflexivity|]. left. exists s0. auto.
    + unfold bind at 1 in E. unfold getSha, set_opts_salt in E.
      apply send_calls in E; [|simpl; exact Hq|simpl; apply sha_truthy].
      simpl in E. destruct E as (Eo & Ed & _). rewrite Eo, Ed. cbn [opts draws o_seq o_salt].
      split; [lia|]. split; [reflexivity|]. right. split; [auto|].
      exists s0, (draws w). split; [lia|reflexivity].
  - assert (Hmany : forall x, s0 :: s1 :: rest = [x] -> truthy_str (o_salt (opts w)) = false)
      by (intros x [=]).
    unfold storeChunked in E.
    destruct (Z.of_nat (length (s0 :: s1 :: rest)) <? maxPointersPerBuffer bk)%Z.
    + apply bind_done in E. destruct E as (ps & w1 & E1 & E2).
      apply storeParallel_sent in E1; [|exact Hq].
      destruct E1 as (new & (_ & Hd1 & Hq1 & _) & _).
      unfold wrapAndStorePointers in E2. cbv zeta in E2.
      apply task_calls in E2; [|congruence].
      destruct E2 as (Hq2 & Hd2 & Hs2 & _).
      split; [lia|]. split; [congruence|]. right. split; [exact Hmany|].
      eexists _, (draws w1). split; [lia|exact Hs2].
    + destruct (Z.of_nat (length (s0 :: s1 :: rest)) >? maxSliceCount bk)%Z;
        [discriminate|].
      unfold storeUntilPointersFit in E.
      destruct (mapM (storeParallel bk) _ w) as [[res| | |] w1] eqn:Eb;
        try discriminate.
      apply boxes_sent in Eb; [|exact Hq].
      destruct Eb as (new & (_ & Hd1 & Hq1 & _) & Hleft & _).
      specialize (Hleft res eq_refl).
      rewrite prepareMultiLevelData_concat in Hleft by exact HK.
      specialize (Hleft ltac:(discriminate)).
      apply left_with_digest in Hleft. unfold digest_salt in Hleft.
      apply IH in E; [|congruence|exact HK].
      destruct E as (Hd2 & Hq2 & [(x & _ & _ & Eo)|[_ Hdig]]).
      * split; [lia|]. split; [congruence|]. right. split; [exact Hmany|].
        destruct Hleft as (y & i & Hi & Ey). exists y, i.
        split; [lia|]. now rewrite Eo.
      * split; [lia|]. split; [congruence|]. right. split; [exact Hmany|].
        destruct Hdig as (y & i & Hi & Ey). exists y, i. split; [lia|exact Ey].
Qed.

End OptionsAfter.

(** X14: [put] writes into the options object it is given.  After a
    successful write the [seq] is the caller's; the salt is the caller's
    only when the payload is a single fragment and the caller gave a
    salt - in every other case it is a digest drawn during the write. *)
Theorem put_overwrites_salt `{Prim : Primitives} `{Json : JSON} `{Tr : Transport}
    `{!PrimitivesLaws}
    (bk : Backend) (fuel : nat) (data : string) (w w' : World) (a : string) :
  (1 <= maxPointersPerBuffer bk)%Z -> o_seq (opts w) <> Some 0%Z ->
  put bk fuel data w = (Done a, w') ->
  o_seq (opts w') = o_seq (opts w) /\
  ((exists s0, sliceData data (bufferSizelimit (conf bk)) = [s0] /\
               truthy_str (o_salt (opts w)) = true /\ opts w' = opts w) \/
   ((forall s0, sliceData data (bufferSizelimit (conf bk)) = [s0] ->
                truthy_str (o_salt (opts w)) = false) /\
    exists x i, draws w <= i < draws w' /\ o_salt (opts w') = Some (sha_of x i))).
Proof.
  intros HK Hq E. destruct (put_options bk fuel data w w' a E Hq HK) as (_ & Hs & Hr).
  split; [exact Hs|exact Hr].
Qed.

(** *** The theorems at work on the concrete platform *)

Lemma get_cycle_never_answers_witness :
  get 1000 (store (snd self_pointing)) (answer self_pointing) false = OutOfFuel.
Proof.
  apply (get_cycle_never_answers (store (snd self_pointing)) (answer self_pointing)
           (stored_root self_pointing) self_pointer 0).
  - vm_compute. discriminate.
  - vm_compute. reflexivity.
  - vm_compute. reflexivity.
  - vm_compute. reflexivity.
Defined.

Lemma get_empty_pointer_witness :
  get 9 (store (snd empty_pointer)) (answer empty_pointer) false
  = Failed "no key provided".
Proof.
  apply (get_empty_pointer 8 (store (snd empty_pointer)) (answer empty_pointer)
           (stored_root empty_pointer) ["r1"; ""]).
  - vm_compute. discriminate.
  - vm_compute. reflexivity.
  - vm_compute. reflexivity.
  - right. left. reflexivity.
Defined.

Lemma put_without_keys_witness :
  exists out w',
    put (new_backend conf48) 8 (repeat_a 144) (world0 seq1) = (out, w') /\
    calls w' = calls (world0 seq1) /\ store w' = store (world0 seq1) /\
    (out = Failed "no keys set" \/
     out = Failed "data too large: adjust maxIndirections" \/
     out = NoCallback).
Proof.
  apply (put_without_keys (new_backend conf48) 7 (repeat_a 144) (world0 seq1) 1).
  - reflexivity.
  - reflexivity.
  - vm_compute. discriminate.
Defined.

Lemma put_single_level_calls_witness :
  exists w',
    put (new_backend conf48) 8 (repeat_a 49) (world0 no_opts)
    = (Done (immutable_address
               (root_record
                  (List.map immutable_address
                     (leaf_records (sliceData (repeat_a 49) 48) 0)) 2)), w') /\
    calls w'
    = (List.map CallPut (leaf_records (sliceData (repeat_a 49) 48) 0) ++
       [CallPut (root_record
                   (List.map immutable_address
                      (leaf_records (sliceData (repeat_a 49) 48) 0)) 2)])%list /\
    draws w' = 3.
Proof.
  assert (Hn : 2 <= length (sliceData (repeat_a 49)
                              (bufferSizelimit (conf (new_backend conf48))))).
  { vm_compute. lia. }
  assert (HK : (Z.of_nat (length (sliceData (repeat_a 49)
                                    (bufferSizelimit (conf (new_backend conf48)))))
                < maxPointersPerBuffer (new_backend conf48))%Z).
  { vm_compute. reflexivity. }
  destruct (put_single_level_calls (new_backend conf48) 7 (repeat_a 49) (world0 no_opts)
              eq_refl Hn HK) as (Hdone & Hanswers).
  destruct (Hanswers (fun _ _ => eq_refl)) as (w' & E).
  exists w'. split; [exact E|].
  destruct (Hdone _ _ E) as (_ & Hc & Hd).
  split; [exact Hc|exact Hd].
Defined.

Lemma put_mutable_root_rejected_witness :
  exists w',
    put (new_backend conf72_keys) 2 (repeat_a 216) (world0 seq1)
    = (Failed "302 sequence number less than current", w') /\
    store w' = store (snd boxes216).
Proof.
  destruct (put_mutable_root_rejected (new_backend conf72_keys) toy_keys 1 0
              (repeat_a 216) (world0 seq1) (snd boxes216)
              (match fst boxes216 with Done res => res | _ => [] end)
              (wrapPointers (pointers_of boxes216)))
    as (w' & E & Hs & _).
  - reflexivity.
  - reflexivity.
  - discriminate.
  - vm_compute. discriminate.
  - vm_compute. lia.
  - vm_compute. split; discriminate.
  - vm_compute. reflexivity.
  - vm_compute. reflexivity.
  - exists w'. split; [exact E|exact Hs].
Defined.

Lemma put_same_seq_rejected_witness :
  exists w3,
    put (new_backend conf48_keys) 8 "furbie-foo"
      (snd (run conf48_keys "furbie" (pineapple 1)))
    = (Failed "302 sequence number less than current", w3) /\
    store w3 = store (snd (run conf48_keys "furbie" (pineapple 1))).
Proof.
  apply (put_same_seq_rejected (new_backend conf48_keys) toy_keys 1 7 7
           "furbie" "furbie-foo" "furbie" "furbie-foo" (world0 (pineapple 1))
           (snd (run conf48_keys "furbie" (pineapple 1)))
           (snd (run conf48_keys "furbie" (pineapple 1)))
           (answer (run conf48_keys "furbie" (pineapple 1)))).
  - reflexivity.
  - reflexivity.
  - discriminate.
  - reflexivity.
  - vm_compute. reflexivity.
  - vm_compute. reflexivity.
  - vm_compute. reflexivity.
  - reflexivity.
  - vm_compute. reflexivity.
Defined.

Lemma put_overwrites_salt_witness :
  o_seq (opts (snd (run conf48_keys (repeat_a 49) (pineapple 1))))
  = o_seq (opts (world0 (pineapple 1))) /\
  ((exists s0, sliceData (repeat_a 49) (bufferSizelimit (conf (new_backend conf48_keys)))
               = [s0] /\
               truthy_str (o_salt (opts (world0 (pineapple 1)))) = true /\
               opts (snd (run conf48_keys (repeat_a 49) (pineapple 1)))
               = opts (world0 (pineapple 1))) \/
   ((forall s0, sliceData (repeat_a 49) (bufferSizelimit (conf (new_backend conf48_keys)))
                = [s0] ->
                truthy_str (o_salt (opts (world0 (pineapple 1)))) = false) /\
    exists x i,
      draws (world0 (pineapple 1)) <= i
      < draws (snd (run conf48_keys (repeat_a 49) (pineapple 1))) /\
      o_salt (opts (snd (run conf48_keys (repeat_a 49) (pineapple 1))))
      = Some (sha_of x i))).
Proof.
  apply (put_overwrites_salt (new_backend conf48_keys) 8 (repeat_a 49)
           (world0 (pineapple 1))
           (snd (run conf48_keys (repeat_a 49) (pineapple 1)))
           (answer (run conf48_keys (repeat_a 49) (pineapple 1)))).
  - vm_compute. discriminate.
  - vm_compute. discriminate.
  - vm_compute. reflexivity.
Defined.

End GrenacheMore.


(** ** The earlier revision of the chunking backend *)

Module GrenacheEarlierFacts.

Import Grenache Toy GrenacheFacts Cases.

Section Facts.
Context `{Prim : Primitives} `{Json : JSON} `{Tr : Transport}.
Context `{!TransportLaws}.
Variable bk : GrenacheEarlier.Backend.

(** Address [a] is not empty and holds a record of [seq] [q] whose
    content is [s]. *)
Definition held (q : option Z) (st : gmap string Rec) (a s : string) : Prop :=
  a <> "" /\ exists r, st !! a = Some r /\ v r = Some s /\ seq r = q.

(** An address some record of [seq] [q] occupies. *)
Definition taken (q : option Z) (st : gmap string Rec) (a : string) : Prop :=
  exists r, st !! a = Some r /\ seq r = q.

(** From [w] to [w'] the options keep their [seq], and what records of
    that [seq] held and occupied they still do. *)
Definition kept (w w' : World) : Prop :=
  o_seq (opts w') = o_seq (opts w) /\
  (forall a s, held (o_seq (opts w)) (store w) a s -> held (o_seq (opts w)) (store w') a s) /\
  (forall a, taken (o_seq (opts w)) (store w) a -> taken (o_seq (opts w)) (store w') a).

Lemma kept_refl (w : World) : kept w w.
Proof. split; [reflexivity|]. split; auto. Qed.

Lemma kept_trans (w1 w2 w3 : World) : kept w1 w2 -> kept w2 w3 -> kept w1 w3.
Proof.
  intros (E1 & H1 & T1) (E2 & H2 & T2). split; [congruence|]. split.
  - intros a s Hh. apply H1 in Hh. rewrite <- E1 in Hh. apply H2 in Hh.
    now rewrite E1 in Hh.
  - intros a Ht. apply T1 in Ht. rewrite <- E1 in Ht. apply T2 in Ht.
    now rewrite E1 in Ht.
Qed.

Lemma earlier_payload_v (data : string) (o : Opts) : v (GrenacheEarlier.getPayload data o) = Some data.
Proof. unfold GrenacheEarlier.getPayload. destruct (truthy_str (o_salt o)); reflexivity. Qed.

Lemma earlier_payload_seq (data : string) (o : Opts) : seq (GrenacheEarlier.getPayload data o) = o_seq o.
Proof. unfold GrenacheEarlier.getPayload. destruct (truthy_str (o_salt o)); reflexivity. Qed.

Lemma earlier_payload_salt (data : string) (o : Opts) :
  salt (GrenacheEarlier.getPayload data o) = if truthy_str (o_salt o) then o_salt o else None.
Proof. unfold GrenacheEarlier.getPayload. destruct (truthy_str (o_salt o)); reflexivity. Qed.

(** What [send] does, by the state of the address it writes to. *)
Lemma earlier_send_cases (data : string) (w : World) :
  let p := GrenacheEarlier.getPayload data (opts w) in
  let w1 := {| store := store w; opts := opts w; opts_keys := keys (GrenacheEarlier.conf bk);
               draws := draws w;
               calls := (calls w ++ [CallPutMutable p (opts w) (keys (GrenacheEarlier.conf bk))])%list |} in
  (keys (GrenacheEarlier.conf bk) = None /\ GrenacheEarlier.send bk data w = (Failed "ERR_MISSING_KEYS", w1)) \/
  exists ks signed,
    keys (GrenacheEarlier.conf bk) = Some ks /\
    v signed = Some data /\ seq signed = o_seq (opts w) /\
    let a := mutable_address (publicKey ks) (salt p) in
    ((taken (o_seq (opts w)) (store w) a \/
      exists old, store w !! a = Some old /\ mutable_accepts old signed = false) /\
     GrenacheEarlier.send bk data w = (Failed "302 sequence number less than current", w1)) \/
    (~ taken (o_seq (opts w)) (store w) a /\
     GrenacheEarlier.send bk data w
     = (Done a, {| store := <[a := signed]> (store w); opts := opts w;
                   opts_keys := keys (GrenacheEarlier.conf bk); draws := draws w; calls := calls w1 |})).
Proof.
  cbv zeta. unfold GrenacheEarlier.send, bind, GrenacheEarlier.assign_opts_keys, GrenacheEarlier.sendMutable, transport_putMutable.
  cbn [store opts opts_keys draws calls].
  destruct (keys (GrenacheEarlier.conf bk)) as [ks|] eqn:Hk; [right|left; auto].
  set (p := GrenacheEarlier.getPayload data (opts w)).
  set (signed := set_k_sig _ _ p).
  exists ks, signed. split; [reflexivity|].
  split; [apply earlier_payload_v|]. split; [apply earlier_payload_seq|].
  cbv zeta.
  destruct (store w !! mutable_address (publicKey ks) (salt p)) as [old|] eqn:L.
  - destruct (mutable_accepts old signed) eqn:Acc.
    + right. split; [|reflexivity].
      intros (r & Lr & Sr). apply mutable_accepts_seq in Acc. apply Acc.
      assert (r = old) by congruence. subst r.
      change (seq signed) with (seq p). unfold p. rewrite earlier_payload_seq. congruence.
    + left. split; [|reflexivity]. right. eauto.
  - right. split; [|reflexivity]. intros (r & Lr & _). congruence.
Qed.

Lemma earlier_send_kept (data : string) (w w' : World) (a : string) :
  GrenacheEarlier.send bk data w = (Done a, w') ->
  kept w w' /\ held (o_seq (opts w)) (store w') a data /\ opts w' = opts w.
Proof.
  intros E0. pose proof (earlier_send_cases data w) as Hc. cbv zeta in Hc.
  destruct Hc as [[_ E1]|(ks & signed & Hk & Hv & Hs & [[_ E1]|[Hfree E1]])];
    rewrite E1 in E0; try discriminate.
  injection E0 as <- <-. unfold kept. cbn [store opts].
  split; [|split; [|reflexivity]].
  - split; [reflexivity|]. split.
    + intros a0 s0 (Hne & r & L & Hvr & Hsr). split; [exact Hne|].
      exists r. rewrite lookup_insert_ne; [auto|].
      intros <-. apply Hfree. exists r. auto.
    + intros a0 (r & L & Hsr).
      destruct (decide (mutable_address (publicKey ks) (salt (GrenacheEarlier.getPayload data (opts w))) = a0))
        as [<-|Hne].
      * exfalso. apply Hfree. exists r. auto.
      * exists r. rewrite lookup_insert_ne by exact Hne. auto.
  - split; [apply mutable_address_nonempty|].
    exists signed. rewrite lookup_insert_eq. auto.
Qed.

(** One store task: the digest of the fragment becomes the salt, then
    [send]. *)
Lemma earlier_task_kept (x chunk : string) (w w' : World) (a : string) :
  (_ <- set_opts_salt x ;; GrenacheEarlier.send bk chunk) w = (Done a, w') ->
  kept w w' /\ held (o_seq (opts w)) (store w') a chunk /\
  o_salt (opts w') = Some x.
Proof.
  intros E0. unfold bind at 1 in E0. unfold set_opts_salt in E0.
  apply earlier_send_kept in E0. cbn [store opts o_seq] in E0.
  destruct E0 as ((Hq & Hh & Ht) & Hheld & Ho).
  split; [|split; [exact Hheld|now rewrite Ho]].
  split; [exact Hq|]. split; assumption.
Qed.

Lemma earlier_tasks_kept (slices : list string) :
  forall (w w' : World) (ps : list string),
    taskParallel (GrenacheEarlier.getStoreTasks bk slices) w = (Done ps, w') ->
    kept w w' /\ Forall2 (held (o_seq (opts w)) (store w')) ps slices.
Proof.
  unfold taskParallel, GrenacheEarlier.getStoreTasks.
  induction slices as [|s0 rest IH]; intros w w' ps E0; cbn [List.map mapM] in E0.
  - inversion E0; subst. split; [apply kept_refl|constructor].
  - apply bind_done in E0. destruct E0 as (a & w1 & E1 & E2).
    apply bind_done in E2. destruct E2 as (ys & w2 & E2 & E3).
    inversion E3; subst. clear E3.
    apply earlier_task_kept in E1. destruct E1 as (K1 & H1 & _).
    apply IH in E2. destruct E2 as (K2 & F2).
    split; [eapply kept_trans; eauto|].
    destruct K1 as (Hq1 & _). destruct K2 as (_ & Hh2 & _).
    rewrite Hq1 in Hh2, F2.
    constructor; [apply Hh2, H1|exact F2].
Qed.

(** What a successful [put] leaves behind: the record at the answered
    address holds the payload itself or a pointer buffer over records
    that hold its fragments. *)
Lemma earlier_put_held (data : string) (w w' : World) (a : string) :
  GrenacheEarlier.put bk data w = (Done a, w') ->
  match sliceData data (bufferSizelimit (GrenacheEarlier.conf bk)) with
  | [s0] => held (o_seq (opts w)) (store w') a s0
  | slices =>
      exists ps, held (o_seq (opts w)) (store w') a (wrapPointers ps) /\
                 Forall2 (held (o_seq (opts w)) (store w')) ps slices
  end.
Proof.
  intros E0. unfold GrenacheEarlier.put in E0. unfold bind at 1 in E0. unfold prepareData in E0.
  assert (Hchunked : forall slices,
    GrenacheEarlier.storeChunked bk slices w = (Done a, w') ->
    exists ps, held (o_seq (opts w)) (store w') a (wrapPointers ps) /\
               Forall2 (held (o_seq (opts w)) (store w')) ps slices).
  { intros slices E1. unfold GrenacheEarlier.storeChunked in E1.
    destruct (Z.of_nat (length slices) <? GrenacheEarlier.maxPointersPerBuffer bk)%Z; [|discriminate].
    apply bind_done in E1. destruct E1 as (ps & w1 & E1 & E2).
    apply earlier_tasks_kept in E1. destruct E1 as (K1 & F1).
    cbv zeta in E2. apply earlier_task_kept in E2. destruct E2 as (K2 & H2 & _).
    destruct K1 as (Hq1 & _). destruct K2 as (_ & Hh2 & _).
    rewrite Hq1 in Hh2, H2.
    exists ps. split; [exact H2|].
    eapply Forall2_impl; [exact F1|]. intros p s0. apply Hh2. }
  destruct (sliceData data (bufferSizelimit (GrenacheEarlier.conf bk))) as [|s0 [|s1 rest]];
    [apply Hchunked; exact E0| |apply Hchunked; exact E0].
  apply bind_done in E0. destruct E0 as ([] & w1 & E1 & E2).
  destruct (truthy_str (o_salt (opts w))).
  - unfold ret in E1. inversion E1; subst w1.
    apply earlier_send_kept in E2. tauto.
  - unfold set_opts_salt in E1. inversion E1; subst w1.
    apply earlier_send_kept in E2. cbn [store opts o_seq] in E2. tauto.
Qed.

Lemma held_collect (q : option Z) (st : gmap string Rec) (ps slices : list string) :
  Forall2 (held q st) ps slices ->
  exists recs, collect st (List.map JStr ps) = Done recs /\
               Forall2 (fun r s => v r = Some s) recs slices.
Proof.
  unfold collect, getRetrieveTasks.
  induction 1 as [|p s ps slices Hh F IH]; simpl.
  - exists []. split; [reflexivity|constructor].
  - destruct IH as (recs & -> & Hrecs).
    destruct Hh as (Hne & r & Hl & Hv & _).
    unfold get_pointer, transport_get. simpl.
    destruct (String.eqb_spec p "") as [->|_]; [congruence|].
    rewrite Hl. eexists. split; [reflexivity|]. constructor; [exact Hv|exact Hrecs].
Qed.

(** The address a fragment is sent to. *)
Definition fragment_address (chunk : string) : string :=
  match keys (GrenacheEarlier.conf bk) with
  | Some ks =>
      mutable_address (publicKey ks)
        (if truthy_str (Some (GrenacheEarlier.getSha chunk)) then Some (GrenacheEarlier.getSha chunk) else None)
  | None => ""
  end.

Lemma earlier_task_done (chunk : string) (w w' : World) (a : string) :
  (_ <- set_opts_salt (GrenacheEarlier.getSha chunk) ;; GrenacheEarlier.send bk chunk) w = (Done a, w') ->
  kept w w' /\
  ~ taken (o_seq (opts w)) (store w) (fragment_address chunk) /\
  taken (o_seq (opts w)) (store w') (fragment_address chunk).
Proof.
  intros E0. pose proof E0 as E1. apply earlier_task_kept in E1.
  destruct E1 as (K1 & _ & _). split; [exact K1|].
  unfold bind at 1 in E0. unfold set_opts_salt in E0.
  match type of E0 with GrenacheEarlier.send _ _ ?w0 = _ =>
    pose proof (earlier_send_cases chunk w0) as Hc end.
  cbv zeta in Hc. cbn [store opts o_seq] in Hc.
  destruct Hc as [[_ E1]|(ks & signed & Hk & Hv & Hs & [[_ E1]|[Hfree E1]])];
    rewrite E1 in E0; try discriminate.
  injection E0 as <- <-. cbn [store].
  unfold fragment_address. rewrite Hk.
  rewrite earlier_payload_salt in Hfree. cbn [o_salt] in Hfree.
  split; [exact Hfree|].
  exists signed. cbn [truthy_str].
  destruct (negb (String.eqb (GrenacheEarlier.getSha chunk) "")); cbn [salt set_salt set_v emptyRec];
    rewrite lookup_insert_eq; auto.
Qed.

Lemma earlier_tasks_dup (slices : list string) :
  forall (seen : list string) (w w' : World) (ps : list string),
    (forall c, c ∈ seen -> taken (o_seq (opts w)) (store w) (fragment_address c)) ->
    (exists c, c ∈ seen /\ c ∈ slices) \/ ~ NoDup slices ->
    taskParallel (GrenacheEarlier.getStoreTasks bk slices) w <> (Done ps, w').
Proof.
  unfold taskParallel, GrenacheEarlier.getStoreTasks.
  induction slices as [|x rest IH]; intros seen w w' ps Hseen Hdup E0;
    cbn [List.map mapM] in E0.
  - destruct Hdup as [(c & _ & Hc)|Hn]; [now apply elem_of_nil in Hc|].
    apply Hn. constructor.
  - apply bind_done in E0. destruct E0 as (a & w1 & E1 & E2).
    apply bind_done in E2. destruct E2 as (ys & w2 & E2 & E3).
    inversion E3; subst. clear E3.
    apply earlier_task_done in E1. destruct E1 as ((Hq & _ & Hkt) & Hfree & Htaken).
    assert (Hx : x ∉ seen) by (intros Hin; apply Hfree, Hseen, Hin).
    apply (IH (x :: seen) w1 w' ys); [| |exact E2].
    + rewrite Hq. intros c [->|Hin]%elem_of_cons; [exact Htaken|].
      apply Hkt, Hseen, Hin.
    + destruct Hdup as [(c & Hc1 & [->|Hc2]%elem_of_cons)|Hn]; [contradiction| |].
      * left. exists c. split; [apply elem_of_cons; right; exact Hc1|exact Hc2].
      * destruct (decide (x ∈ rest)) as [Hin|Hnin].
        -- left. exists x. split; [apply elem_of_cons; left; reflexivity|exact Hin].
        -- right. intros Hnd. apply Hn. constructor; assumption.
Qed.

End Facts.

(** X15: the earlier revision, write then read.  When [put] answers
    an address, [get] at that address returns the payload as [v]; for a
    payload of several fragments the pointer buffer that was stored is
    in [original].  A payload of one fragment must not itself read as a
    pointer buffer; one of several fragments may. *)
Theorem earlier_put_get_roundtrip `{Prim : Primitives} `{Json : JSON} `{Tr : Transport}
    `{!TransportLaws} `{!JSONLaws}
    (bk : GrenacheEarlier.Backend) (data : string) (w w' : World) (a : string) :
  (0 < bufferSizelimit (GrenacheEarlier.conf bk))%Z ->
  (length (sliceData data (bufferSizelimit (GrenacheEarlier.conf bk))) = 1 -> is_chunked data = false) ->
  GrenacheEarlier.put bk data w = (Done a, w') ->
  exists r,
    GrenacheEarlier.get (store w') a false = Done r /\ v r = Some data /\
    (length (sliceData data (bufferSizelimit (GrenacheEarlier.conf bk))) <> 1 ->
     exists ps, original r = Some (wrapPointers ps) /\
                length ps = length (sliceData data (bufferSizelimit (GrenacheEarlier.conf bk)))).
Proof.
  intros HB Hleaf E0. apply earlier_put_held in E0.
  pose proof (sliceData_concat data _ HB) as Hcat.
  assert (Hchunked : forall slices,
    concat_strings slices = data ->
    (exists ps, held (o_seq (opts w)) (store w') a (wrapPointers ps) /\
                Forall2 (held (o_seq (opts w)) (store w')) ps slices) ->
    exists r,
      GrenacheEarlier.get (store w') a false = Done r /\ v r = Some data /\
      exists ps, original r = Some (wrapPointers ps) /\ length ps = length slices).
  { intros slices Hc (ps & (Hne & root & L & Hv & _) & F).
    unfold GrenacheEarlier.get. destruct (String.eqb_spec a "") as [?|_]; [contradiction|].
    unfold transport_get. rewrite L. unfold GrenacheEarlier.maybeRetrieveChunked.
    cbn [v set_id]. rewrite Hv, JSON_parse_wrapPointers, isResultChunked_pointers_object.
    change (property (pointers_object ps) "p") with (Some (JArr (List.map JStr ps))).
    unfold GrenacheEarlier.handleChunked.
    destruct (held_collect _ _ _ _ F) as (recs & -> & Hrecs).
    eexists. split; [reflexivity|]. cbn [v set_v original set_original set_id].
    unfold reduce_v. rewrite (reduce_v_fold _ _ _ Hrecs), append_nil, Hc.
    split; [reflexivity|]. exists ps. split; [exact Hv|].
    exact (Forall2_length _ _ _ F). }
  destruct (sliceData data (bufferSizelimit (GrenacheEarlier.conf bk))) as [|s0 [|s1 rest]] eqn:Es.
  - destruct (Hchunked [] Hcat E0) as (r & Hg & Hv & Ho). exists r. auto.
  - simpl in Hcat. rewrite string_app_nil_r in Hcat. subst s0.
    destruct E0 as (Hne & root & L & Hv & _).
    exists (set_id (Some transport_id) root).
    unfold GrenacheEarlier.get. destruct (String.eqb_spec a "") as [?|_]; [contradiction|].
    unfold transport_get. rewrite L. unfold GrenacheEarlier.maybeRetrieveChunked.
    cbn [v set_id]. rewrite Hv.
    specialize (Hleaf eq_refl). unfold is_chunked in Hleaf.
    split; [|split; [reflexivity|intros Hn; now elim Hn]].
    destruct (JSON_parse data) as [content|]; [|reflexivity]. now rewrite Hleaf.
  - destruct (Hchunked _ Hcat E0) as (r & Hg & Hv & Ho). exists r. auto.
Qed.

(** X16: the earlier revision cannot store a payload in which two
    fragments are equal: both go to the address their common digest
    designates, under the same [seq], and the transport accepts no
    second record there; [put] does not answer an address. *)
Theorem earlier_put_equal_fragments `{Prim : Primitives} `{Json : JSON} `{Tr : Transport}
    `{!TransportLaws}
    (bk : GrenacheEarlier.Backend) (data : string) (w w' : World) (out : outcome string) :
  ~ NoDup (sliceData data (bufferSizelimit (GrenacheEarlier.conf bk))) ->
  GrenacheEarlier.put bk data w = (out, w') ->
  forall a, out <> Done a.
Proof.
  intros Hdup E0 a ->. unfold GrenacheEarlier.put in E0. unfold bind at 1 in E0.
  unfold prepareData in E0.
  assert (Hchunked : forall slices,
    ~ NoDup slices -> GrenacheEarlier.storeChunked bk slices w <> (Done a, w')).
  { intros slices Hn E1. unfold GrenacheEarlier.storeChunked in E1.
    destruct (Z.of_nat (length slices) <? GrenacheEarlier.maxPointersPerBuffer bk)%Z; [|discriminate].
    apply bind_done in E1. destruct E1 as (ps & w1 & E1 & _).
    revert E1. apply (earlier_tasks_dup bk slices []); [|right; exact Hn].
    intros c Hc. now apply elem_of_nil in Hc. }
  destruct (sliceData data (bufferSizelimit (GrenacheEarlier.conf bk))) as [|s0 [|s1 rest]].
  - exact (Hchunked _ Hdup E0).
  - apply Hdup. apply NoDup_singleton.
  - exact (Hchunked _ Hdup E0).
Qed.

(** X17: the earlier revision has one level of pointers: a payload of
    two or more fragments, as many as fit one pointer buffer or more, is
    turned down by an exception before anything is sent; the callback
    of [put] is not invoked and no state changes. *)
Theorem earlier_put_too_many_fragments `{Prim : Primitives} `{Json : JSON} `{Tr : Transport}
    (bk : GrenacheEarlier.Backend) (data : string) (w : World) :
  2 <= length (sliceData data (bufferSizelimit (GrenacheEarlier.conf bk))) ->
  (GrenacheEarlier.maxPointersPerBuffer bk
   <= Z.of_nat (length (sliceData data (bufferSizelimit (GrenacheEarlier.conf bk)))))%Z ->
  GrenacheEarlier.put bk data w = (NoCallback, w).
Proof.
  intros Hn HK. unfold GrenacheEarlier.put. unfold bind at 1. unfold prepareData.
  destruct (sliceData data (bufferSizelimit (GrenacheEarlier.conf bk))) as [|s0 [|s1 rest]];
    try (simpl in Hn; lia).
  unfold GrenacheEarlier.storeChunked.
  destruct (Z.ltb_spec (Z.of_nat (length (s0 :: s1 :: rest))) (GrenacheEarlier.maxPointersPerBuffer bk));
    [lia|reflexivity].
Qed.

(** *** Writing the same payload again *)

Section Again.
Context `{Prim : Primitives} `{Json : JSON} `{Tr : Transport}.
Context `{!TransportLaws}.
Variable bk : GrenacheEarlier.Backend.

Lemma earlier_send_done (data : string) (w w' : World) (a : string) :
  GrenacheEarlier.send bk data w = (Done a, w') ->
  opts w' = opts w /\ taken (o_seq (opts w)) (store w') a /\
  exists ks, keys (GrenacheEarlier.conf bk) = Some ks /\
    a = mutable_address (publicKey ks) (salt (GrenacheEarlier.getPayload data (opts w))).
Proof.
  intros E0. pose proof (earlier_send_cases bk data w) as Hc. cbv zeta in Hc.
  destruct Hc as [[_ E1]|(ks & signed & Hk & Hv & Hs & [[_ E1]|[Hfree E1]])];
    rewrite E1 in E0; try discriminate.
  injection E0 as <- <-. cbn [store opts].
  split; [reflexivity|]. split; [|eauto].
  exists signed. rewrite lookup_insert_eq. auto.
Qed.

Lemma earlier_send_taken (data : string) (w w' : World) (a : string) (ks : Keys) :
  keys (GrenacheEarlier.conf bk) = Some ks ->
  taken (o_seq (opts w)) (store w)
        (mutable_address (publicKey ks) (salt (GrenacheEarlier.getPayload data (opts w)))) ->
  GrenacheEarlier.send bk data w <> (Done a, w').
Proof.
  intros Hk Ht E0. pose proof (earlier_send_cases bk data w) as Hc. cbv zeta in Hc.
  destruct Hc as [[_ E1]|(ks' & signed & Hk' & Hv & Hs & [[_ E1]|[Hfree E1]])];
    rewrite E1 in E0; try discriminate.
  apply Hfree. assert (ks' = ks) by congruence. subst ks'. exact Ht.
Qed.

Lemma earlier_tasks_taken (slices : list string) :
  forall (w w' : World) (ps : list string),
    taskParallel (GrenacheEarlier.getStoreTasks bk slices) w = (Done ps, w') ->
    forall c, c ∈ slices -> taken (o_seq (opts w)) (store w') (fragment_address bk c).
Proof.
  induction slices as [|x rest IH]; intros w w' ps E0 c Hc;
    [now apply elem_of_nil in Hc|].
  unfold taskParallel, GrenacheEarlier.getStoreTasks in E0. cbn [List.map mapM] in E0.
  apply bind_done in E0. destruct E0 as (a & w1 & E1 & E2).
  apply bind_done in E2. destruct E2 as (ys & w2 & E2 & E3).
  inversion E3; subst. clear E3.
  apply earlier_task_done in E1. destruct E1 as ((Hq & _) & _ & Htaken).
  pose proof (earlier_tasks_kept bk rest w1 w' ys E2) as ((_ & _ & Hkt) & _).
  apply elem_of_cons in Hc. destruct Hc as [->|Hc].
  - rewrite Hq in Hkt. apply Hkt, Htaken.
  - rewrite <- Hq. exact (IH w1 w' ys E2 c Hc).
Qed.

End Again.

(** X18: the earlier revision stores a payload once per [seq]: when
    [put] has answered an address, the same [put] again - same payload,
    same options object - does not answer one.  Its first record goes
    to the address the first write took, under the same [seq]. *)
Theorem earlier_put_again `{Prim : Primitives} `{Json : JSON} `{Tr : Transport}
    `{!TransportLaws}
    (bk : GrenacheEarlier.Backend) (data : string) (w w1 w2 : World)
    (a : string) (out : outcome string) :
  GrenacheEarlier.put bk data w = (Done a, w1) ->
  GrenacheEarlier.put bk data w1 = (out, w2) ->
  forall a', out <> Done a'.
Proof.
  intros E1 E2 a' ->.
  unfold GrenacheEarlier.put in E1, E2.
  unfold bind at 1 in E1. unfold bind at 1 in E2. unfold prepareData in E1, E2.
  pose proof (sliceData_nonempty data (bufferSizelimit (GrenacheEarlier.conf bk))) as Hne.
  destruct (sliceData data (bufferSizelimit (GrenacheEarlier.conf bk)))
    as [|s0 [|s1 rest]]; [congruence| |].
  - apply bind_done in E1. destruct E1 as ([] & w0 & E1 & Es1).
    apply bind_done in E2. destruct E2 as ([] & w0' & E2 & Es2).
    apply earlier_send_done in Es1. destruct Es1 as (Eo & Ht & ks & Hk & ->).
    assert (Hsame : opts w0' = opts w0 /\ store w0' = store w1).
    { destruct (truthy_str (o_salt (opts w))) eqn:T1.
      - unfold ret in E1. inversion E1; subst w0.
        rewrite Eo, T1 in E2. unfold ret in E2. inversion E2; subst w0'. auto.
      - unfold set_opts_salt in E1. inversion E1; subst w0. cbn [opts] in Eo.
        destruct (truthy_str (o_salt (opts w1))).
        + unfold ret in E2. inversion E2; subst w0'. auto.
        + unfold set_opts_salt in E2. inversion E2; subst w0'. cbn [opts store].
          rewrite Eo. auto. }
    destruct Hsame as (Ho & Hst).
    revert Es2. apply (earlier_send_taken bk s0 w0' w2 a' ks Hk).
    rewrite Ho, Hst. exact Ht.
  - unfold GrenacheEarlier.storeChunked in E1, E2.
    destruct (Z.of_nat (length (s0 :: s1 :: rest))
              <? GrenacheEarlier.maxPointersPerBuffer bk)%Z; [|discriminate].
    apply bind_done in E1. destruct E1 as (ps & wA & E1 & Er).
    apply bind_done in E2. destruct E2 as (ps' & wB & E2 & _).
    pose proof (earlier_tasks_kept bk _ _ _ _ E1) as ((HqA & _) & _).
    pose proof (earlier_tasks_taken bk _ _ _ _ E1 s0 ltac:(constructor)) as Ht.
    cbv zeta in Er. apply earlier_task_kept in Er. destruct Er as ((Hq1 & _ & Hkt) & _).
    rewrite <- HqA in Ht. apply Hkt in Ht. rewrite <- Hq1 in Ht.
    revert E2. apply (earlier_tasks_dup bk _ [s0]).
    + intros c Hc. apply elem_of_cons in Hc.
      destruct Hc as [->|Hc]; [exact Ht|now apply elem_of_nil in Hc].
    + left. exists s0. split; constructor.
Qed.

(** *** The theorems at work on the concrete platform *)

Lemma earlier_put_get_roundtrip_witness :
  exists r,
    GrenacheEarlier.get (store (snd (GrenacheEarlier.put earlier48 (repeat_a 49) (world0 seq1))))
      (answer (GrenacheEarlier.put earlier48 (repeat_a 49) (world0 seq1))) false = Done r /\
    v r = Some (repeat_a 49).
Proof.
  destruct (earlier_put_get_roundtrip earlier48 (repeat_a 49) (world0 seq1)
              (snd (GrenacheEarlier.put earlier48 (repeat_a 49) (world0 seq1)))
              (answer (GrenacheEarlier.put earlier48 (repeat_a 49) (world0 seq1))))
    as (r & Hg & Hv & _).
  - vm_compute. reflexivity.
  - vm_compute. discriminate.
  - vm_compute. reflexivity.
  - exists r. split; [exact Hg|exact Hv].
Defined.

Lemma earlier_put_equal_fragments_witness :
  fst (GrenacheEarlier.put earlier48 (repeat_a 96) (world0 seq1))
  <> Done (mutable_address (publicKey toy_keys) None).
Proof.
  apply (earlier_put_equal_fragments earlier48 (repeat_a 96) (world0 seq1)
           (snd (GrenacheEarlier.put earlier48 (repeat_a 96) (world0 seq1)))
           (fst (GrenacheEarlier.put earlier48 (repeat_a 96) (world0 seq1)))).
  - vm_compute. intros Hnd. apply NoDup_cons in Hnd. destruct Hnd as [Hnd _].
    apply Hnd. constructor.
  - vm_compute. reflexivity.
Defined.

Lemma earlier_put_too_many_fragments_witness :
  GrenacheEarlier.put earlier48 (repeat_a 144) (world0 seq1) = (NoCallback, world0 seq1).
Proof.
  apply (earlier_put_too_many_fragments earlier48 (repeat_a 144) (world0 seq1)).
  - vm_compute. lia.
  - vm_compute. discriminate.
Defined.

Lemma earlier_put_again_witness :
  fst (GrenacheEarlier.put earlier48 (repeat_a 49)
         (snd (GrenacheEarlier.put earlier48 (repeat_a 49) (world0 seq1))))
  <> Done (answer (GrenacheEarlier.put earlier48 (repeat_a 49) (world0 seq1))).
Proof.
  apply (earlier_put_again earlier48 (repeat_a 49) (world0 seq1)
           (snd (GrenacheEarlier.put earlier48 (repeat_a 49) (world0 seq1)))
           (snd (GrenacheEarlier.put earlier48 (repeat_a 49)
                   (snd (GrenacheEarlier.put earlier48 (repeat_a 49) (world0 seq1)))))
           (answer (GrenacheEarlier.put earlier48 (repeat_a 49) (world0 seq1)))).
  - vm_compute. reflexivity.
  - vm_compute. reflexivity.
Defined.

End GrenacheEarlierFacts.
